(** * Suurballe: arc-disjoint paths of minimum total length

    A shallow embedding of [lemon/suurballe.h] (class [Suurballe] and its
    private engine [ResidualDijkstra]) together with the properties of the
    flow, of the node potentials and of the extracted paths.

    Conventions.
    - [Node] and [Arc] are the integer ids of LEMON; [INVALID] in a
      [NodeMap<Arc>] is [None].
    - [Length] is the template parameter [LengthMap::Value], an integer type;
      it is instantiated with [Z] (signed overflow is undefined in C++ and is
      outside this model).
    - Node maps and arc maps are total functions on ids, updated pointwise.
    - Loops that are not bounded syntactically carry a fuel argument and
      return [None] when it runs out; the totality lemmas show how much fuel
      is enough. *)

From Stdlib Require Import ZArith List Bool Arith Lia Permutation.
Import ListNotations.
Local Open Scope Z_scope.

Set Implicit Arguments.

(** ** Identifiers and maps *)

Abbreviation Node := nat (only parsing).
Abbreviation Arc := nat (only parsing).
Abbreviation Length := Z (only parsing).

Definition upd {A : Type} (m : nat -> A) (k : nat) (v : A) : nat -> A :=
  fun x => if Nat.eqb x k then v else m x.

Lemma upd_same : forall (A : Type) (m : nat -> A) k v, upd m k v k = v.
Proof. intros; unfold upd; now rewrite Nat.eqb_refl. Qed.

Lemma upd_other : forall (A : Type) (m : nat -> A) k v x, x <> k -> upd m k v x = m x.
Proof.
  intros; unfold upd. destruct (Nat.eqb_spec x k); congruence.
Qed.

(** ** The digraph interface

    [GR] is a template parameter of the class: the algorithm only uses the
    node and arc iterators, the incidence iterators and [source]/[target].
    The lists give the order in which the iterators visit their elements. *)

Record Digraph : Type := {
  nodes : list Node;              (* NodeIt *)
  arcs : list Arc;                (* ArcIt *)
  source : Arc -> Node;
  target : Arc -> Node;
  outArcs : Node -> list Arc;     (* OutArcIt *)
  inArcs : Node -> list Arc       (* InArcIt *)
}.

(** Each iteration visits each element exactly once, and the incidence
    iterators agree with [source] and [target]. *)
Record wf_graph (G : Digraph) : Prop := {
  wf_nodes_nodup : NoDup (nodes G);
  wf_arcs_nodup : NoDup (arcs G);
  wf_source : forall e, In e (arcs G) -> In (source G e) (nodes G);
  wf_target : forall e, In e (arcs G) -> In (target G e) (nodes G);
  wf_out_nodup : forall u, NoDup (outArcs G u);
  wf_out : forall u e, In e (outArcs G u) <-> In e (arcs G) /\ source G e = u;
  wf_in_nodup : forall u, NoDup (inArcs G u);
  wf_in : forall u e, In e (inArcs G u) <-> In e (arcs G) /\ target G e = u
}.

(** A concrete digraph: [n] nodes [0..n-1], arc [i] is the [i]-th pair of
    [al]; every iterator runs in increasing id order. *)
Definition arc_src (al : list (Node * Node)) (e : Arc) : Node := fst (nth e al (0%nat, 0%nat)).
Definition arc_tgt (al : list (Node * Node)) (e : Arc) : Node := snd (nth e al (0%nat, 0%nat)).

Definition mkDigraph (n : nat) (al : list (Node * Node)) : Digraph :=
  {| nodes := seq 0 n;
     arcs := seq 0 (length al);
     source := arc_src al;
     target := arc_tgt al;
     outArcs := fun u => filter (fun e => Nat.eqb (arc_src al e) u) (seq 0 (length al));
     inArcs := fun u => filter (fun e => Nat.eqb (arc_tgt al e) u) (seq 0 (length al)) |}.

(** The same digraph with the incidence iterators running in decreasing id
    order (the order of a list digraph, which links a new arc at the front). *)
Definition mkDigraphRev (n : nat) (al : list (Node * Node)) : Digraph :=
  {| nodes := seq 0 n;
     arcs := seq 0 (length al);
     source := arc_src al;
     target := arc_tgt al;
     outArcs := fun u => rev (filter (fun e => Nat.eqb (arc_src al e) u) (seq 0 (length al)));
     inArcs := fun u => rev (filter (fun e => Nat.eqb (arc_tgt al e) u) (seq 0 (length al))) |}.

Definition arcs_in_range (n : nat) (al : list (Node * Node)) : bool :=
  forallb (fun p => Nat.ltb (fst p) n && Nat.ltb (snd p) n) al.

(** ** The heap interface *)

Inductive State : Type := IN_HEAP | PRE_HEAP | POST_HEAP.

(** Modelled from the spec: the heap [BinHeap] of lemon/bin_heap.h is not part
    of the sources.  The operations are those of the heap concept
    (lemon/concepts/heap.h) that the engine calls; [heap_new] is a heap built
    over a cross reference map filled with [PRE_HEAP]. *)
Class HeapOps (H : Type) : Type := {
  heap_new : H;
  heap_empty : H -> bool;
  heap_push : H -> Node -> Length -> H;
  heap_top : H -> Node;
  heap_prio : H -> Length;
  heap_pop : H -> H;
  heap_get : H -> Node -> Length;                 (* operator[] *)
  heap_decrease : H -> Node -> Length -> H;
  heap_state : H -> Node -> State
}.

(** Modelled from the spec: the contract of the heap concept.  [heap_ok] is
    the representation invariant of an implementation; the item with minimum
    priority is at the top, ties are resolved by the implementation. *)
Class HeapLaws (H : Type) {HO : HeapOps H} : Type := {
  heap_ok : H -> Prop;
  heap_new_ok : heap_ok heap_new;
  heap_new_state : forall v, heap_state heap_new v = PRE_HEAP;
  heap_empty_spec : forall h, heap_ok h ->
    (heap_empty h = true <-> forall v, heap_state h v <> IN_HEAP);
  heap_top_in : forall h, heap_ok h -> heap_empty h = false ->
    heap_state h (heap_top h) = IN_HEAP;
  heap_top_min : forall h v, heap_ok h -> heap_state h v = IN_HEAP ->
    heap_get h (heap_top h) <= heap_get h v;
  heap_prio_top : forall h, heap_ok h -> heap_empty h = false ->
    heap_prio h = heap_get h (heap_top h);
  heap_push_ok : forall h v p, heap_ok h -> heap_state h v <> IN_HEAP ->
    heap_ok (heap_push h v p);
  heap_push_state : forall h v p w, heap_ok h -> heap_state h v <> IN_HEAP ->
    heap_state (heap_push h v p) w = if Nat.eqb w v then IN_HEAP else heap_state h w;
  heap_push_get : forall h v p w, heap_ok h -> heap_state h v <> IN_HEAP ->
    heap_get (heap_push h v p) w = if Nat.eqb w v then p else heap_get h w;
  heap_pop_ok : forall h, heap_ok h -> heap_empty h = false -> heap_ok (heap_pop h);
  heap_pop_state : forall h w, heap_ok h -> heap_empty h = false ->
    heap_state (heap_pop h) w = if Nat.eqb w (heap_top h) then POST_HEAP else heap_state h w;
  heap_pop_get : forall h w, heap_ok h -> heap_empty h = false -> w <> heap_top h ->
    heap_get (heap_pop h) w = heap_get h w;
  heap_decrease_ok : forall h v p, heap_ok h -> heap_state h v = IN_HEAP ->
    p <= heap_get h v -> heap_ok (heap_decrease h v p);
  heap_decrease_state : forall h v p w, heap_ok h -> heap_state h v = IN_HEAP ->
    p <= heap_get h v -> heap_state (heap_decrease h v p) w = heap_state h w;
  heap_decrease_get : forall h v p w, heap_ok h -> heap_state h v = IN_HEAP ->
    p <= heap_get h v ->
    heap_get (heap_decrease h v p) w = if Nat.eqb w v then p else heap_get h w
}.

Arguments HeapLaws H {HO}.

(** A reference implementation of the interface: the items in the heap are
    kept in a list, the top is the first item of minimum priority. *)
Module ListHeap.

Record t : Type := {
  st : Node -> State;
  pr : Node -> Length;
  items : list Node
}.

Fixpoint best (p : Node -> Length) (l : list Node) (b : Node) : Node :=
  match l with
  | [] => b
  | v :: l' => if p v <? p b then best p l' v else best p l' b
  end.

Definition top (h : t) : Node :=
  match items h with
  | [] => 0%nat
  | v :: l => best (pr h) l v
  end.

Fixpoint remove (v : Node) (l : list Node) : list Node :=
  match l with
  | [] => []
  | x :: l' => if Nat.eqb x v then remove v l' else x :: remove v l'
  end.

Definition new : t := {| st := fun _ => PRE_HEAP; pr := fun _ => 0; items := [] |}.

Definition empty (h : t) : bool :=
  match items h with [] => true | _ => false end.

Definition push (h : t) (v : Node) (p : Length) : t :=
  {| st := upd (st h) v IN_HEAP; pr := upd (pr h) v p; items := items h ++ [v] |}.

Definition pop (h : t) : t :=
  {| st := upd (st h) (top h) POST_HEAP; pr := pr h; items := remove (top h) (items h) |}.

Definition decrease (h : t) (v : Node) (p : Length) : t :=
  {| st := st h; pr := upd (pr h) v p; items := items h |}.

Definition ok (h : t) : Prop := forall v, st h v = IN_HEAP <-> In v (items h).

End ListHeap.

#[export] Instance ListHeap_ops : HeapOps ListHeap.t := {|
  heap_new := ListHeap.new;
  heap_empty := ListHeap.empty;
  heap_push := ListHeap.push;
  heap_top := ListHeap.top;
  heap_prio := fun h => ListHeap.pr h (ListHeap.top h);
  heap_pop := ListHeap.pop;
  heap_get := ListHeap.pr;
  heap_decrease := ListHeap.decrease;
  heap_state := ListHeap.st
|}.

(** ** The algorithm *)

(** State of the private engine object [ResidualDijkstra]; the references
    [_flow], [_potential] and [_pred] alias the maps of the enclosing
    [Suurballe] object and are not repeated here. *)
Record ResidualDijkstra : Type := {
  _dist : Node -> Length;
  _proc_nodes : list Node;
  _s : Node;
  _t : Node
}.

Record Suurballe : Type := {
  _flow : Arc -> Z;
  _potential : Node -> Length;
  _source : Node;
  _target : Node;
  paths : list (list Arc);
  _path_num : Z;
  _pred : Node -> option Arc;
  _dijkstra : ResidualDijkstra
}.

(** Local variables of one call of [ResidualDijkstra::run] together with the
    maps it writes while the heap is being processed. *)
Record Search (H : Type) : Type := {
  s_heap : H;
  s_dist : Node -> Length;
  s_pred : Node -> option Arc;
  s_proc : list Node
}.

(** A small state and error monad for the member functions. *)
Definition M (A : Type) : Type := Suurballe -> option (A * Suurballe).

Definition ret {A : Type} (a : A) : M A := fun st => Some (a, st).

Definition bind {A B : Type} (m : M A) (f : A -> M B) : M B :=
  fun st => match m st with
            | Some (a, st') => f a st'
            | None => None
            end.

Definition get_st : M Suurballe := fun st => Some (st, st).
Definition put_st (st : Suurballe) : M unit := fun _ => Some (tt, st).
Definition lift {A : Type} (o : option A) : M A :=
  fun st => match o with Some a => Some (a, st) | None => None end.

Declare Scope suurballe_scope.
Delimit Scope suurballe_scope with su.
Notation "x <- m ;; k" := (bind m (fun x => k))
  (at level 61, m at next level, right associativity) : suurballe_scope.
Notation "m ;; k" := (bind m (fun _ => k))
  (at level 61, right associativity) : suurballe_scope.

Section Algorithm.

Context {H : Type} {HO : HeapOps H}.
Variable G : Digraph.                    (* _graph *)
Variable length_map : Arc -> Length.     (* _length *)

(** *** ResidualDijkstra::run *)

(** The body of one [switch (heap.state(v))]. *)
Definition relax (v : Node) (e : Arc) (nd : Length)
    (hp : H * (Node -> option Arc)) : H * (Node -> option Arc) :=
  match heap_state (fst hp) v with
  | PRE_HEAP => (heap_push (fst hp) v nd, upd (snd hp) v (Some e))
  | IN_HEAP =>
      if nd <? heap_get (fst hp) v
      then (heap_decrease (fst hp) v nd, upd (snd hp) v (Some e))
      else hp
  | POST_HEAP => hp
  end.

(** One iteration of the [while] loop that processes the heap. *)
Definition process (flow : Arc -> Z) (potential : Node -> Length)
    (st : Search H) : Search H :=
  let u := heap_top (s_heap st) in
  let d := heap_prio (s_heap st) + potential u in
  let dist := upd (s_dist st) u (heap_prio (s_heap st)) in
  let heap := heap_pop (s_heap st) in
  let proc := s_proc st ++ [u] in
  (* Traverse outgoing arcs *)
  let hp1 :=
    fold_left (fun hp e =>
                 if flow e =? 0
                 then relax (target G e) e (d + length_map e - potential (target G e)) hp
                 else hp)
              (outArcs G u) (heap, s_pred st) in
  (* Traverse incoming arcs *)
  let hp2 :=
    fold_left (fun hp e =>
                 if flow e =? 1
                 then relax (source G e) e (d - length_map e - potential (source G e)) hp
                 else hp)
              (inArcs G u) hp1 in
  {| s_heap := fst hp2; s_dist := dist; s_pred := snd hp2; s_proc := proc |}.

Fixpoint search_loop (fuel : nat) (flow : Arc -> Z) (potential : Node -> Length)
    (t : Node) (st : Search H) : option (Search H) :=
  match fuel with
  | O => None
  | S fuel' =>
      if negb (heap_empty (s_heap st)) && negb (Nat.eqb (heap_top (s_heap st)) t)
      then search_loop fuel' flow potential t (process flow potential st)
      else Some st
  end.

(** Update potentials of processed nodes. *)
Definition update_potentials (dist : Node -> Length) (t_dist : Length)
    (proc : list Node) (potential : Node -> Length) : Node -> Length :=
  fold_left (fun pot x => upd pot x (pot x + (dist x - t_dist))) proc potential.

Definition ResidualDijkstra_run (fuel : nat) : M bool :=
  fun st =>
    let dj := _dijkstra st in
    let start :=
      {| s_heap := heap_push heap_new (_s dj) 0;
         s_dist := _dist dj;
         s_pred := upd (_pred st) (_s dj) None;
         s_proc := [] |} in
    match search_loop fuel (_flow st) (_potential st) (_t dj) start with
    | None => None
    | Some r =>
        let dj' := {| _dist := s_dist r; _proc_nodes := s_proc r;
                      _s := _s dj; _t := _t dj |} in
        if heap_empty (s_heap r)
        then Some (false,
                   {| _flow := _flow st; _potential := _potential st;
                      _source := _source st; _target := _target st;
                      paths := paths st; _path_num := _path_num st;
                      _pred := s_pred r; _dijkstra := dj' |})
        else
          let t_dist := heap_prio (s_heap r) in
          Some (true,
                {| _flow := _flow st;
                   _potential :=
                     update_potentials (s_dist r) t_dist (s_proc r) (_potential st);
                   _source := _source st; _target := _target st;
                   paths := paths st; _path_num := _path_num st;
                   _pred := s_pred r; _dijkstra := dj' |})
    end.

(** *** Suurballe::init *)

Definition init_maps (s : Node) (st : Suurballe) : Suurballe :=
  {| _flow := fold_left (fun f e => upd f e 0) (arcs G) (_flow st);
     _potential := fold_left (fun p n => upd p n 0) (nodes G) (_potential st);
     _source := s; _target := _target st;
     paths := paths st; _path_num := _path_num st;
     _pred := _pred st; _dijkstra := _dijkstra st |}.

Definition init (s : Node) : M unit :=
  fun st => Some (tt, init_maps s st).

(** *** Suurballe::findFlow *)

(** Set the flow along the found shortest path: the walk over [_pred]
    starting at [u]. *)
Fixpoint set_flow (fuel : nat) (pred : Node -> option Arc) (u : Node)
    (flow : Arc -> Z) : option (Arc -> Z) :=
  match fuel with
  | O => None
  | S fuel' =>
      match pred u with
      | None => Some flow
      | Some e =>
          if Nat.eqb u (target G e)
          then set_flow fuel' pred (source G e) (upd flow e 1)
          else set_flow fuel' pred (target G e) (upd flow e 0)
      end
  end.

(** One iteration of [while (_path_num < k)]; the result is [false] when
    the loop is left through [break]. *)
Definition augment (fuel : nat) : M bool :=
  (found <- ResidualDijkstra_run fuel ;;
   if found : bool then
     st <- get_st ;;
     flow' <- lift (set_flow fuel (_pred st) (_target st) (_flow st)) ;;
     put_st {| _flow := flow'; _potential := _potential st;
               _source := _source st; _target := _target st;
               paths := paths st; _path_num := _path_num st + 1;
               _pred := _pred st; _dijkstra := _dijkstra st |} ;;
     ret true
   else ret false)%su.

(** The loop, by recursion on the number [k - _path_num] of iterations
    that are left. *)
Fixpoint findFlow_loop (fuel : nat) (left : nat) : M unit :=
  match left with
  | O => ret tt
  | S left' =>
      (continue <- augment fuel ;;
       if continue : bool then findFlow_loop fuel left' else ret tt)%su
  end.

(** The state after [j] completed iterations of the loop (each one a
    successful search, the update of the potentials and the flow set along
    the path), when the loop body can be completed that many times. *)
Fixpoint iterations (fuel : nat) (j : nat) (st : Suurballe) : option Suurballe :=
  match j with
  | O => Some st
  | S j' =>
      match iterations fuel j' st with
      | Some st1 =>
          match augment fuel st1 with
          | Some (true, st2) => Some st2
          | _ => None
          end
      | None => None
      end
  end.

Definition findFlow_begin (t : Node) (st : Suurballe) : Suurballe :=
  {| _flow := _flow st; _potential := _potential st;
     _source := _source st; _target := t;
     paths := paths st; _path_num := 0;
     _pred := _pred st;
     _dijkstra := {| _dist := fun _ => 0;   (* a new map [_dist(graph)] *)
                     _proc_nodes := [];
                     _s := _source st; _t := t |} |}.

Definition findFlow (fuel : nat) (t : Node) (k : Z) : M Z :=
  (st <- get_st ;;
   put_st (findFlow_begin t st) ;;
   findFlow_loop fuel (Z.to_nat k) ;;
   st' <- get_st ;;
   ret (_path_num st'))%su.

(** *** Suurballe::findPaths *)

(** [for ( ; res_flow[e] == 0; ++e) ;] over the outgoing arcs; running
    past the last arc is undefined. *)
Fixpoint first_flow_arc (res_flow : Arc -> Z) (l : list Arc) : option Arc :=
  match l with
  | [] => None
  | e :: l' => if res_flow e =? 0 then first_flow_arc res_flow l' else Some e
  end.

(** [while (n != _target)] for one path. *)
Fixpoint walk (fuel : nat) (t : Node) (n : Node) (res_flow : Arc -> Z)
    (p : list Arc) : option (list Arc * (Arc -> Z)) :=
  match fuel with
  | O => None
  | S fuel' =>
      if Nat.eqb n t then Some (p, res_flow)
      else
        match first_flow_arc res_flow (outArcs G n) with
        | None => None
        | Some e => walk fuel' t (target G e) (upd res_flow e 0) (p ++ [e])
        end
  end.

Fixpoint findPaths_loop (fuel : nat) (i : nat) (s t : Node) (res_flow : Arc -> Z)
    (ps : list (list Arc)) : option (list (list Arc) * (Arc -> Z)) :=
  match i with
  | O => Some (ps, res_flow)
  | S i' =>
      match walk fuel t s res_flow [] with
      | None => None
      | Some (p, res_flow') => findPaths_loop fuel i' s t res_flow' (ps ++ [p])
      end
  end.

Definition findPaths (fuel : nat) : M unit :=
  (st <- get_st ;;
   let res_flow := fold_left (fun r a => upd r a (_flow st a)) (arcs G) (fun _ => 0) in
   r <- lift (findPaths_loop fuel (Z.to_nat (_path_num st)) (_source st) (_target st)
                             res_flow []) ;;
   put_st {| _flow := _flow st; _potential := _potential st;
             _source := _source st; _target := _target st;
             paths := fst r; _path_num := _path_num st;
             _pred := _pred st; _dijkstra := _dijkstra st |})%su.

(** *** Suurballe::run *)

Definition run (fuel : nat) (s t : Node) (k : Z) : M Z :=
  (init s ;;
   findFlow fuel t k ;;
   findPaths fuel ;;
   st <- get_st ;;
   ret (_path_num st))%su.

(** The sequence [init(s); findFlow(t, k); findPaths(); return path_num]
    of the specification, written with the state passed explicitly. *)
Definition run_sequence (fuel : nat) (s t : Node) (k : Z) (st : Suurballe)
    : option (Z * Suurballe) :=
  match init s st with
  | None => None
  | Some (_, st1) =>
      match findFlow fuel t k st1 with
      | None => None
      | Some (_, st2) =>
          match findPaths fuel st2 with
          | None => None
          | Some (_, st3) => Some (_path_num st3, st3)
          end
      end
  end.

(** *** Query functions *)

Definition totalLength (st : Suurballe) : Length :=
  fold_left (fun c e => c + _flow st e * length_map e) (arcs G) 0.

Definition flow (st : Suurballe) (arc : Arc) : Z := _flow st arc.
Definition potential (st : Suurballe) (node : Node) : Length := _potential st node.
Definition pathNum (st : Suurballe) : Z := _path_num st.
(** [path(i)]; an index outside [0 .. pathNum()-1] is undefined. *)
Definition path (st : Suurballe) (i : nat) : option (list Arc) := nth_error (paths st) i.

End Algorithm.

(** A freshly constructed object (no maps supplied). *)
Definition new_Suurballe : Suurballe :=
  {| _flow := fun _ => 0; _potential := fun _ => 0;
     _source := 0%nat; _target := 0%nat;
     paths := []; _path_num := 0;
     _pred := fun _ => None;
     _dijkstra := {| _dist := fun _ => 0; _proc_nodes := []; _s := 0%nat; _t := 0%nat |} |}.

Unset Implicit Arguments.

(** ** The reference heap satisfies the contract *)

Lemma ListHeap_best_in : forall p l b, In (ListHeap.best p l b) (b :: l).
Proof.
  intros p l; induction l as [|v l IH]; intros b; simpl.
  - now left.
  - destruct (p v <? p b); [ destruct (IH v) | destruct (IH b) ]; auto.
Qed.

Lemma ListHeap_best_min : forall p l b x,
  In x (b :: l) -> p (ListHeap.best p l b) <= p x.
Proof.
  intros p l; induction l as [|v l IH]; intros b x Hx; simpl.
  - destruct Hx as [->|[]]; lia.
  - destruct (Z.ltb_spec (p v) (p b)) as [Hlt|Hge].
    + destruct Hx as [->|[->|Hx]].
      * specialize (IH v v (or_introl eq_refl)); lia.
      * apply IH; now left.
      * apply IH; now right.
    + destruct Hx as [->|[->|Hx]].
      * apply IH; now left.
      * specialize (IH b b (or_introl eq_refl)); lia.
      * apply IH; now right.
Qed.

Lemma ListHeap_remove_in : forall v l x,
  In x (ListHeap.remove v l) <-> In x l /\ x <> v.
Proof.
  intros v l x; induction l as [|y l IH]; simpl.
  - tauto.
  - destruct (Nat.eqb_spec y v) as [->|Hne]; simpl; rewrite IH.
    + split; [tauto | intros [[<-|] ?]; tauto].
    + split; [intros [<-|[? ?]]; auto | tauto].
Qed.

Lemma ListHeap_top_in : forall h, ListHeap.items h <> [] -> In (ListHeap.top h) (ListHeap.items h).
Proof.
  intros h Hne; unfold ListHeap.top.
  destruct (ListHeap.items h) as [|v l]; [congruence|].
  apply ListHeap_best_in.
Qed.

Lemma ListHeap_empty_false : forall h, ListHeap.empty h = false -> ListHeap.items h <> [].
Proof. intros h; unfold ListHeap.empty; destruct (ListHeap.items h); congruence. Qed.

#[export, refine] Instance ListHeap_laws : HeapLaws ListHeap.t := {| heap_ok := ListHeap.ok |}.
Proof.
  - intros v; simpl; split; [discriminate | tauto].
  - reflexivity.
  - intros h Hok; simpl; unfold ListHeap.empty; split.
    + destruct (ListHeap.items h) eqn:E; [|discriminate].
      intros _ v Hv. apply Hok in Hv. now rewrite E in Hv.
    + intros Hall. destruct (ListHeap.items h) as [|v l] eqn:E; [reflexivity|].
      exfalso; apply (Hall v), Hok; rewrite E; now left.
  - intros h Hok Hne; simpl in *. apply Hok, ListHeap_top_in, ListHeap_empty_false, Hne.
  - intros h v Hok Hv; simpl in *. apply Hok in Hv. unfold ListHeap.top.
    destruct (ListHeap.items h) as [|b l]; [destruct Hv|].
    now apply ListHeap_best_min.
  - reflexivity.
  - intros h v p Hok Hv w; simpl; unfold upd; split.
    + destruct (Nat.eqb_spec w v) as [->|Hne]; intros Hw; apply in_or_app.
      * right; now left.
      * left; now apply Hok.
    + intros Hw; apply in_app_or in Hw.
      destruct (Nat.eqb_spec w v); [reflexivity|].
      destruct Hw as [Hw|[->|[]]]; [now apply Hok | congruence].
  - reflexivity.
  - reflexivity.
  - intros h Hok Hne w; simpl; unfold upd; rewrite ListHeap_remove_in.
    destruct (Nat.eqb_spec w (ListHeap.top h)) as [->|Hw].
    + split; [discriminate | tauto].
    + rewrite (Hok w); tauto.
  - reflexivity.
  - reflexivity.
  - intros h v p Hok _ _; exact Hok.
  - reflexivity.
  - reflexivity.
Defined.

(** ** The concrete digraphs are well formed *)

Lemma arcs_in_range_nth : forall n al e,
  arcs_in_range n al = true -> (e < length al)%nat ->
  (arc_src al e < n)%nat /\ (arc_tgt al e < n)%nat.
Proof.
  intros n al e Hr He. unfold arcs_in_range in Hr.
  rewrite forallb_forall in Hr.
  specialize (Hr (nth e al (0%nat, 0%nat)) (nth_In al _ He)).
  apply andb_true_iff in Hr; destruct Hr as [H1 H2].
  apply Nat.ltb_lt in H1, H2. now unfold arc_src, arc_tgt.
Qed.

Lemma mkDigraph_wf : forall n al, arcs_in_range n al = true -> wf_graph (mkDigraph n al).
Proof.
  intros n al Hr; constructor; simpl.
  - apply seq_NoDup.
  - apply seq_NoDup.
  - intros e He; apply in_seq in He; apply in_seq.
    destruct (arcs_in_range_nth n al e Hr); lia.
  - intros e He; apply in_seq in He; apply in_seq.
    destruct (arcs_in_range_nth n al e Hr); lia.
  - intros u; apply NoDup_filter, seq_NoDup.
  - intros u e; rewrite filter_In, Nat.eqb_eq; tauto.
  - intros u; apply NoDup_filter, seq_NoDup.
  - intros u e; rewrite filter_In, Nat.eqb_eq; tauto.
Qed.

Lemma mkDigraphRev_wf : forall n al, arcs_in_range n al = true -> wf_graph (mkDigraphRev n al).
Proof.
  intros n al Hr; constructor; simpl.
  - apply seq_NoDup.
  - apply seq_NoDup.
  - intros e He; apply in_seq in He; apply in_seq.
    destruct (arcs_in_range_nth n al e Hr); lia.
  - intros e He; apply in_seq in He; apply in_seq.
    destruct (arcs_in_range_nth n al e Hr); lia.
  - intros u; apply NoDup_rev, NoDup_filter, seq_NoDup.
  - intros u e; rewrite <- in_rev, filter_In, Nat.eqb_eq; tauto.
  - intros u; apply NoDup_rev, NoDup_filter, seq_NoDup.
  - intros u e; rewrite <- in_rev, filter_In, Nat.eqb_eq; tauto.
Qed.

(** ** Auxiliary facts on lists *)

(** Position of the first occurrence of [x] in [l] ([length l] if absent). *)
Fixpoint pos (x : nat) (l : list nat) : nat :=
  match l with
  | [] => O
  | y :: l' => if Nat.eqb y x then O else S (pos x l')
  end.

Lemma pos_le_length : forall x l, (pos x l <= length l)%nat.
Proof.
  intros x l; induction l as [|y l IH]; simpl; [lia|].
  destruct (Nat.eqb y x); lia.
Qed.

Lemma pos_lt_in : forall x l, (pos x l < length l)%nat <-> In x l.
Proof.
  intros x l; induction l as [|y l IH]; simpl.
  - split; [lia | tauto].
  - destruct (Nat.eqb_spec y x) as [->|Hne].
    + split; [auto | lia].
    + split.
      * intros Hlt; right; apply IH; lia.
      * intros [->|Hin]; [congruence|]. apply IH in Hin; lia.
Qed.

Lemma pos_notin : forall x l, ~ In x l -> pos x l = length l.
Proof.
  intros x l Hn. pose proof (pos_le_length x l) as Hle.
  destruct (Nat.eq_dec (pos x l) (length l)) as [E|E]; [exact E|].
  exfalso; apply Hn, pos_lt_in; lia.
Qed.

Lemma pos_app_in : forall x l l', In x l -> pos x (l ++ l') = pos x l.
Proof.
  intros x l l'; induction l as [|y l IH]; simpl; [tauto|].
  intros [->|Hin].
  - now rewrite Nat.eqb_refl.
  - destruct (Nat.eqb y x); [reflexivity | now rewrite IH].
Qed.

Lemma pos_app_notin : forall x l l', ~ In x l -> pos x (l ++ l') = (length l + pos x l')%nat.
Proof.
  intros x l l'; induction l as [|y l IH]; simpl; [reflexivity|].
  intros Hn. destruct (Nat.eqb_spec y x) as [->|Hne]; [tauto|].
  rewrite IH; tauto.
Qed.

Lemma fold_left_filter_map {A B C : Type} :
  forall (c : B -> bool) (m : B -> C) (g : A -> C -> A) (l : list B) (a : A),
    fold_left (fun a e => if c e then g a (m e) else a) l a =
    fold_left g (map m (filter c l)) a.
Proof.
  intros c m g l; induction l as [|e l IH]; intros a; simpl; [reflexivity|].
  destruct (c e); simpl; apply IH.
Qed.

(** ** The residual graph and the search *)

Section Engine.

Context {H : Type} {HO : HeapOps H} {HL : HeapLaws H}.
Variable G : Digraph.
Hypothesis G_wf : wf_graph G.
Variable len : Arc -> Length.

(** [res_arc f e u v]: under the flow [f], arc [e] is a residual arc from [u]
    to [v] (forward when it carries no flow, reversed when it carries one
    unit). *)
Definition res_arc (f : Arc -> Z) (e : Arc) (u v : Node) : Prop :=
  In e (arcs G) /\
  ((f e = 0 /\ source G e = u /\ target G e = v) \/
   (f e = 1 /\ target G e = u /\ source G e = v)).

(** Residual length and reduced residual length. *)
Definition rlen (f : Arc -> Z) (e : Arc) : Length :=
  if f e =? 0 then len e else - len e.

Definition rcost (f : Arc -> Z) (pot : Node -> Length) (e : Arc) (u v : Node) : Length :=
  rlen f e + pot u - pot v.

Inductive reachable (f : Arc -> Z) (s : Node) : Node -> Prop :=
| reach_refl : reachable f s s
| reach_step : forall u e v, reachable f s u -> res_arc f e u v -> reachable f s v.

(** *** Scanning the arcs of a node *)

Definition relax_all (l : list (Node * Arc * Length)) (hp : H * (Node -> option Arc)) :=
  fold_left (fun hp c => relax (fst (fst c)) (snd (fst c)) (snd c) hp) l hp.

Definition out_cands (f : Arc -> Z) (pot : Node -> Length) (u : Node) (d : Length) :=
  map (fun e => (target G e, e, d + len e - pot (target G e)))
      (filter (fun e => f e =? 0) (outArcs G u)).

Definition in_cands (f : Arc -> Z) (pot : Node -> Length) (u : Node) (d : Length) :=
  map (fun e => (source G e, e, d - len e - pot (source G e)))
      (filter (fun e => f e =? 1) (inArcs G u)).

Definition cands (f : Arc -> Z) (pot : Node -> Length) (u : Node) (d : Length) :=
  out_cands f pot u d ++ in_cands f pot u d.

Lemma process_relax_all : forall f pot st,
  process G len f pot st =
  let u := heap_top (s_heap st) in
  let hp := relax_all (cands f pot u (heap_prio (s_heap st) + pot u))
                      (heap_pop (s_heap st), s_pred st) in
  {| s_heap := fst hp; s_dist := upd (s_dist st) u (heap_prio (s_heap st));
     s_pred := snd hp; s_proc := s_proc st ++ [u] |}.
Proof.
  intros f pot st; unfold process, cands, relax_all, out_cands, in_cands; cbv zeta.
  rewrite fold_left_app.
  rewrite <- (fold_left_filter_map (fun e => f e =? 0)
     (fun e => (target G e, e, heap_prio (s_heap st) + pot (heap_top (s_heap st)) + len e - pot (target G e)))
     (fun hp c => relax (fst (fst c)) (snd (fst c)) (snd c) hp)).
  rewrite <- (fold_left_filter_map (fun e => f e =? 1)
     (fun e => (source G e, e, heap_prio (s_heap st) + pot (heap_top (s_heap st)) - len e - pot (source G e)))
     (fun hp c => relax (fst (fst c)) (snd (fst c)) (snd c) hp)).
  reflexivity.
Qed.

Lemma cands_sound : forall f pot u d v e nd,
  In (v, e, nd) (cands f pot u d) ->
  res_arc f e u v /\ nd = d - pot u + rcost f pot e u v.
Proof.
  intros f pot u d v e nd Hin; unfold cands in Hin; apply in_app_or in Hin.
  destruct Hin as [Hin|Hin].
  - unfold out_cands in Hin; apply in_map_iff in Hin.
    destruct Hin as [e' [Heq Hf]]; inversion Heq; subst; clear Heq.
    apply filter_In in Hf; destruct Hf as [Ho Hf0]; apply Z.eqb_eq in Hf0.
    apply (wf_out G_wf) in Ho; destruct Ho as [Ha Hs].
    split; [split; [exact Ha | left; auto] |].
    unfold rcost, rlen; rewrite Hf0; simpl; lia.
  - unfold in_cands in Hin; apply in_map_iff in Hin.
    destruct Hin as [e' [Heq Hf]]; inversion Heq; subst; clear Heq.
    apply filter_In in Hf; destruct Hf as [Ho Hf1]; apply Z.eqb_eq in Hf1.
    apply (wf_in G_wf) in Ho; destruct Ho as [Ha Ht].
    split; [split; [exact Ha | right; auto] |].
    unfold rcost, rlen; rewrite Hf1; simpl; lia.
Qed.

Lemma cands_complete : forall f pot u d v e,
  res_arc f e u v -> exists nd, In (v, e, nd) (cands f pot u d).
Proof.
  intros f pot u d v e [Ha [[Hf [Hs Ht]]|[Hf [Ht Hs]]]]; unfold cands.
  - exists (d + len e - pot (target G e)). apply in_or_app; left.
    unfold out_cands; apply in_map_iff; exists e; split; [now rewrite Ht|].
    apply filter_In; split; [apply (wf_out G_wf); auto | now apply Z.eqb_eq].
  - exists (d - len e - pot (source G e)). apply in_or_app; right.
    unfold in_cands; apply in_map_iff; exists e; split; [now rewrite Hs|].
    apply filter_In; split; [apply (wf_in G_wf); auto | now apply Z.eqb_eq].
Qed.

(** What a scan of the candidates [l] does to the heap and to [_pred]. *)
Record scan_post (h : H) (p : Node -> option Arc) (l : list (Node * Arc * Length))
    (h' : H) (p' : Node -> option Arc) : Prop := {
  sp_ok : heap_ok h';
  sp_post : forall w, heap_state h' w = POST_HEAP <-> heap_state h w = POST_HEAP;
  sp_pre : forall w, heap_state h' w = PRE_HEAP <->
                     (heap_state h w = PRE_HEAP /\ forall e nd, ~ In (w, e, nd) l);
  sp_in : forall w, heap_state h' w = IN_HEAP ->
            (heap_state h w = IN_HEAP /\ heap_get h' w = heap_get h w /\ p' w = p w) \/
            (exists e nd, In (w, e, nd) l /\ heap_get h' w = nd /\ p' w = Some e);
  sp_le_old : forall w, heap_state h w = IN_HEAP -> heap_get h' w <= heap_get h w;
  sp_le_cand : forall w e nd, In (w, e, nd) l -> heap_state h' w = IN_HEAP ->
                 heap_get h' w <= nd;
  sp_keep : forall w, heap_state h' w <> IN_HEAP -> p' w = p w
}.

Lemma scan_post_nil : forall h p, heap_ok h -> scan_post h p [] h p.
Proof using Type.
  clear len.
  intros h p Hok; constructor; auto.
  - tauto.
  - intros w; split; [intros Hw; split; auto | tauto].
  - intros; lia.
  - intros w e nd [].
Qed.

Lemma state_cases : forall (h : H) w,
  heap_state h w = IN_HEAP \/ heap_state h w = PRE_HEAP \/ heap_state h w = POST_HEAP.
Proof. intros h w; destruct (heap_state h w); auto. Qed.

Ltac cand_inv Hi :=
  match type of Hi with
  | (_, _, _) = (?w, ?e, ?nd) => injection Hi as ? ? ?; subst w e nd
  end.

Lemma scan_post_step : forall h p l h1 p1 v e nd,
  scan_post h p l h1 p1 ->
  scan_post h p (l ++ [(v, e, nd)]) (fst (relax v e nd (h1, p1))) (snd (relax v e nd (h1, p1))).
Proof.
  intros h p l h1 p1 v e nd [Hok Hpost Hpre Hin Hold Hcand Hkeep].
  unfold relax; simpl fst; simpl snd.
  destruct (heap_state h1 v) eqn:Ev.
  - (* IN_HEAP *)
    destruct (Z.ltb_spec nd (heap_get h1 v)) as [Hlt|Hge]; simpl.
    + assert (Hle : nd <= heap_get h1 v) by lia.
      assert (Hst : forall w, heap_state (heap_decrease h1 v nd) w = heap_state h1 w)
        by (intros w; now apply heap_decrease_state).
      assert (Hget : forall w, heap_get (heap_decrease h1 v nd) w =
                               if Nat.eqb w v then nd else heap_get h1 w)
        by (intros w; now apply heap_decrease_get).
      constructor.
      * now apply heap_decrease_ok.
      * intros w; rewrite Hst; apply Hpost.
      * intros w; rewrite Hst, Hpre; split; intros [Hw Hn]; split; auto.
        -- intros e' nd' Hi; apply in_app_or in Hi; destruct Hi as [Hi|[Hi|[]]].
           ++ now apply (Hn e' nd').
           ++ cand_inv Hi.
              assert (heap_state h1 v = PRE_HEAP) by (apply Hpre; auto). congruence.
        -- intros e' nd' Hi; apply (Hn e' nd'), in_or_app; now left.
      * intros w; rewrite Hst, Hget; unfold upd; intros Hw.
        destruct (Nat.eqb_spec w v) as [->|Hne].
        -- right; exists e, nd; split; [apply in_or_app; right; now left | auto].
        -- destruct (Hin w Hw) as [?|[e' [nd' [Hi ?]]]]; [now left|].
           right; exists e', nd'; split; [apply in_or_app; now left | auto].
      * intros w Hw; rewrite Hget. specialize (Hold w Hw).
        destruct (Nat.eqb_spec w v) as [->|Hne]; lia.
      * intros w e' nd' Hi; rewrite Hst, Hget; intros Hw.
        apply in_app_or in Hi; destruct Hi as [Hi|[Hi|[]]].
        -- specialize (Hcand w e' nd' Hi Hw). destruct (Nat.eqb_spec w v) as [->|Hne]; lia.
        -- cand_inv Hi. rewrite Nat.eqb_refl; lia.
      * intros w; rewrite Hst; intros Hw. unfold upd.
        destruct (Nat.eqb_spec w v) as [->|Hne]; [congruence | now apply Hkeep].
    + constructor; auto.
      * intros w; rewrite Hpre; split; intros [Hw Hn]; split; auto.
        -- intros e' nd' Hi; apply in_app_or in Hi; destruct Hi as [Hi|[Hi|[]]].
           ++ now apply (Hn e' nd').
           ++ cand_inv Hi.
              assert (heap_state h1 v = PRE_HEAP) by (apply Hpre; auto). congruence.
        -- intros e' nd' Hi; apply (Hn e' nd'), in_or_app; now left.
      * intros w Hw. destruct (Hin w Hw) as [?|[e' [nd' [Hi ?]]]]; [now left|].
        right; exists e', nd'; split; [apply in_or_app; now left | auto].
      * intros w e' nd' Hi Hw.
        apply in_app_or in Hi; destruct Hi as [Hi|[Hi|[]]]; [now apply (Hcand w e')|].
        cand_inv Hi; lia.
  - (* PRE_HEAP *)
    assert (Hnin : heap_state h1 v <> IN_HEAP) by congruence.
    assert (Hst : forall w, heap_state (heap_push h1 v nd) w =
                            if Nat.eqb w v then IN_HEAP else heap_state h1 w)
      by (intros w; now apply heap_push_state).
    assert (Hget : forall w, heap_get (heap_push h1 v nd) w =
                             if Nat.eqb w v then nd else heap_get h1 w)
      by (intros w; now apply heap_push_get).
    assert (Hv : heap_state h v = PRE_HEAP /\ forall e nd, ~ In (v, e, nd) l)
      by (now apply Hpre).
    simpl; constructor.
    + now apply heap_push_ok.
    + intros w; rewrite Hst. destruct (Nat.eqb_spec w v) as [->|Hne]; [|apply Hpost].
      destruct Hv as [Hv _]; split; congruence.
    + intros w; rewrite Hst. destruct (Nat.eqb_spec w v) as [->|Hne].
      * split; [discriminate|]. intros [_ Hn]. exfalso; apply (Hn e nd), in_or_app; right; now left.
      * rewrite Hpre; split; intros [Hw Hn]; split; auto.
        -- intros e' nd' Hi; apply in_app_or in Hi; destruct Hi as [Hi|[Hi|[]]].
           ++ now apply (Hn e' nd').
           ++ cand_inv Hi; congruence.
        -- intros e' nd' Hi; apply (Hn e' nd'), in_or_app; now left.
    + intros w; rewrite Hst, Hget; unfold upd.
      destruct (Nat.eqb_spec w v) as [->|Hne]; intros Hw.
      * right; exists e, nd; split; [apply in_or_app; right; now left | auto].
      * destruct (Hin w Hw) as [?|[e' [nd' [Hi ?]]]]; [now left|].
        right; exists e', nd'; split; [apply in_or_app; now left | auto].
    + intros w Hw; rewrite Hget. destruct (Nat.eqb_spec w v) as [->|Hne].
      * destruct Hv; congruence.
      * now apply Hold.
    + intros w e' nd' Hi; rewrite Hst, Hget.
      apply in_app_or in Hi; destruct Hi as [Hi|[Hi|[]]].
      * destruct (Nat.eqb_spec w v) as [->|Hne]; [|now apply (Hcand w e')].
        destruct Hv as [_ Hn]; now destruct (Hn e' nd').
      * cand_inv Hi; rewrite Nat.eqb_refl; lia.
    + intros w; rewrite Hst; unfold upd.
      destruct (Nat.eqb_spec w v) as [->|Hne]; [congruence | apply Hkeep].
  - (* POST_HEAP *)
    simpl; constructor; auto.
    + intros w; rewrite Hpre; split; intros [Hw Hn]; split; auto.
      * intros e' nd' Hi; apply in_app_or in Hi; destruct Hi as [Hi|[Hi|[]]].
        -- now apply (Hn e' nd').
        -- cand_inv Hi.
           assert (heap_state h1 v = PRE_HEAP) by (apply Hpre; auto). congruence.
      * intros e' nd' Hi; apply (Hn e' nd'), in_or_app; now left.
    + intros w Hw. destruct (Hin w Hw) as [?|[e' [nd' [Hi ?]]]]; [now left|].
      right; exists e', nd'; split; [apply in_or_app; now left | auto].
    + intros w e' nd' Hi Hw.
      apply in_app_or in Hi; destruct Hi as [Hi|[Hi|[]]]; [now apply (Hcand w e')|].
      cand_inv Hi; congruence.
Qed.

Lemma scan_post_relax_all : forall h p l l0 h1 p1,
  scan_post h p l0 h1 p1 ->
  scan_post h p (l0 ++ l) (fst (relax_all l (h1, p1))) (snd (relax_all l (h1, p1))).
Proof.
  intros h p l; induction l as [|[[v e] nd] l IH]; intros l0 h1 p1 Hsp.
  - now rewrite app_nil_r.
  - simpl. replace (l0 ++ (v, e, nd) :: l) with ((l0 ++ [(v, e, nd)]) ++ l)
      by (now rewrite <- app_assoc).
    pose proof (scan_post_step h p l0 h1 p1 v e nd Hsp) as Hstep.
    destruct (relax v e nd (h1, p1)) as [h2 p2] eqn:E.
    apply (IH _ h2 p2). exact Hstep.
Qed.

Lemma relax_all_post : forall h p l,
  heap_ok h ->
  scan_post h p l (fst (relax_all l (h, p))) (snd (relax_all l (h, p))).
Proof using Type.
  clear len.
  intros h p l Hok. apply (scan_post_relax_all h p l [] h p), scan_post_nil, Hok.
Qed.

Lemma res_arc_nodes : forall f e u v,
  res_arc f e u v -> In u (nodes G) /\ In v (nodes G).
Proof.
  intros f e u v [Ha [[_ [<- <-]]|[_ [<- <-]]]]; split;
    first [now apply (wf_source G_wf) | now apply (wf_target G_wf)].
Qed.

Lemma cands_dec : forall (l : list (Node * Arc * Length)) v,
  (exists e nd, In (v, e, nd) l) \/ (forall e nd, ~ In (v, e, nd) l).
Proof.
  intros l v; induction l as [|[[w e] nd] l IH].
  - right; intros e nd [].
  - destruct (Nat.eq_dec w v) as [->|Hne].
    + left; exists e, nd; now left.
    + destruct IH as [[e' [nd' Hi]]|Hn].
      * left; exists e', nd'; now right.
      * right; intros e' nd' [Hi|Hi]; [congruence | now apply (Hn e' nd')].
Qed.

(** *** The invariant of the loop that processes the heap *)

Section Search.

Variable f : Arc -> Z.
Variable pot : Node -> Length.
Variables s t : Node.
Hypothesis s_node : In s (nodes G).

(** The label of a node: its distance once processed, its priority while
    it is in the heap. *)
Definition key (st : Search H) (v : Node) : Length :=
  match heap_state (s_heap st) v with
  | POST_HEAP => s_dist st v
  | _ => heap_get (s_heap st) v
  end.

Record search_inv (st : Search H) : Prop := {
  si_ok : heap_ok (s_heap st);
  si_post : forall v, heap_state (s_heap st) v = POST_HEAP <-> In v (s_proc st);
  si_nodup : NoDup (s_proc st);
  si_t : ~ In t (s_proc st);
  si_nodes : forall v, heap_state (s_heap st) v <> PRE_HEAP -> In v (nodes G);
  si_src : s_pred st s = None /\
           (In s (s_proc st) \/
            (s_proc st = [] /\
             forall v, heap_state (s_heap st) v = if Nat.eqb v s then IN_HEAP else PRE_HEAP));
  si_pred : forall v, heap_state (s_heap st) v <> PRE_HEAP -> v <> s ->
            exists e u, s_pred st v = Some e /\ res_arc f e u v /\ In u (s_proc st) /\
                        (pos u (s_proc st) < pos v (s_proc st))%nat /\
                        key st v = s_dist st u + rcost f pot e u v;
  si_complete : forall u e v, In u (s_proc st) -> res_arc f e u v ->
                heap_state (s_heap st) v <> PRE_HEAP;
  si_reach : forall v, heap_state (s_heap st) v <> PRE_HEAP -> reachable f s v
}.

Definition search_start (dist : Node -> Length) (pred : Node -> option Arc) : Search H :=
  {| s_heap := heap_push heap_new s 0; s_dist := dist;
     s_pred := upd pred s None; s_proc := [] |}.

Lemma search_start_state : forall v,
  heap_state (heap_push heap_new s 0) v = if Nat.eqb v s then IN_HEAP else PRE_HEAP.
Proof.
  intros v. rewrite heap_push_state.
  - now rewrite heap_new_state.
  - apply heap_new_ok.
  - rewrite heap_new_state; discriminate.
Qed.

Lemma search_start_inv : forall dist pred, search_inv (search_start dist pred).
Proof.
  intros dist pred.
  assert (Hst := search_start_state).
  constructor; simpl.
  - apply heap_push_ok; [apply heap_new_ok | rewrite heap_new_state; discriminate].
  - intros v; rewrite Hst; destruct (Nat.eqb v s); split; try discriminate; tauto.
  - constructor.
  - tauto.
  - intros v; rewrite Hst. destruct (Nat.eqb_spec v s) as [->|]; [auto | congruence].
  - split; [apply upd_same | right; auto].
  - intros v; rewrite Hst. destruct (Nat.eqb_spec v s); congruence.
  - intros u e v [].
  - intros v; rewrite Hst. destruct (Nat.eqb_spec v s) as [->|]; [constructor | congruence].
Qed.

Lemma process_facts : forall st,
  search_inv st -> heap_empty (s_heap st) = false ->
  let h := s_heap st in
  let u := heap_top h in
  let st' := process G len f pot st in
  heap_state h u = IN_HEAP /\
  ~ In u (s_proc st) /\
  (forall w, heap_state (heap_pop h) w = if Nat.eqb w u then POST_HEAP else heap_state h w) /\
  (forall w, w <> u -> heap_get (heap_pop h) w = heap_get h w) /\
  s_dist st' = upd (s_dist st) u (heap_get h u) /\
  s_proc st' = s_proc st ++ [u] /\
  (forall v e nd, In (v, e, nd) (cands f pot u (heap_get h u + pot u)) ->
                  res_arc f e u v /\ nd = heap_get h u + rcost f pot e u v) /\
  scan_post (heap_pop h) (s_pred st) (cands f pot u (heap_get h u + pot u))
            (s_heap st') (s_pred st').
Proof.
  intros st Hinv Hne h u st'.
  assert (Hok := si_ok _ Hinv).
  assert (Hu : heap_state h u = IN_HEAP) by (now apply heap_top_in).
  assert (Hprio : heap_prio h = heap_get h u) by (now apply heap_prio_top).
  split; [exact Hu|].
  split; [intros Hin; apply (si_post _ Hinv) in Hin; fold h in Hin; congruence|].
  split; [intros w; now apply heap_pop_state|].
  split; [intros w Hw; now apply heap_pop_get|].
  subst st'; rewrite process_relax_all; cbv zeta; simpl.
  fold h; fold u; rewrite Hprio.
  split; [reflexivity|]. split; [reflexivity|].
  split.
  - intros v e nd Hi. apply cands_sound in Hi. destruct Hi as [Hr ->]; split; [exact Hr | lia].
  - apply relax_all_post. now apply heap_pop_ok.
Qed.

Lemma NoDup_snoc : forall (l : list nat) x, NoDup l -> ~ In x l -> NoDup (l ++ [x]).
Proof.
  intros l x Hl Hx. apply (Permutation_NoDup (l := x :: l)).
  - apply Permutation_cons_append.
  - now constructor.
Qed.

Ltac split5 := split; [|split; [|split; [|split]]].

(** The effect of one iteration on the state of the search; [u] is the node
    taken from the top of the heap and [l] the candidates of its scan. *)
Record process_post (st st' : Search H) (u : nat) (l : list (nat * nat * Z)) : Prop := {
  pp_u_in : heap_state (s_heap st) u = IN_HEAP;
  pp_u_notproc : ~ In u (s_proc st);
  pp_pop_state : forall w, heap_state (heap_pop (s_heap st)) w =
                           if Nat.eqb w u then POST_HEAP else heap_state (s_heap st) w;
  pp_pop_get : forall w, w <> u -> heap_get (heap_pop (s_heap st)) w = heap_get (s_heap st) w;
  pp_proc : s_proc st' = s_proc st ++ [u];
  pp_cand : forall v e nd, In (v, e, nd) l ->
              res_arc f e u v /\ nd = heap_get (s_heap st) u + rcost f pot e u v;
  pp_cand_all : forall v e, res_arc f e u v -> exists nd, In (v, e, nd) l;
  pp_scan : scan_post (heap_pop (s_heap st)) (s_pred st) l (s_heap st') (s_pred st');
  pp_postE : forall w, heap_state (s_heap st') w = POST_HEAP <->
                       (w = u \/ heap_state (s_heap st) w = POST_HEAP);
  pp_npreE : forall w, heap_state (s_heap st') w <> PRE_HEAP ->
                       heap_state (s_heap st) w <> PRE_HEAP \/ exists e nd, In (w, e, nd) l;
  pp_npreI : forall w, heap_state (s_heap st) w <> PRE_HEAP ->
                       heap_state (s_heap st') w <> PRE_HEAP;
  pp_notu : forall w, In w (s_proc st) -> w <> u;
  pp_dist_u : s_dist st' u = heap_get (s_heap st) u;
  pp_dist_o : forall w, w <> u -> s_dist st' w = s_dist st w;
  pp_pos_u : pos u (s_proc st ++ [u]) = length (s_proc st)
}.

Lemma process_view : forall st,
  search_inv st -> heap_empty (s_heap st) = false ->
  process_post st (process G len f pot st) (heap_top (s_heap st))
    (cands f pot (heap_top (s_heap st))
           (heap_get (s_heap st) (heap_top (s_heap st)) + pot (heap_top (s_heap st)))).
Proof.
  intros st Hinv Hne.
  pose proof (process_facts st Hinv Hne) as PF; cbv zeta in PF.
  destruct PF as (Hu & Hunp & Hs1 & Hg1 & Hd & Hp & Hc & SP).
  set (st' := process G len f pot st) in *.
  set (h := s_heap st) in *.
  set (u := heap_top h) in *.
  set (l := cands f pot u (heap_get h u + pot u)) in *.
  pose proof SP as [Sok Spost Spre Sin Sold Scand Skeep].
  assert (HpostE : forall w, heap_state (s_heap st') w = POST_HEAP <->
                             (w = u \/ heap_state h w = POST_HEAP)).
  { intros w; rewrite Spost, Hs1. destruct (Nat.eqb_spec w u) as [->|Hw].
    - split; auto.
    - split; [auto | intros [?|?]; [congruence | auto]]. }
  constructor; auto.
  - intros v e Hr. apply cands_complete; exact Hr.
  - intros w Hw. destruct (cands_dec l w) as [Hex|Hno]; [now right|].
    left; intros Hpre; fold h in Hpre. apply Hw, Spre; split; [|exact Hno].
    rewrite Hs1. destruct (Nat.eqb_spec w u) as [->|]; [congruence | exact Hpre].
  - intros w Hw Hpre; fold h in Hw. apply Spre in Hpre. destruct Hpre as [Hpre _].
    rewrite Hs1 in Hpre. destruct (Nat.eqb_spec w u); congruence.
  - intros w Hw ->; tauto.
  - rewrite Hd; apply upd_same.
  - intros w Hw; rewrite Hd; now apply upd_other.
  - rewrite pos_app_notin by exact Hunp. simpl; rewrite Nat.eqb_refl; lia.
Qed.

Lemma process_inv : forall st,
  search_inv st -> heap_empty (s_heap st) = false -> heap_top (s_heap st) <> t ->
  search_inv (process G len f pot st).
Proof.
  intros st Hinv Hne Htop.
  destruct (process_view st Hinv Hne)
    as [Hu Hunp Hs1 Hg1 Hp Hc Hcall SP HpostE HnpreE HnpreI Hnotu Hdu Hdo Hposu].
  set (st' := process G len f pot st) in *.
  set (h := s_heap st) in *.
  set (u := heap_top h) in *.
  set (l := cands f pot u (heap_get h u + pot u)) in *.
  destruct SP as [Sok Spost Spre Sin Sold Scand Skeep].
  destruct Hinv as [Iok Ipost Inodup It Inodes Isrc Ipred Icomp Ireach].
  fold h in Iok, Ipost, Inodes, Isrc, Ipred, Icomp, Ireach.
  assert (Hsproc : In s (s_proc st ++ [u])).
  { apply in_or_app. destruct Isrc as [_ [Hs|[_ Hall]]]; [now left | right; left].
    specialize (Hall u). destruct (Nat.eqb_spec u s); congruence. }
  constructor.
  - exact Sok.
  - intros v; rewrite Hp, HpostE, in_app_iff, Ipost; simpl. intuition.
  - rewrite Hp; now apply NoDup_snoc.
  - rewrite Hp, in_app_iff; simpl. intros [?|[?|[]]]; [tauto | congruence].
  - intros v Hv. destruct (HnpreE v Hv) as [Hold|[e [nd Hi]]]; [now apply Inodes|].
    apply Hc in Hi. destruct Hi as [Hr _]. now apply (res_arc_nodes f e u v).
  - split; [|left; now rewrite Hp].
    rewrite Skeep; [apply Isrc|].
    assert (Hs : heap_state (s_heap st') s = POST_HEAP).
    { apply HpostE. apply in_app_or in Hsproc. destruct Hsproc as [Hs|[Hs|[]]]; [right | left; auto].
      now apply Ipost. }
    congruence.
  - intros v Hv Hvs. rewrite Hp. unfold key.
    destruct (state_cases (s_heap st') v) as [Ein|[Epre|Epost]]; [|congruence|].
    + rewrite Ein.
      assert (Hvu : v <> u).
      { intros ->. assert (heap_state (s_heap st') u = POST_HEAP) by (apply HpostE; auto). congruence. }
      assert (Hvnp : ~ In v (s_proc st)).
      { intros Hin. apply Ipost in Hin.
        assert (heap_state (s_heap st') v = POST_HEAP) by (apply HpostE; auto). congruence. }
      assert (Hposv : pos v (s_proc st ++ [u]) = S (length (s_proc st))).
      { rewrite pos_app_notin by exact Hvnp. simpl.
        destruct (Nat.eqb_spec u v); [congruence | lia]. }
      destruct (Sin v Ein) as [(Hv1 & Hget & Hpv)|(e & nd & Hi & Hget & Hpv)].
      * rewrite Hs1 in Hv1. destruct (Nat.eqb_spec v u); [congruence|].
        destruct (Ipred v) as (e & u0 & Hpe & Hr & Hu0 & Hpos & Hkey); [congruence | exact Hvs |].
        exists e, u0. unfold key in Hkey; fold h in Hkey; rewrite Hv1 in Hkey.
        split5; auto.
        -- congruence.
        -- apply in_or_app; now left.
        -- rewrite (pos_app_in _ _ _ Hu0), Hposv. apply pos_lt_in in Hu0; lia.
        -- rewrite Hget, Hg1 by exact Hvu. rewrite Hdo by (now apply Hnotu). exact Hkey.
      * exists e, u. destruct (Hc v e nd Hi) as [Hr Hnd].
        split5; auto.
        -- apply in_or_app; right; now left.
        -- rewrite Hposu, Hposv; lia.
        -- rewrite Hget, Hdu; exact Hnd.
    + rewrite Epost. rewrite (Skeep v) by congruence.
      apply HpostE in Epost. destruct Epost as [->|Epost].
      * destruct (Ipred u) as (e & u0 & Hpe & Hr & Hu0 & Hpos & Hkey); [congruence | exact Hvs |].
        exists e, u0. unfold key in Hkey; fold h in Hkey; rewrite Hu in Hkey; fold u in Hkey.
        split5; auto.
        -- apply in_or_app; now left.
        -- rewrite (pos_app_in _ _ _ Hu0), Hposu. apply pos_lt_in in Hu0; lia.
        -- rewrite Hdu, Hdo by (now apply Hnotu). exact Hkey.
      * assert (Hvin : In v (s_proc st)) by (now apply Ipost).
        destruct (Ipred v) as (e & u0 & Hpe & Hr & Hu0 & Hpos & Hkey); [congruence | exact Hvs |].
        exists e, u0. unfold key in Hkey; fold h in Hkey; rewrite Epost in Hkey.
        split5; auto.
        -- apply in_or_app; now left.
        -- now rewrite (pos_app_in _ _ _ Hu0), (pos_app_in _ _ _ Hvin).
        -- rewrite !Hdo by (now apply Hnotu). exact Hkey.
  - intros x e v Hx Hr. rewrite Hp in Hx. apply in_app_or in Hx.
    destruct Hx as [Hx|[<-|[]]].
    + apply HnpreI. now apply (Icomp x e v).
    + destruct (Hcall v e Hr) as [nd Hi].
      intros Hpre. apply Spre in Hpre. destruct Hpre as [_ Hno]. now apply (Hno e nd).
  - intros v Hv. destruct (HnpreE v Hv) as [Hold|[e [nd Hi]]]; [now apply Ireach|].
    apply Hc in Hi. destruct Hi as [Hr _].
    apply (reach_step f s u e v); [|exact Hr].
    apply Ireach; congruence.
Qed.

(** *** Labels are monotone when the reduced residual lengths are non-negative *)

Definition rcost_nonneg : Prop :=
  forall e u v, res_arc f e u v -> 0 <= rcost f pot e u v.

Record search_num (st : Search H) : Prop := {
  sn_mono : forall x v, In x (s_proc st) -> heap_state (s_heap st) v = IN_HEAP ->
            s_dist st x <= heap_get (s_heap st) v;
  sn_tri : forall x e v, In x (s_proc st) -> res_arc f e x v ->
           key st v <= s_dist st x + rcost f pot e x v
}.

Lemma search_start_num : forall dist pred, search_num (search_start dist pred).
Proof. intros dist pred; constructor; simpl; intros; tauto. Qed.

Lemma process_num : rcost_nonneg -> forall st,
  search_inv st -> search_num st -> heap_empty (s_heap st) = false ->
  search_num (process G len f pot st).
Proof.
  intros Hnn st Hinv Hnum Hne.
  destruct (process_view st Hinv Hne)
    as [Hu Hunp Hs1 Hg1 Hp Hc Hcall SP HpostE HnpreE HnpreI Hnotu Hdu Hdo Hposu].
  set (st' := process G len f pot st) in *.
  set (h := s_heap st) in *.
  set (u := heap_top h) in *.
  set (l := cands f pot u (heap_get h u + pot u)) in *.
  destruct SP as [Sok Spost Spre Sin Sold Scand Skeep].
  destruct Hinv as [Iok Ipost Inodup It Inodes Isrc Ipred Icomp Ireach].
  destruct Hnum as [Nmono Ntri].
  fold h in Iok, Ipost, Inodes, Isrc, Ipred, Icomp, Ireach, Nmono, Ntri.
  assert (Hmin : forall v, heap_state h v = IN_HEAP -> heap_get h u <= heap_get h v)
    by (intros v Hv; now apply heap_top_min).
  constructor.
  - intros x v Hx Hv. rewrite Hp in Hx.
    assert (Hxu : s_dist st' x <= heap_get h u).
    { apply in_app_or in Hx. destruct Hx as [Hx|[<-|[]]].
      - rewrite Hdo by (now apply Hnotu). now apply Nmono.
      - rewrite Hdu; lia. }
    destruct (Sin v Hv) as [(Hv1 & Hget & _)|(e & nd & Hi & Hget & _)].
    + rewrite Hs1 in Hv1. destruct (Nat.eqb_spec v u) as [|Hvu]; [congruence|].
      rewrite Hget, Hg1 by exact Hvu. specialize (Hmin v Hv1); lia.
    + destruct (Hc v e nd Hi) as [Hr Hnd]. specialize (Hnn e u v Hr).
      rewrite Hget; lia.
  - intros x e v Hx Hr. rewrite Hp in Hx. apply in_app_or in Hx.
    unfold key.
    destruct Hx as [Hx|[<-|[]]].
    + rewrite (Hdo x) by (now apply Hnotu).
      specialize (Ntri x e v Hx Hr). unfold key in Ntri; fold h in Ntri.
      assert (Hnpre := Icomp x e v Hx Hr).
      destruct (state_cases h v) as [Ein|[Epre|Epost]]; [|congruence|].
      * rewrite Ein in Ntri.
        destruct (Nat.eq_dec v u) as [->|Hvu].
        -- assert (E : heap_state (s_heap st') u = POST_HEAP) by (apply HpostE; auto).
           rewrite E, Hdu; exact Ntri.
        -- assert (E : heap_state (s_heap st') v = IN_HEAP).
           { destruct (state_cases (s_heap st') v) as [E|[E|E]]; [exact E| |].
             - exfalso; revert E; apply HnpreI; congruence.
             - apply HpostE in E; destruct E; congruence. }
           rewrite E.
           assert (heap_state (heap_pop h) v = IN_HEAP).
           { rewrite Hs1. destruct (Nat.eqb_spec v u); [congruence | exact Ein]. }
           specialize (Sold v H0). rewrite Hg1 in Sold by exact Hvu. lia.
      * rewrite Epost in Ntri.
        assert (E : heap_state (s_heap st') v = POST_HEAP) by (apply HpostE; auto).
        rewrite E. rewrite Hdo; [exact Ntri|]. apply Hnotu. now apply Ipost.
    + rewrite Hdu. destruct (Hcall v e Hr) as [nd Hi].
      destruct (Hc v e nd Hi) as [_ Hnd]. specialize (Hnn e u v Hr).
      destruct (state_cases (s_heap st') v) as [E|[E|E]]; rewrite E.
      * specialize (Scand v e nd Hi E); lia.
      * apply Spre in E. destruct E as [_ Hno]. now destruct (Hno e nd).
      * apply HpostE in E. destruct E as [->|E].
        -- rewrite Hdu; lia.
        -- assert (Hv : In v (s_proc st)) by (now apply Ipost).
           rewrite Hdo by (now apply Hnotu).
           specialize (Nmono v u Hv Hu); lia.
Qed.

(** *** The loop terminates *)

Lemma proc_length : forall st, search_inv st -> (length (s_proc st) <= length (nodes G))%nat.
Proof.
  intros st Hinv. apply NoDup_incl_length; [apply (si_nodup _ Hinv)|].
  intros v Hv. apply (si_nodes _ Hinv). apply (si_post _ Hinv) in Hv. congruence.
Qed.

Lemma search_loop_spec : forall (P : Search H -> Prop),
  (forall st, search_inv st -> P st -> heap_empty (s_heap st) = false ->
              heap_top (s_heap st) <> t -> P (process G len f pot st)) ->
  forall fuel st,
    search_inv st -> P st ->
    (length (nodes G) < fuel + length (s_proc st))%nat ->
    exists r, search_loop G len fuel f pot t st = Some r /\ search_inv r /\ P r /\
              (heap_empty (s_heap r) = true \/
               (heap_empty (s_heap r) = false /\ heap_top (s_heap r) = t)).
Proof.
  intros P HP fuel; induction fuel as [|fuel IH]; intros st Hinv HPst Hfuel.
  - pose proof (proc_length st Hinv); lia.
  - simpl. destruct (heap_empty (s_heap st)) eqn:Ee; simpl.
    + exists st; repeat (split; [solve [auto]|]); now left.
    + destruct (Nat.eqb_spec (heap_top (s_heap st)) t) as [Et|Et]; simpl.
      * exists st; repeat (split; [solve [auto]|]); right; auto.
      * apply IH.
        -- now apply process_inv.
        -- now apply HP.
        -- destruct (process_view st Hinv Ee) as [_ _ _ _ Hp _ _ _ _ _ _ _ _ _ _].
           rewrite Hp, length_app; simpl. lia.
Qed.

End Search.

(** *** The outcome of [ResidualDijkstra::run] *)

Lemma update_potentials_notin : forall dist td proc pot x,
  ~ In x proc -> update_potentials dist td proc pot x = pot x.
Proof using Type.
  clear len.
  intros dist td proc; induction proc as [|y proc IH]; intros pot x Hx; simpl.
  - reflexivity.
  - unfold update_potentials in *; simpl in *. rewrite IH by tauto.
    apply upd_other; intros ->; tauto.
Qed.

Lemma update_potentials_in : forall dist td proc pot x,
  NoDup proc -> In x proc ->
  update_potentials dist td proc pot x = pot x + (dist x - td).
Proof using Type.
  clear len.
  intros dist td proc; induction proc as [|y proc IH]; intros pot x Hnd Hx; simpl.
  - destruct Hx.
  - inversion Hnd as [|? ? Hy Hnd']; subst.
    unfold update_potentials in *; simpl in *. destruct Hx as [->|Hx].
    + fold (update_potentials dist td proc (upd pot x (pot x + (dist x - td)))).
      rewrite update_potentials_notin by exact Hy. apply upd_same.
    + rewrite IH by assumption. rewrite upd_other; [reflexivity|].
      intros ->; tauto.
Qed.

Record run_post (st : Suurballe) (b : bool) (st' : Suurballe) (r : Search H) : Prop := {
  rp_flow : _flow st' = _flow st;
  rp_source : _source st' = _source st;
  rp_target : _target st' = _target st;
  rp_paths : paths st' = paths st;
  rp_path_num : _path_num st' = _path_num st;
  rp_pred : _pred st' = s_pred r;
  rp_dj : _dijkstra st' =
          {| _dist := s_dist r; _proc_nodes := s_proc r;
             _s := _s (_dijkstra st); _t := _t (_dijkstra st) |};
  rp_inv : search_inv (_flow st) (_potential st) (_s (_dijkstra st)) (_t (_dijkstra st)) r;
  rp_num : rcost_nonneg (_flow st) (_potential st) ->
           search_num (_flow st) (_potential st) r;
  rp_false : b = false ->
             heap_empty (s_heap r) = true /\ _potential st' = _potential st;
  rp_true : b = true ->
            heap_empty (s_heap r) = false /\ heap_top (s_heap r) = _t (_dijkstra st) /\
            _potential st' =
            update_potentials (s_dist r) (heap_get (s_heap r) (_t (_dijkstra st)))
                              (s_proc r) (_potential st)
}.

Lemma ResidualDijkstra_run_spec : forall fuel st,
  In (_s (_dijkstra st)) (nodes G) ->
  (length (nodes G) < fuel)%nat ->
  exists b st' r, ResidualDijkstra_run G len fuel st = Some (b, st') /\ run_post st b st' r.
Proof.
  intros fuel st Hs Hfuel.
  set (f := _flow st). set (pot := _potential st).
  set (s := _s (_dijkstra st)) in *. set (t := _t (_dijkstra st)).
  destruct (search_loop_spec f pot s t
              (fun r => rcost_nonneg f pot -> search_num f pot r)
              (fun r Hi HP Hne _ Hnn => process_num f pot s t Hnn r Hi (HP Hnn) Hne)
              fuel (search_start s (_dist (_dijkstra st)) (_pred st)))
    as (r & Hloop & Hinv & Hnum & Hexit).
  - apply search_start_inv; exact Hs.
  - intros _; apply search_start_num.
  - unfold search_start; simpl; lia.
  - unfold ResidualDijkstra_run. fold f pot s t.
    unfold search_start in Hloop. rewrite Hloop.
    destruct Hexit as [He|[He Ht]].
    + rewrite He. eexists false, _, r; split; [reflexivity|].
      constructor; simpl; auto; try discriminate.
    + rewrite He. eexists true, _, r; split; [reflexivity|].
      constructor; simpl; auto; try discriminate.
      intros _. split; [exact He|]. split; [exact Ht|].
      rewrite (heap_prio_top (s_heap r)) by (apply Hinv || exact He).
      now rewrite Ht.
Qed.

(** The search succeeds exactly when the target is reachable in the
    residual graph. *)
Lemma search_exit_reachable : forall f pot s t r,
  search_inv f pot s t r ->
  (heap_empty (s_heap r) = false /\ heap_top (s_heap r) = t -> reachable f s t) /\
  (heap_empty (s_heap r) = true -> ~ reachable f s t).
Proof.
  intros f pot s t r Hinv; split.
  - intros [He Ht]. apply (si_reach _ _ _ _ _ Hinv).
    rewrite <- Ht, heap_top_in; [discriminate | apply Hinv | exact He].
  - intros He Hreach.
    assert (Hnin : forall v, heap_state (s_heap r) v <> IN_HEAP)
      by (apply heap_empty_spec; [apply Hinv | exact He]).
    assert (Hall : forall v, reachable f s v -> In v (s_proc r)).
    { intros v Hv; induction Hv as [|u e v Hu IH Hr].
      - destruct (si_src _ _ _ _ _ Hinv) as [_ [Hs|[_ Hst]]]; [exact Hs|].
        specialize (Hst s). rewrite Nat.eqb_refl in Hst. now destruct (Hnin s).
      - apply (si_post _ _ _ _ _ Hinv).
        pose proof (si_complete _ _ _ _ _ Hinv u e v IH Hr) as Hnpre.
        specialize (Hnin v). destruct (heap_state (s_heap r) v); congruence. }
    apply (si_t _ _ _ _ _ Hinv), Hall, Hreach.
Qed.

(** ** Sums over arcs and the excess of a node *)

Definition ind (a b : nat) : Z := if Nat.eqb a b then 1 else 0.

Definition sum_over {A : Type} (w : A -> Z) (l : list A) : Z :=
  fold_right (fun a acc => w a + acc) 0 l.

Lemma sum_over_ext : forall (A : Type) (w w' : A -> Z) l,
  (forall a, In a l -> w a = w' a) -> sum_over w l = sum_over w' l.
Proof.
  intros A w w' l; induction l as [|a l IH]; intros Hw; simpl; [reflexivity|].
  rewrite (Hw a) by (now left). rewrite IH; [reflexivity|].
  intros b Hb; apply Hw; now right.
Qed.

Lemma sum_over_zero : forall (A : Type) (w : A -> Z) l,
  (forall a, In a l -> w a = 0) -> sum_over w l = 0.
Proof.
  intros A w l; induction l as [|a l IH]; intros Hw; simpl; [reflexivity|].
  rewrite (Hw a) by (now left). rewrite IH; [reflexivity|].
  intros b Hb; apply Hw; now right.
Qed.

Lemma sum_over_app : forall (A : Type) (w : A -> Z) l l',
  sum_over w (l ++ l') = sum_over w l + sum_over w l'.
Proof.
  intros A w l l'; induction l as [|a l IH]; simpl; [reflexivity | rewrite IH; lia].
Qed.

Lemma sum_over_plus : forall (A : Type) (w w' : A -> Z) l,
  sum_over (fun a => w a + w' a) l = sum_over w l + sum_over w' l.
Proof.
  intros A w w' l; induction l as [|a l IH]; simpl; [reflexivity | rewrite IH; lia].
Qed.

Lemma sum_over_scal : forall (A : Type) (c : Z) (w : A -> Z) l,
  sum_over (fun a => c * w a) l = c * sum_over w l.
Proof.
  intros A c w l; induction l as [|a l IH]; simpl; [lia | rewrite IH; lia].
Qed.

Lemma sum_over_nonneg : forall (A : Type) (w : A -> Z) l,
  (forall a, In a l -> 0 <= w a) -> 0 <= sum_over w l.
Proof.
  intros A w l; induction l as [|a l IH]; intros Hw; simpl; [lia|].
  specialize (Hw a (or_introl eq_refl)) as Ha.
  assert (0 <= sum_over w l) by (apply IH; intros b Hb; apply Hw; now right). lia.
Qed.

Lemma sum_over_upd : forall (g : nat -> Z) (f : nat -> Z) e c l,
  NoDup l ->
  sum_over (fun a => upd f e c a * g a) l =
  sum_over (fun a => f a * g a) l + (if in_dec Nat.eq_dec e l then (c - f e) * g e else 0).
Proof using Type.
  clear len.
  intros g f e c l; induction l as [|a l IH]; intros Hnd; simpl; [lia|].
  inversion Hnd as [|? ? Ha Hnd']; subst. rewrite (IH Hnd').
  destruct (Nat.eq_dec a e) as [->|Hne].
  - rewrite upd_same. destruct (in_dec Nat.eq_dec e l); [tauto | lia].
  - rewrite upd_other by exact Hne. destruct (in_dec Nat.eq_dec e l); lia.
Qed.

Definition excess (f : nat -> Z) (x : nat) : Z :=
  sum_over (fun e => f e * (ind (target G e) x - ind (source G e) x)) (arcs G).

Lemma excess_upd : forall f e c x,
  In e (arcs G) ->
  excess (upd f e c) x =
  excess f x + (c - f e) * (ind (target G e) x - ind (source G e) x).
Proof using G_wf.
  clear len.
  intros f e c x He. unfold excess.
  rewrite sum_over_upd by (apply (wf_arcs_nodup G_wf)).
  destruct (in_dec Nat.eq_dec e (arcs G)); [reflexivity | tauto].
Qed.

Lemma ind_sym : forall a b, ind a b = ind b a.
Proof. intros a b; unfold ind. now rewrite Nat.eqb_sym. Qed.

Lemma ind_same : forall a, ind a a = 1.
Proof. intros a; unfold ind; now rewrite Nat.eqb_refl. Qed.

Lemma ind_diff : forall a b, a <> b -> ind a b = 0.
Proof. intros a b Hab; unfold ind. destruct (Nat.eqb_spec a b); congruence. Qed.

Lemma res_arc_det : forall f e u v u' v',
  res_arc f e u v -> res_arc f e u' v' -> u = u' /\ v = v'.
Proof.
  intros f e u v u' v' [_ [[H0 [<- <-]]|[H1 [<- <-]]]] [_ [[H0' [<- <-]]|[H1' [<- <-]]]];
    auto; lia.
Qed.

(** *** Setting the flow along the predecessor arcs *)

Section Flip.

Variable f : nat -> Z.
Variable pot : nat -> Z.
Variables s t : nat.
Variable r : Search H.
Hypothesis Hinv : search_inv f pot s t r.
Hypothesis Ht : heap_state (s_heap r) t = IN_HEAP.

(** [e] is the predecessor arc of a node of the path that leads to [t]. *)
Definition tree_arc (w : nat) (e : nat) : Prop :=
  s_pred r w = Some e /\ w <> s /\ (w = t \/ In w (s_proc r)).

Lemma labelled_not_pre : forall w,
  w = t \/ In w (s_proc r) -> heap_state (s_heap r) w <> PRE_HEAP.
Proof.
  intros w [->|Hw]; [congruence|].
  apply (si_post _ _ _ _ _ Hinv) in Hw; congruence.
Qed.

Lemma tree_arc_res : forall w e,
  tree_arc w e ->
  exists u, res_arc f e u w /\ In u (s_proc r) /\
            (pos u (s_proc r) < pos w (s_proc r))%nat /\
            key r w = s_dist r u + rcost f pot e u w.
Proof.
  intros w e (Hp & Hws & Hw).
  destruct (si_pred _ _ _ _ _ Hinv w (labelled_not_pre w Hw) Hws)
    as (e' & u & Hp' & Hr & Hu & Hpos & Hkey).
  assert (e' = e) by congruence; subst e'.
  exists u; auto.
Qed.

Lemma set_flow_walk : forall fuel u fc,
  (pos u (s_proc r) < fuel)%nat ->
  (u = t \/ In u (s_proc r)) ->
  (forall e, fc e = f e \/
             (exists w, tree_arc w e /\ (pos u (s_proc r) < pos w (s_proc r))%nat /\
                        fc e = 1 - f e)) ->
  (forall x, excess fc x = excess f x + ind x t - ind x u) ->
  exists f', set_flow G fuel (s_pred r) u fc = Some f' /\
             (forall e, f' e = f e \/ (exists w, tree_arc w e /\ f' e = 1 - f e)) /\
             (forall x, excess f' x = excess f x + ind x t - ind x s).
Proof.
  intros fuel; induction fuel as [|fuel IH]; intros u fc Hfuel Hu W1 W2; [lia|].
  simpl. destruct (Nat.eq_dec u s) as [->|Hus].
  - destruct (si_src _ _ _ _ _ Hinv) as [Hps _]. rewrite Hps.
    exists fc; split; [reflexivity|]. split; [|exact W2].
    intros e; destruct (W1 e) as [?|(w & Hw & _ & ?)]; [now left | right; now exists w].
  - destruct (si_pred _ _ _ _ _ Hinv u (labelled_not_pre u Hu) Hus)
      as (e & u0 & Hp & Hr & Hu0 & Hpos & _).
    rewrite Hp.
    assert (Hu0u : u0 <> u) by (intros ->; lia).
    assert (Hfc : fc e = f e).
    { destruct (W1 e) as [?|(w & Hw & Hposw & _)]; [assumption|].
      destruct (tree_arc_res w e Hw) as (u' & Hr' & _).
      destruct (res_arc_det _ _ _ _ _ _ Hr Hr') as [_ ->]. lia. }
    assert (He : In e (arcs G)) by (apply Hr).
    assert (Hnext : exists c,
              (if Nat.eqb u (target G e)
               then set_flow G fuel (s_pred r) (source G e) (upd fc e 1)
               else set_flow G fuel (s_pred r) (target G e) (upd fc e 0)) =
              set_flow G fuel (s_pred r) u0 (upd fc e c) /\ c = 1 - f e /\
              forall x, (c - f e) * (ind (target G e) x - ind (source G e) x) =
                        ind x u - ind x u0).
    { destruct Hr as [_ [[H0 [Hs Htg]]|[H1 [Htg Hs]]]].
      - exists 1. rewrite Htg, Nat.eqb_refl, Hs. split; [reflexivity|]. split; [lia|].
        intros x. rewrite H0, (ind_sym x u), (ind_sym x u0). lia.
      - exists 0. rewrite Htg. destruct (Nat.eqb_spec u u0) as [|_]; [congruence|].
        split; [reflexivity|]. split; [lia|].
        intros x. rewrite H1, Hs, (ind_sym x u), (ind_sym x u0). lia. }
    destruct Hnext as (c & -> & Hc & Hex).
    apply IH.
    + lia.
    + now right.
    + intros e'. destruct (Nat.eq_dec e' e) as [->|Hne].
      * right; exists u. rewrite upd_same. split; [|split; [exact Hpos | exact Hc]].
        split; [exact Hp | split; [exact Hus | exact Hu]].
      * rewrite upd_other by exact Hne.
        destruct (W1 e') as [?|(w & Hw & Hposw & ?)]; [now left|].
        right; exists w; split; [exact Hw | split; [lia | assumption]].
    + intros x. rewrite excess_upd by exact He. rewrite Hfc, W2, Hex. lia.
Qed.

Lemma set_flow_spec : forall fuel,
  (length (nodes G) < fuel)%nat ->
  exists f', set_flow G fuel (s_pred r) t f = Some f' /\
             (forall e, f' e = f e \/ (exists w, tree_arc w e /\ f' e = 1 - f e)) /\
             (forall x, excess f' x = excess f x + ind x t - ind x s).
Proof.
  intros fuel Hfuel. apply set_flow_walk.
  - pose proof (pos_le_length t (s_proc r)). pose proof (proc_length f pot s t r Hinv). lia.
  - now left.
  - intros e; now left.
  - intros x; lia.
Qed.

End Flip.

(** *** The potentials after a successful search *)

Section Dual.

Variable f : nat -> Z.
Variable pot : nat -> Z.
Variables s t : nat.
Variable r : Search H.
Hypothesis Hinv : search_inv f pot s t r.
Hypothesis Hnum : search_num f pot r.
Hypothesis Hnn : rcost_nonneg f pot.
Hypothesis Hne : heap_empty (s_heap r) = false.
Hypothesis Htop : heap_top (s_heap r) = t.

Let t_dist := heap_get (s_heap r) t.
Let pot' := update_potentials (s_dist r) t_dist (s_proc r) pot.

Lemma top_in_heap : heap_state (s_heap r) t = IN_HEAP.
Proof. rewrite <- Htop. apply heap_top_in; [apply Hinv | exact Hne]. Qed.

Lemma new_pot_in : forall x, In x (s_proc r) -> pot' x = pot x + (s_dist r x - t_dist).
Proof. intros x Hx. apply update_potentials_in; [apply Hinv | exact Hx]. Qed.

Lemma new_pot_notin : forall x, ~ In x (s_proc r) -> pot' x = pot x.
Proof using Type. intros x Hx. apply update_potentials_notin; exact Hx. Qed.

Lemma dist_le_t_dist : forall x, In x (s_proc r) -> s_dist r x <= t_dist.
Proof. intros x Hx. apply (sn_mono _ _ _ Hnum x t Hx top_in_heap). Qed.

Lemma in_heap_ge_t_dist : forall v,
  heap_state (s_heap r) v = IN_HEAP -> t_dist <= heap_get (s_heap r) v.
Proof.
  intros v Hv. unfold t_dist. rewrite <- Htop. apply heap_top_min; [apply Hinv | exact Hv].
Qed.

Lemma new_pot_le : forall x, pot' x <= pot x.
Proof.
  intros x. destruct (in_dec Nat.eq_dec x (s_proc r)) as [Hx|Hx].
  - rewrite new_pot_in by exact Hx. pose proof (dist_le_t_dist x Hx); lia.
  - rewrite new_pot_notin by exact Hx; lia.
Qed.

Lemma new_rcost_nonneg : forall e u v, res_arc f e u v -> 0 <= rcost f pot' e u v.
Proof.
  intros e u v Hr. pose proof (Hnn e u v Hr) as Hc.
  unfold rcost in *.
  destruct (in_dec Nat.eq_dec u (s_proc r)) as [Hu|Hu];
    destruct (in_dec Nat.eq_dec v (s_proc r)) as [Hv|Hv].
  - rewrite (new_pot_in u Hu), (new_pot_in v Hv).
    pose proof (sn_tri _ _ _ Hnum u e v Hu Hr) as Htri. unfold key, rcost in Htri.
    apply (si_post _ _ _ _ _ Hinv) in Hv. rewrite Hv in Htri. lia.
  - rewrite (new_pot_in u Hu), (new_pot_notin v Hv).
    pose proof (sn_tri _ _ _ Hnum u e v Hu Hr) as Htri. unfold key, rcost in Htri.
    pose proof (si_complete _ _ _ _ _ Hinv u e v Hu Hr) as Hnpre.
    destruct (state_cases (s_heap r) v) as [E|[E|E]]; [|congruence|].
    + rewrite E in Htri. pose proof (in_heap_ge_t_dist v E). lia.
    + apply (si_post _ _ _ _ _ Hinv) in E. tauto.
  - rewrite (new_pot_notin u Hu), (new_pot_in v Hv).
    pose proof (dist_le_t_dist v Hv). lia.
  - rewrite (new_pot_notin u Hu), (new_pot_notin v Hv). lia.
Qed.

Lemma tree_arc_tight : forall w e u,
  tree_arc s t r w e -> res_arc f e u w -> rcost f pot' e u w = 0.
Proof.
  intros w e u Hw Hr.
  destruct (tree_arc_res f pot s t r Hinv top_in_heap w e Hw) as (u' & Hr' & Hu' & _ & Hkey).
  destruct (res_arc_det _ _ _ _ _ _ Hr Hr') as [<- _].
  unfold rcost, key in *. rewrite (new_pot_in u Hu').
  destruct Hw as (_ & _ & [->|Hw]).
  - rewrite top_in_heap in Hkey.
    rewrite new_pot_notin by (apply (si_t _ _ _ _ _ Hinv)).
    fold t_dist in Hkey. lia.
  - rewrite (new_pot_in w Hw).
    apply (si_post _ _ _ _ _ Hinv) in Hw. rewrite Hw in Hkey. lia.
Qed.

Lemma flipped_rcost_nonneg : forall f',
  (forall e, f' e = f e \/ (exists w, tree_arc s t r w e /\ f' e = 1 - f e)) ->
  rcost_nonneg f' pot'.
Proof.
  intros f' HF e u v Hr'.
  destruct (HF e) as [Heq|(w & Hw & Hflip)].
  - assert (Hr : res_arc f e u v) by (unfold res_arc in *; now rewrite <- Heq).
    pose proof (new_rcost_nonneg e u v Hr) as Hc.
    unfold rcost, rlen in *. now rewrite Heq.
  - destruct (tree_arc_res f pot s t r Hinv top_in_heap w e Hw) as (u0 & Hr & _).
    pose proof (tree_arc_tight w e u0 Hw Hr) as Htight.
    unfold rcost, rlen in *.
    destruct Hr as [_ [[H0 [Hs Htg]]|[H1 [Htg Hs]]]];
      destruct Hr' as [_ [[H0' [Hs' Htg']]|[H1' [Htg' Hs']]]]; try lia.
    + rewrite H0 in Htight. rewrite H1'. simpl in *. subst. lia.
    + rewrite H1 in Htight. rewrite H0'. simpl in *. subst. lia.
Qed.

End Dual.

(** ** One iteration of the augmentation loop *)

(** Every residual arc has a non-negative reduced length. *)
Definition dual_feasible (st : Suurballe) : Prop :=
  rcost_nonneg (_flow st) (_potential st).

Record flow_inv (st : Suurballe) : Prop := {
  fi_binary : forall e, In e (arcs G) -> _flow st e = 0 \/ _flow st e = 1;
  fi_excess : forall x,
    excess (_flow st) x = _path_num st * (ind x (_target st) - ind x (_source st));
  fi_s : _s (_dijkstra st) = _source st;
  fi_t : _t (_dijkstra st) = _target st;
  fi_source : In (_source st) (nodes G)
}.

Record augment_post (st : Suurballe) (b : bool) (st' : Suurballe) : Prop := {
  ap_inv : flow_inv st';
  ap_source : _source st' = _source st;
  ap_target : _target st' = _target st;
  ap_paths : paths st' = paths st;
  ap_path_num : _path_num st' = _path_num st + (if b then 1 else 0);
  ap_dual : dual_feasible st -> dual_feasible st';
  ap_pot_t : _potential st' (_target st) = _potential st (_target st);
  ap_pot_le : dual_feasible st -> forall v, _potential st' v <= _potential st v;
  ap_found : b = true <-> reachable (_flow st) (_source st) (_target st);
  ap_false : b = false -> _flow st' = _flow st /\ _potential st' = _potential st;
  ap_proc : ~ In (_target st) (_proc_nodes (_dijkstra st'))
}.

Lemma augment_spec : forall fuel st,
  flow_inv st -> (length (nodes G) < fuel)%nat ->
  exists b st', augment G len fuel st = Some (b, st') /\ augment_post st b st'.
Proof.
  intros fuel st FI Hfuel.
  assert (Hs : In (_s (_dijkstra st)) (nodes G))
    by (rewrite (fi_s _ FI); apply (fi_source _ FI)).
  destruct (ResidualDijkstra_run_spec fuel st Hs Hfuel) as (b & st1 & r & Hrun & RP).
  pose proof (rp_inv _ _ _ _ RP) as Hinv.
  rewrite (fi_s _ FI), (fi_t _ FI) in Hinv.
  destruct (search_exit_reachable _ _ _ _ _ Hinv) as [Hyes Hno].
  unfold augment, bind, get_st, lift, put_st, ret. rewrite Hrun.
  destruct b; cbv beta iota.
  - destruct (rp_true _ _ _ _ RP eq_refl) as (Hne & Htop & Hpot).
    rewrite (fi_t _ FI) in Htop, Hpot.
    assert (Htin : heap_state (s_heap r) (_target st) = IN_HEAP)
      by (rewrite <- Htop; apply heap_top_in; [apply Hinv | exact Hne]).
    destruct (set_flow_spec _ _ _ _ _ Hinv Htin fuel Hfuel) as (f' & Hset & F1 & F2).
    rewrite (rp_pred _ _ _ _ RP), (rp_target _ _ _ _ RP), (rp_flow _ _ _ _ RP), Hset.
    eexists true, _; split; [reflexivity|].
    constructor; simpl.
    + constructor; simpl.
      * intros e He. destruct (fi_binary _ FI e He) as [E|E];
          destruct (F1 e) as [->|(w & _ & ->)]; rewrite ?E; auto.
      * intros x. rewrite F2, (fi_excess _ FI x), (rp_path_num _ _ _ _ RP),
          (rp_source _ _ _ _ RP). ring.
      * rewrite (rp_dj _ _ _ _ RP), (rp_source _ _ _ _ RP); simpl. apply FI.
      * rewrite (rp_dj _ _ _ _ RP); simpl. apply FI.
      * rewrite (rp_source _ _ _ _ RP). apply FI.
    + apply RP.
    + reflexivity.
    + apply RP.
    + rewrite (rp_path_num _ _ _ _ RP); reflexivity.
    + intros Hd. unfold dual_feasible; simpl. rewrite Hpot.
      exact (flipped_rcost_nonneg (_flow st) (_potential st) (_source st) (_target st) r
               Hinv (rp_num _ _ _ _ RP Hd) Hd Hne Htop f' F1).
    + rewrite Hpot. apply update_potentials_notin. apply Hinv.
    + intros Hd v. rewrite Hpot.
      apply (new_pot_le (_flow st) (_potential st) (_source st) (_target st) r); auto.
      exact (rp_num _ _ _ _ RP Hd).
    + split; [intros _; apply Hyes; auto | reflexivity].
    + discriminate.
    + rewrite (rp_dj _ _ _ _ RP); simpl. apply Hinv.
  - destruct (rp_false _ _ _ _ RP eq_refl) as (He & Hpot).
    exists false, st1; split; [reflexivity|].
    constructor.
    + constructor.
      * intros e He'. rewrite (rp_flow _ _ _ _ RP). now apply FI.
      * intros x. rewrite (rp_flow _ _ _ _ RP), (rp_path_num _ _ _ _ RP),
          (rp_target _ _ _ _ RP), (rp_source _ _ _ _ RP). apply FI.
      * rewrite (rp_dj _ _ _ _ RP), (rp_source _ _ _ _ RP); simpl. apply FI.
      * rewrite (rp_dj _ _ _ _ RP), (rp_target _ _ _ _ RP); simpl. apply FI.
      * rewrite (rp_source _ _ _ _ RP). apply FI.
    + apply RP.
    + apply RP.
    + apply RP.
    + rewrite (rp_path_num _ _ _ _ RP); lia.
    + unfold dual_feasible. now rewrite (rp_flow _ _ _ _ RP), Hpot.
    + now rewrite Hpot.
    + intros _ v. rewrite Hpot; lia.
    + split; [discriminate | intros Hr; now destruct (Hno He)].
    + intros _; split; [apply RP | exact Hpot].
    + rewrite (rp_dj _ _ _ _ RP); simpl. apply Hinv.
Qed.

(** ** The augmentation loop *)

Lemma fold_upd_const_notin : forall (l : list nat) (c : Z) f0 e,
  ~ In e l -> fold_left (fun f e => upd f e c) l f0 e = f0 e.
Proof using Type.
  clear len.
  intros l c; induction l as [|a l IH]; intros f0 e He; simpl in *; [reflexivity|].
  rewrite IH by tauto. apply upd_other. intros ->; apply He; now left.
Qed.

Lemma fold_upd_const_in : forall (l : list nat) (c : Z) f0 e,
  In e l -> fold_left (fun f e => upd f e c) l f0 e = c.
Proof using Type.
  clear len.
  intros l c; induction l as [|a l IH]; intros f0 e He; simpl; [destruct He|].
  destruct (in_dec Nat.eq_dec e l) as [Hl|Hl]; [now apply IH|].
  destruct He as [->|He]; [|tauto].
  rewrite fold_upd_const_notin by exact Hl. apply upd_same.
Qed.

(** The state in which the loop of [findFlow(t, k)] is entered after
    [init(s)]. *)
Definition loop_start (s t : nat) (st0 : Suurballe) : Suurballe :=
  findFlow_begin t (init_maps G s st0).

Lemma loop_start_flow : forall s t st0 e,
  In e (arcs G) -> _flow (loop_start s t st0) e = 0.
Proof using Type.
  clear len. intros s t st0 e He; simpl. now apply fold_upd_const_in. Qed.

Lemma loop_start_potential : forall s t st0 v,
  In v (nodes G) -> _potential (loop_start s t st0) v = 0.
Proof using Type.
  clear len. intros s t st0 v Hv; simpl. now apply fold_upd_const_in. Qed.

Lemma loop_start_inv : forall s t st0, In s (nodes G) -> flow_inv (loop_start s t st0).
Proof using Type.
  clear len.
  intros s t st0 Hs; constructor; try reflexivity; try exact Hs.
  - intros e He; left; now apply loop_start_flow.
  - intros x. unfold excess. rewrite sum_over_zero; [simpl; lia|].
    intros e He. rewrite loop_start_flow by exact He. lia.
Qed.

Lemma loop_start_dual : forall s t st0,
  (forall e, In e (arcs G) -> 0 <= len e) -> dual_feasible (loop_start s t st0).
Proof.
  intros s t st0 Hlen e u v Hr.
  destruct (res_arc_nodes _ _ _ _ Hr) as [Hu Hv].
  unfold rcost, rlen.
  rewrite (loop_start_potential s t st0 u Hu), (loop_start_potential s t st0 v Hv).
  destruct Hr as [He _].
  rewrite (loop_start_flow s t st0 e He). simpl. specialize (Hlen e He). lia.
Qed.

(** What [j] completed iterations preserve and change. *)
Record iter_post (st st' : Suurballe) (j : nat) : Prop := {
  ip_inv : flow_inv st';
  ip_source : _source st' = _source st;
  ip_target : _target st' = _target st;
  ip_paths : paths st' = paths st;
  ip_path_num : _path_num st' = _path_num st + Z.of_nat j;
  ip_dual : dual_feasible st -> dual_feasible st';
  ip_pot_t : _potential st' (_target st) = _potential st (_target st);
  ip_pot_le : dual_feasible st -> forall v, _potential st' v <= _potential st v
}.

Lemma iter_post_refl : forall st, flow_inv st -> iter_post st st 0.
Proof. intros st FI; constructor; auto; simpl; try lia; intros; lia. Qed.

Lemma iter_post_step : forall st st1 st2 j b,
  iter_post st st1 j -> augment_post st1 b st2 ->
  iter_post st st2 (if b then S j else j).
Proof.
  intros st st1 st2 j b [I1 I2 I3 I4 I5 I6 I7 I8] AP.
  constructor.
  - apply AP.
  - rewrite (ap_source _ _ _ AP); exact I2.
  - rewrite (ap_target _ _ _ AP); exact I3.
  - rewrite (ap_paths _ _ _ AP); exact I4.
  - rewrite (ap_path_num _ _ _ AP), I5. destruct b; lia.
  - intros Hd. apply (ap_dual _ _ _ AP), I6, Hd.
  - rewrite <- I3, (ap_pot_t _ _ _ AP), I3. exact I7.
  - intros Hd v. pose proof (ap_pot_le _ _ _ AP (I6 Hd) v). pose proof (I8 Hd v). lia.
Qed.

Lemma iterations_post : forall fuel j st st',
  flow_inv st -> (length (nodes G) < fuel)%nat ->
  iterations G len fuel j st = Some st' -> iter_post st st' j.
Proof.
  intros fuel j; induction j as [|j IH]; intros st st' FI Hfuel Hit; simpl in Hit.
  - inversion Hit; subst. now apply iter_post_refl.
  - destruct (iterations G len fuel j st) as [st1|] eqn:E1; [|discriminate].
    specialize (IH st st1 FI Hfuel E1).
    destruct (augment_spec fuel st1 (ip_inv _ _ _ IH) Hfuel) as (b & st2 & Ha & AP).
    rewrite Ha in Hit. destruct b; [|discriminate].
    inversion Hit; subst. apply (iter_post_step st st1 st' j true IH AP).
Qed.

Lemma iterations_front : forall fuel j st,
  iterations G len fuel (S j) st =
  match augment G len fuel st with
  | Some (true, st1) => iterations G len fuel j st1
  | _ => None
  end.
Proof.
  intros fuel j; induction j as [|j IH]; intros st.
  - simpl. destruct (augment G len fuel st) as [[[|] st1]|]; reflexivity.
  - change (iterations G len fuel (S (S j)) st) with
      (match iterations G len fuel (S j) st with
       | Some st1 =>
           match augment G len fuel st1 with
           | Some (true, st2) => Some st2
           | _ => None
           end
       | None => None
       end).
    rewrite IH. destruct (augment G len fuel st) as [[[|] st1]|]; reflexivity.
Qed.

(** The loop of [findFlow] returns; its final state is the state after [j]
    completed iterations, up to the maps of a last, failed search. *)
Lemma findFlow_loop_spec : forall fuel n st,
  flow_inv st -> (length (nodes G) < fuel)%nat ->
  exists j st1 st',
    findFlow_loop G len fuel n st = Some (tt, st') /\
    (j <= n)%nat /\
    iterations G len fuel j st = Some st1 /\
    iter_post st1 st' 0 /\ _flow st' = _flow st1 /\ _potential st' = _potential st1 /\
    (j = n \/ ~ reachable (_flow st') (_source st') (_target st')).
Proof.
  intros fuel n; induction n as [|n IH]; intros st FI Hfuel.
  - exists 0%nat, st, st.
    split; [reflexivity|]. split; [lia|]. split; [reflexivity|].
    split; [now apply iter_post_refl|]. split; [reflexivity|]. split; [reflexivity|].
    now left.
  - destruct (augment_spec fuel st FI Hfuel) as (b & st2 & Ha & AP).
    simpl; unfold bind; rewrite Ha. destruct b.
    + destruct (IH st2 (ap_inv _ _ _ AP) Hfuel)
        as (j & st1 & st' & Hl & Hj & Hit & IP & Hf & Hp & Hstop).
      exists (S j), st1, st'. rewrite iterations_front, Ha.
      split; [exact Hl|]. split; [lia|]. split; [exact Hit|].
      split; [exact IP|]. split; [exact Hf|]. split; [exact Hp|].
      destruct Hstop; [left; lia | now right].
    + exists 0%nat, st, st2.
      destruct (ap_false _ _ _ AP eq_refl) as [Hf Hp].
      split; [reflexivity|]. split; [lia|]. split; [reflexivity|].
      split; [apply (iter_post_step st st st2 0 false (iter_post_refl st FI) AP)|].
      split; [exact Hf|]. split; [exact Hp|].
      right. rewrite Hf, (ap_source _ _ _ AP), (ap_target _ _ _ AP).
      intros Hr. apply (ap_found _ _ _ AP) in Hr. discriminate.
Qed.

(** ** Decomposing the flow into paths *)

(** [is_walk u p v]: the arcs of [p] lead from [u] to [v] in the digraph. *)
Fixpoint is_walk (u : nat) (p : list nat) (v : nat) : Prop :=
  match p with
  | [] => u = v
  | e :: p' => In e (arcs G) /\ source G e = u /\ is_walk (target G e) p' v
  end.

Lemma is_walk_snoc : forall p u v e,
  is_walk u p v -> In e (arcs G) -> source G e = v -> is_walk u (p ++ [e]) (target G e).
Proof.
  intros p; induction p as [|a p IH]; intros u v e Hw He Hs; simpl in *.
  - subst; auto.
  - destruct Hw as (Ha & Hsa & Hw). split; [exact Ha|]. split; [exact Hsa|].
    now apply (IH _ v).
Qed.

Lemma first_flow_arc_some : forall res l e,
  first_flow_arc res l = Some e -> In e l /\ res e <> 0.
Proof.
  intros res l e; induction l as [|a l IH]; simpl; [discriminate|].
  destruct (Z.eqb_spec (res a) 0) as [E|E].
  - intros Hf; destruct (IH Hf); auto.
  - intros Hf; inversion Hf; subst; auto.
Qed.

Lemma first_flow_arc_ex : forall res l,
  (exists e, In e l /\ res e <> 0) -> exists e', first_flow_arc res l = Some e'.
Proof.
  intros res l; induction l as [|a l IH]; intros (e & He & Hres); simpl; [destruct He|].
  destruct (Z.eqb_spec (res a) 0) as [E|E]; [|now exists a].
  apply IH. destruct He as [->|He]; [congruence | now exists e].
Qed.

Lemma fold_copy : forall (f : nat -> Z) (l : list nat) r0 a,
  fold_left (fun r a => upd r a (f a)) l r0 a =
  if in_dec Nat.eq_dec a l then f a else r0 a.
Proof.
  intros f l; induction l as [|b l IH]; intros r0 a; simpl; [reflexivity|].
  rewrite IH.
  destruct (in_dec Nat.eq_dec a l) as [Hl|Hl]; destruct (Nat.eq_dec b a) as [->|Hb];
    try reflexivity.
  - apply upd_same.
  - apply upd_other; congruence.
Qed.

Lemma neg_excess_out : forall res n,
  (forall a, 0 <= res a) -> excess res n < 0 ->
  exists e, In e (arcs G) /\ source G e = n /\ res e <> 0.
Proof.
  intros res n Hres. unfold excess. induction (arcs G) as [|a l IH]; simpl; [lia|].
  intros Hlt.
  destruct (Nat.eq_dec (source G a) n) as [Hs|Hs];
    [destruct (Z.eq_dec (res a) 0) as [E|E]|].
  - rewrite E in Hlt. destruct IH as (e & He & ?); [lia|]. exists e; auto.
  - exists a; auto.
  - rewrite (ind_diff _ _ Hs) in Hlt.
    assert (0 <= res a * (ind (target G a) n - 0)).
    { specialize (Hres a). unfold ind. destruct (Nat.eqb (target G a) n); lia. }
    destruct IH as (e & He & ?); [lia|]. exists e; auto.
Qed.

Section Decompose.

Variable f : nat -> Z.
Variables s t : nat.
Hypothesis f_binary : forall e, In e (arcs G) -> f e = 0 \/ f e = 1.

(** The arcs [used] by the paths extracted so far and the residual copy of
    the flow. *)
Record ext_inv (used : list nat) (res : nat -> Z) : Prop := {
  ei_nodup : NoDup used;
  ei_used : forall a, In a used -> In a (arcs G) /\ f a = 1;
  ei_res : forall a, res a = if in_dec Nat.eq_dec a used then 0
                             else if in_dec Nat.eq_dec a (arcs G) then f a else 0
}.

Lemma ext_inv_nonneg : forall used res, ext_inv used res -> forall a, 0 <= res a.
Proof.
  intros used res EI a. rewrite (ei_res _ _ EI a).
  destruct (in_dec Nat.eq_dec a used); [lia|].
  destruct (in_dec Nat.eq_dec a (arcs G)) as [Ha|]; [|lia].
  destruct (f_binary a Ha); lia.
Qed.

Lemma ext_inv_pick : forall used res e,
  ext_inv used res -> res e <> 0 ->
  ~ In e used /\ In e (arcs G) /\ f e = 1 /\ res e = 1.
Proof.
  intros used res e EI Hres. pose proof (ei_res _ _ EI e) as Hr.
  destruct (in_dec Nat.eq_dec e used); [congruence|].
  destruct (in_dec Nat.eq_dec e (arcs G)) as [Ha|]; [|congruence].
  destruct (f_binary e Ha); [congruence|]. repeat split; auto; congruence.
Qed.

Lemma ext_inv_step : forall used res e,
  ext_inv used res -> res e <> 0 -> ext_inv (used ++ [e]) (upd res e 0).
Proof using f_binary.
  clear len.
  intros used res e EI Hres.
  destruct (ext_inv_pick used res e EI Hres) as (Hn & Ha & Hf & _).
  constructor.
  - apply NoDup_snoc; [apply EI | exact Hn].
  - intros a Hin. apply in_app_or in Hin. destruct Hin as [Hin|[<-|[]]]; [now apply EI | auto].
  - intros a. destruct (Nat.eq_dec a e) as [->|Hne].
    + rewrite upd_same. destruct (in_dec Nat.eq_dec e (used ++ [e])) as [|Hx]; [reflexivity|].
      exfalso; apply Hx, in_or_app; right; now left.
    + rewrite upd_other by exact Hne. rewrite (ei_res _ _ EI a).
      destruct (in_dec Nat.eq_dec a used) as [Hu|Hu];
        destruct (in_dec Nat.eq_dec a (used ++ [e])) as [Hu'|Hu']; try reflexivity.
      * exfalso; apply Hu', in_or_app; now left.
      * apply in_app_or in Hu'. destruct Hu' as [?|[?|[]]]; [tauto | congruence].
Qed.

Lemma ext_inv_length : forall used res,
  ext_inv used res -> (length used <= length (arcs G))%nat.
Proof.
  intros used res EI. apply NoDup_incl_length; [apply EI|].
  intros a Ha. now apply (ei_used _ _ EI).
Qed.

Lemma walk_spec : forall fuel m used0 n res p,
  0 <= m -> is_walk s p n -> ext_inv (used0 ++ p) res ->
  (forall x, excess res x = m * (ind x t - ind x s) + ind x t - ind x n) ->
  (length (arcs G) < fuel + length (used0 ++ p))%nat ->
  exists p' res', walk G fuel t n res p = Some (p', res') /\
                  is_walk s p' t /\ ext_inv (used0 ++ p') res' /\
                  (forall x, excess res' x = m * (ind x t - ind x s)).
Proof using G_wf f_binary.
  clear len.
  intros fuel; induction fuel as [|fuel IH]; intros m used0 n res p Hm Hw EI Hex Hfuel.
  - pose proof (ext_inv_length _ _ EI). lia.
  - simpl. destruct (Nat.eqb_spec n t) as [->|Hnt].
    + exists p, res. split; [reflexivity|]. split; [exact Hw|]. split; [exact EI|].
      intros x; rewrite Hex; lia.
    + assert (Hneg : excess res n < 0).
      { rewrite Hex, ind_same, (ind_diff n t Hnt). unfold ind.
        destruct (Nat.eqb n s); nia. }
      destruct (neg_excess_out res n (ext_inv_nonneg _ _ EI) Hneg) as (e & He & Hs & Hres).
      destruct (first_flow_arc_ex res (outArcs G n)) as [e' Hfirst].
      { exists e; split; [apply (wf_out G_wf); auto | exact Hres]. }
      rewrite Hfirst.
      destruct (first_flow_arc_some _ _ _ Hfirst) as [Hout Hres'].
      apply (wf_out G_wf) in Hout. destruct Hout as [He' Hs'].
      destruct (ext_inv_pick _ _ _ EI Hres') as (_ & _ & _ & Hone).
      apply IH; auto.
      * now apply (is_walk_snoc p s n).
      * rewrite app_assoc. now apply ext_inv_step.
      * intros x. rewrite excess_upd by exact He'. rewrite Hex, Hone, Hs'.
        rewrite (ind_sym (target G e') x), (ind_sym n x). lia.
      * rewrite app_assoc, length_app; simpl. lia.
Qed.

Lemma findPaths_loop_spec : forall fuel i ps res,
  (length (arcs G) < fuel)%nat ->
  Forall (fun p => is_walk s p t) ps -> ext_inv (concat ps) res ->
  (forall x, excess res x = Z.of_nat i * (ind x t - ind x s)) ->
  exists ps' res', findPaths_loop G fuel i s t res ps = Some (ps', res') /\
                   Forall (fun p => is_walk s p t) ps' /\ ext_inv (concat ps') res' /\
                   (forall x, excess res' x = 0) /\
                   length ps' = (length ps + i)%nat.
Proof using G_wf f_binary.
  clear len.
  intros fuel i; induction i as [|i IH]; intros ps res Hfuel Hps EI Hex.
  - exists ps, res. split; [reflexivity|]. split; [exact Hps|]. split; [exact EI|].
    split; [intros x; rewrite Hex; lia | simpl; lia].
  - simpl.
    destruct (walk_spec fuel (Z.of_nat i) (concat ps) s res []) as (p & res1 & Hwalk & Hp & EI1 & Hex1).
    + lia.
    + reflexivity.
    + now rewrite app_nil_r.
    + intros x. rewrite Hex, Nat2Z.inj_succ. lia.
    + lia.
    + rewrite Hwalk.
      destruct (IH (ps ++ [p]) res1) as (ps' & res' & Hl & Hps' & EI' & Hex' & Hlen); auto.
      * apply Forall_app; split; [exact Hps | constructor; [exact Hp | constructor]].
      * rewrite concat_app; simpl. now rewrite app_nil_r.
      * exists ps', res'. split; [exact Hl|]. split; [exact Hps'|]. split; [exact EI'|].
        split; [exact Hex'|]. rewrite Hlen, length_app; simpl; lia.
Qed.

End Decompose.

Lemma findPaths_spec : forall fuel st,
  flow_inv st -> 0 <= _path_num st -> (length (arcs G) < fuel)%nat ->
  exists st' res',
    findPaths G fuel st = Some (tt, st') /\
    _flow st' = _flow st /\ _potential st' = _potential st /\
    _source st' = _source st /\ _target st' = _target st /\
    _path_num st' = _path_num st /\
    Forall (fun p => is_walk (_source st) p (_target st)) (paths st') /\
    ext_inv (_flow st) (concat (paths st')) res' /\
    (forall x, excess res' x = 0) /\
    length (paths st') = Z.to_nat (_path_num st).
Proof using G_wf.
  clear len.
  intros fuel st FI Hpn Hfuel.
  set (res0 := fold_left (fun r a => upd r a (_flow st a)) (arcs G) (fun _ => 0)).
  assert (Hres0 : forall a, res0 a = if in_dec Nat.eq_dec a (arcs G) then _flow st a else 0)
    by (intros a; unfold res0; apply fold_copy).
  destruct (findPaths_loop_spec (_flow st) (_source st) (_target st) (fi_binary _ FI)
              fuel (Z.to_nat (_path_num st)) [] res0)
    as (ps & res' & Hloop & Hps & EI & Hex & Hlen).
  - exact Hfuel.
  - constructor.
  - constructor; simpl.
    + constructor.
    + intros a [].
    + intros a. rewrite Hres0. reflexivity.
  - intros x. rewrite Z2Nat.id by exact Hpn. rewrite <- (fi_excess _ FI x).
    unfold excess. apply sum_over_ext. intros a Ha. rewrite Hres0.
    destruct (in_dec Nat.eq_dec a (arcs G)); [reflexivity | tauto].
  - unfold findPaths, bind, get_st, lift, put_st. fold res0. rewrite Hloop.
    eexists _, res'; split; [reflexivity|]. simpl.
    repeat (split; [reflexivity|]).
    split; [exact Hps|]. split; [exact EI|]. split; [exact Hex | exact Hlen].
Qed.

(** ** Optimality of the flow *)

Definition path_length (p : list nat) : Z := sum_over len p.

Definition total_path_length (ps : list (list nat)) : Z := sum_over path_length ps.

Definition flow_cost (f : nat -> Z) : Z := sum_over (fun e => f e * len e) (arcs G).

Definition indicator (l : list nat) (a : nat) : Z :=
  if in_dec Nat.eq_dec a l then 1 else 0.

Lemma fold_left_sum : forall (A : Type) (w : A -> Z) l c,
  fold_left (fun c e => c + w e) l c = c + sum_over w l.
Proof.
  intros A w l; induction l as [|a l IH]; intros c; simpl; [lia|].
  rewrite IH; lia.
Qed.

Lemma totalLength_flow_cost : forall st, totalLength G len st = flow_cost (_flow st).
Proof. intros st; unfold totalLength, flow_cost. now rewrite fold_left_sum. Qed.

Lemma total_path_length_concat : forall ps,
  total_path_length ps = sum_over len (concat ps).
Proof.
  intros ps; unfold total_path_length; induction ps as [|p ps IH]; simpl; [reflexivity|].
  rewrite sum_over_app, IH. reflexivity.
Qed.

Lemma sum_over_sub : forall (A : Type) (w w' : A -> Z) l,
  sum_over (fun a => w a - w' a) l = sum_over w l - sum_over w' l.
Proof.
  intros A w w' l; induction l as [|a l IH]; simpl; [reflexivity | rewrite IH; lia].
Qed.

Lemma sum_over_le : forall (A : Type) (w w' : A -> Z) l,
  (forall a, In a l -> w a <= w' a) -> sum_over w l <= sum_over w' l.
Proof.
  intros A w w' l; induction l as [|a l IH]; intros Hw; simpl; [lia|].
  specialize (Hw a (or_introl eq_refl)) as Ha.
  assert (sum_over w l <= sum_over w' l) by (apply IH; intros b Hb; apply Hw; now right).
  lia.
Qed.

Lemma point_mass : forall (w : nat -> Z) (l : list nat) y,
  NoDup l -> sum_over (fun x => w x * ind y x) l = if in_dec Nat.eq_dec y l then w y else 0.
Proof using Type.
  clear len.
  intros w l y; induction l as [|a l IH]; intros Hnd; simpl; [reflexivity|].
  inversion Hnd as [|? ? Ha Hnd']; subst. rewrite (IH Hnd').
  destruct (Nat.eq_dec a y) as [->|Hne].
  - rewrite ind_same. destruct (in_dec Nat.eq_dec y l); [tauto | lia].
  - rewrite (ind_diff y a) by congruence. destruct (in_dec Nat.eq_dec y l); lia.
Qed.

Lemma sum_indicator : forall (w : nat -> Z) (l : list nat),
  NoDup l -> incl l (arcs G) ->
  sum_over (fun a => indicator l a * w a) (arcs G) = sum_over w l.
Proof using G_wf.
  clear len.
  intros w l; induction l as [|x l IH]; intros Hnd Hincl.
  - simpl. apply sum_over_zero. intros a _. unfold indicator; simpl. reflexivity.
  - inversion Hnd as [|? ? Hx Hnd']; subst. simpl.
    rewrite <- IH; [|exact Hnd' | intros a Ha; apply Hincl; now right].
    assert (Hpm : sum_over (fun a => w a * ind x a) (arcs G) = w x).
    { rewrite point_mass by (apply (wf_arcs_nodup G_wf)).
      destruct (in_dec Nat.eq_dec x (arcs G)) as [|Hn]; [reflexivity|].
      exfalso; apply Hn, Hincl; now left. }
    rewrite <- Hpm, <- sum_over_plus. apply sum_over_ext. intros a _.
    unfold indicator, ind; simpl.
    destruct (Nat.eq_dec x a) as [->|Hne].
    + rewrite Nat.eqb_refl. destruct (in_dec Nat.eq_dec a l); [tauto | lia].
    + destruct (Nat.eqb_spec x a); [congruence|].
      destruct (in_dec Nat.eq_dec a l); lia.
Qed.

Lemma walk_excess_sum : forall x p u v,
  is_walk u p v ->
  sum_over (fun a => ind (target G a) x - ind (source G a) x) p = ind v x - ind u x.
Proof.
  intros x p; induction p as [|e p IH]; intros u v Hw; simpl in *.
  - subst; lia.
  - destruct Hw as (_ & Hs & Hw). rewrite (IH _ _ Hw), Hs. lia.
Qed.

Lemma walks_in_arcs : forall s t ps,
  Forall (fun p => is_walk s p t) ps -> incl (concat ps) (arcs G).
Proof.
  intros s t ps Hps a Ha. apply in_concat in Ha. destruct Ha as (p & Hp & Ha).
  rewrite Forall_forall in Hps. specialize (Hps p Hp).
  clear Hp. revert s Hps. induction p as [|e p IH]; intros s Hw; simpl in *; [destruct Ha|].
  destruct Hw as (He & _ & Hw). destruct Ha as [<-|Ha]; [exact He | now apply (IH Ha _ Hw)].
Qed.

Lemma paths_excess : forall s t ps x,
  Forall (fun p => is_walk s p t) ps -> NoDup (concat ps) ->
  excess (indicator (concat ps)) x = Z.of_nat (length ps) * (ind x t - ind x s).
Proof using G_wf.
  clear len.
  intros s t ps x Hps Hnd. unfold excess.
  rewrite sum_indicator; [|exact Hnd | now apply (walks_in_arcs s t)].
  clear Hnd. induction Hps as [|p ps Hp Hps IH].
  - simpl; lia.
  - cbn [concat length]. rewrite sum_over_app, IH, (walk_excess_sum x p s t Hp), Nat2Z.inj_succ.
    rewrite (ind_sym t x), (ind_sym s x). lia.
Qed.

Lemma potential_sum : forall (pot h : nat -> Z),
  sum_over (fun a => h a * (pot (target G a) - pot (source G a))) (arcs G) =
  sum_over (fun x => pot x * excess h x) (nodes G).
Proof using G_wf.
  clear len.
  intros pot h. unfold excess.
  assert (Hin : incl (arcs G) (arcs G)) by (intros a Ha; exact Ha).
  revert Hin. generalize (arcs G) at 1 3 4. intros l; induction l as [|a l IH]; intros Hin.
  - simpl. symmetry; apply sum_over_zero. intros; lia.
  - simpl. rewrite IH by (intros b Hb; apply Hin; now right).
    assert (Ha : In a (arcs G)) by (apply Hin; now left).
    assert (Hsrc : sum_over (fun x => pot x * ind (source G a) x) (nodes G) = pot (source G a)).
    { rewrite point_mass by (apply (wf_nodes_nodup G_wf)).
      destruct (in_dec Nat.eq_dec (source G a) (nodes G)) as [|Hn]; [reflexivity|].
      exfalso; apply Hn, (wf_source G_wf), Ha. }
    assert (Htgt : sum_over (fun x => pot x * ind (target G a) x) (nodes G) = pot (target G a)).
    { rewrite point_mass by (apply (wf_nodes_nodup G_wf)).
      destruct (in_dec Nat.eq_dec (target G a) (nodes G)) as [|Hn]; [reflexivity|].
      exfalso; apply Hn, (wf_target G_wf), Ha. }
    rewrite <- Hsrc, <- Htgt.
    rewrite <- sum_over_sub, <- sum_over_scal, <- sum_over_plus.
    apply sum_over_ext. intros x _. ring.
Qed.

Lemma excess_sub : forall (g f : nat -> Z) x,
  excess (fun a => g a - f a) x = excess g x - excess f x.
Proof.
  intros g f x. unfold excess. rewrite <- sum_over_sub.
  apply sum_over_ext. intros a _. ring.
Qed.

(** A flow whose residual arcs all have non-negative reduced length is a
    cheapest one among the 0/1 flows with the same excess at every node. *)
Lemma flow_optimal : forall (f g pot : nat -> Z),
  (forall e, In e (arcs G) -> f e = 0 \/ f e = 1) ->
  (forall e, In e (arcs G) -> g e = 0 \/ g e = 1) ->
  (forall x, excess g x = excess f x) ->
  rcost_nonneg f pot ->
  flow_cost f <= flow_cost g.
Proof.
  intros f g pot Hf Hg Hex Hnn.
  set (rc := fun a => len a + pot (source G a) - pot (target G a)).
  assert (Hdiff : flow_cost g - flow_cost f =
                  sum_over (fun a => (g a - f a) * rc a) (arcs G)).
  { unfold flow_cost. rewrite <- sum_over_sub.
    assert (Hz : sum_over (fun a => (g a - f a) * (pot (target G a) - pot (source G a)))
                          (arcs G) = 0).
    { rewrite (potential_sum pot (fun a => g a - f a)).
      apply sum_over_zero. intros x _. rewrite excess_sub, Hex. lia. }
    rewrite <- (Z.add_0_r (sum_over (fun a => (g a - f a) * rc a) (arcs G))), <- Hz.
    rewrite <- sum_over_plus. apply sum_over_ext. intros a _. unfold rc. ring. }
  assert (0 <= sum_over (fun a => (g a - f a) * rc a) (arcs G)); [|lia].
  apply sum_over_nonneg. intros a Ha. unfold rc.
  destruct (Hf a Ha) as [E|E].
  - assert (Hr : res_arc f a (source G a) (target G a)) by (split; [exact Ha | left; auto]).
    specialize (Hnn _ _ _ Hr). unfold rcost, rlen in Hnn. rewrite E in Hnn; simpl in Hnn.
    destruct (Hg a Ha); nia.
  - assert (Hr : res_arc f a (target G a) (source G a)) by (split; [exact Ha | right; auto]).
    specialize (Hnn _ _ _ Hr). unfold rcost, rlen in Hnn. rewrite E in Hnn; simpl in Hnn.
    destruct (Hg a Ha); nia.
Qed.

(** ** Paths when the potentials increase along the arcs of the flow *)

Definition walk_nodes (u : nat) (p : list nat) : list nat := u :: map (target G) p.

Section Strict.

Variable f : nat -> Z.
Variable pot : nat -> Z.
Hypothesis pot_up : forall a, In a (arcs G) -> f a = 1 -> pot (source G a) < pot (target G a).

Lemma walk_pot_lt : forall p u v,
  is_walk u p v -> (forall a, In a p -> f a = 1) ->
  forall x, In x (map (target G) p) -> pot u < pot x.
Proof.
  intros p; induction p as [|e p IH]; intros u v Hw Hf x Hx; simpl in *; [destruct Hx|].
  destruct Hw as (He & Hs & Hw).
  assert (Hlt : pot u < pot (target G e)) by (rewrite <- Hs; apply pot_up; auto).
  destruct Hx as [<-|Hx]; [exact Hlt|].
  specialize (IH _ _ Hw (fun a Ha => Hf a (or_intror Ha)) x Hx). lia.
Qed.

Lemma walk_simple : forall p u v,
  is_walk u p v -> (forall a, In a p -> f a = 1) -> NoDup (walk_nodes u p).
Proof.
  intros p; induction p as [|e p IH]; intros u v Hw Hf; unfold walk_nodes.
  - simpl. constructor; [intros [] | constructor].
  - constructor.
    + intros Hin. pose proof (walk_pot_lt (e :: p) u v Hw Hf u Hin). lia.
    + simpl in Hw. destruct Hw as (_ & _ & Hw).
      apply (IH (target G e) v Hw). intros a Ha; apply Hf; now right.
Qed.

Lemma circulation_zero : forall (res : nat -> Z) (B : Z),
  (forall a, 0 <= res a) ->
  (forall a, res a <> 0 -> In a (arcs G) /\ f a = 1) ->
  (forall x, excess res x = 0) ->
  (forall x, In x (nodes G) -> pot x <= B) ->
  forall a, res a = 0.
Proof using G_wf pot_up.
  clear len.
  intros res B Hnn Hsupp Hex HB.
  assert (Hind : forall n a, res a <> 0 -> B - pot (target G a) < Z.of_nat n -> False).
  { intros n; induction n as [|n IH]; intros a Ha Hn.
    - destruct (Hsupp a Ha) as [Hin _].
      pose proof (HB _ (wf_target G_wf a Hin)). lia.
    - destruct (Hsupp a Ha) as [Hin Hfa].
      pose proof (pot_up a Hin Hfa) as Hup.
      assert (Hneg : excess (upd res a 0) (target G a) < 0).
      { rewrite excess_upd by exact Hin. rewrite Hex, ind_same.
        rewrite (ind_diff (source G a) (target G a)) by (intros E; rewrite E in Hup; lia).
        specialize (Hnn a). lia. }
      destruct (neg_excess_out (upd res a 0) (target G a)) as (b & Hb & Hsb & Hrb).
      + intros c. unfold upd. destruct (Nat.eqb c a); [lia | apply Hnn].
      + exact Hneg.
      + assert (Hba : b <> a) by (intros ->; rewrite upd_same in Hrb; congruence).
        rewrite upd_other in Hrb by exact Hba.
        destruct (Hsupp b Hrb) as [_ Hfb].
        pose proof (pot_up b Hb Hfb) as Hupb. rewrite Hsb in Hupb.
        apply (IH b Hrb). lia. }
  intros a. destruct (Z.eq_dec (res a) 0) as [E|E]; [exact E|].
  exfalso. apply (Hind (S (Z.to_nat (B - pot (target G a)))) a E). lia.
Qed.

End Strict.

(** ** Flow into and out of a node *)

Definition inflow (f : nat -> Z) (n : nat) : Z := sum_over f (inArcs G n).
Definition outflow (f : nat -> Z) (n : nat) : Z := sum_over f (outArcs G n).

Lemma sum_over_perm : forall (A : Type) (w : A -> Z) l l',
  Permutation l l' -> sum_over w l = sum_over w l'.
Proof.
  intros A w l l' HP; induction HP; simpl; lia.
Qed.

Lemma sum_over_filter : forall (w : nat -> Z) (c : nat -> bool) l,
  sum_over w (filter c l) = sum_over (fun a => w a * (if c a then 1 else 0)) l.
Proof.
  intros w c l; induction l as [|a l IH]; simpl; [reflexivity|].
  destruct (c a); simpl; rewrite IH; lia.
Qed.

Lemma inflow_sum : forall f n,
  inflow f n = sum_over (fun a => f a * ind (target G a) n) (arcs G).
Proof using G_wf.
  clear len.
  intros f n. unfold inflow, ind.
  rewrite <- (sum_over_filter f (fun a => Nat.eqb (target G a) n)).
  apply sum_over_perm, NoDup_Permutation.
  - apply (wf_in_nodup G_wf).
  - apply NoDup_filter, (wf_arcs_nodup G_wf).
  - intros a. rewrite (wf_in G_wf), filter_In, Nat.eqb_eq. tauto.
Qed.

Lemma outflow_sum : forall f n,
  outflow f n = sum_over (fun a => f a * ind (source G a) n) (arcs G).
Proof using G_wf.
  clear len.
  intros f n. unfold outflow, ind.
  rewrite <- (sum_over_filter f (fun a => Nat.eqb (source G a) n)).
  apply sum_over_perm, NoDup_Permutation.
  - apply (wf_out_nodup G_wf).
  - apply NoDup_filter, (wf_arcs_nodup G_wf).
  - intros a. rewrite (wf_out G_wf), filter_In, Nat.eqb_eq. tauto.
Qed.

Lemma excess_in_out : forall f n, excess f n = inflow f n - outflow f n.
Proof using G_wf.
  clear len.
  intros f n. rewrite inflow_sum, outflow_sum, <- sum_over_sub.
  unfold excess. apply sum_over_ext. intros a _. ring.
Qed.

(** ** The whole run *)

Lemma findFlow_unfold : forall fuel t k st,
  findFlow G len fuel t k st =
  match findFlow_loop G len fuel (Z.to_nat k) (findFlow_begin t st) with
  | Some (_, st') => Some (_path_num st', st')
  | None => None
  end.
Proof.
  intros fuel t k st. unfold findFlow, bind, get_st, put_st, ret.
  destruct (findFlow_loop G len fuel (Z.to_nat k) (findFlow_begin t st)) as [[[] st']|];
    reflexivity.
Qed.

Lemma run_unfold : forall fuel s t k st0,
  run G len fuel s t k st0 =
  match findFlow_loop G len fuel (Z.to_nat k) (loop_start s t st0) with
  | Some (_, st2) =>
      match findPaths G fuel st2 with
      | Some (_, st3) => Some (_path_num st3, st3)
      | None => None
      end
  | None => None
  end.
Proof.
  intros fuel s t k st0. unfold run, bind at 1 2. unfold init.
  rewrite findFlow_unfold. fold (loop_start s t st0).
  destruct (findFlow_loop G len fuel (Z.to_nat k) (loop_start s t st0)) as [[[] st2]|];
    [|reflexivity].
  unfold bind, get_st, ret.
  destruct (findPaths G fuel st2) as [[[] st3]|]; reflexivity.
Qed.

Record run_result (s t : nat) (k : Z) (st : Suurballe) : Prop := {
  rr_binary : forall e, In e (arcs G) -> _flow st e = 0 \/ _flow st e = 1;
  rr_excess : forall x, excess (_flow st) x = _path_num st * (ind x t - ind x s);
  rr_source : _source st = s;
  rr_target : _target st = t;
  rr_num : exists j, (j <= Z.to_nat k)%nat /\ _path_num st = Z.of_nat j /\
                     (j = Z.to_nat k \/ ~ reachable (_flow st) s t);
  rr_dual : (forall e, In e (arcs G) -> 0 <= len e) -> dual_feasible st;
  rr_pot : (forall e, In e (arcs G) -> 0 <= len e) ->
           forall v, In v (nodes G) -> _potential st v <= 0;
  rr_len : length (paths st) = Z.to_nat (_path_num st);
  rr_walks : Forall (fun p => is_walk s p t) (paths st);
  rr_ext : exists res, ext_inv (_flow st) (concat (paths st)) res /\
                       forall x, excess res x = 0
}.

Lemma run_spec : forall fuel s t k st0,
  In s (nodes G) -> (length (nodes G) + length (arcs G) < fuel)%nat ->
  exists st, run G len fuel s t k st0 = Some (_path_num st, st) /\ run_result s t k st.
Proof.
  intros fuel s t k st0 Hs Hfuel.
  assert (Hfn : (length (nodes G) < fuel)%nat) by lia.
  assert (Hfa : (length (arcs G) < fuel)%nat) by lia.
  pose proof (loop_start_inv s t st0 Hs) as FI0.
  destruct (findFlow_loop_spec fuel (Z.to_nat k) _ FI0 Hfn)
    as (j & st1 & st2 & Hl & Hj & Hit & IP0 & Hf & Hp & Hstop).
  pose proof (iterations_post fuel j _ _ FI0 Hfn Hit) as IP.
  assert (Hpn2 : _path_num st2 = Z.of_nat j).
  { rewrite (ip_path_num _ _ _ IP0), (ip_path_num _ _ _ IP). simpl. lia. }
  assert (Hsrc2 : _source st2 = s)
    by (rewrite (ip_source _ _ _ IP0), (ip_source _ _ _ IP); reflexivity).
  assert (Htgt2 : _target st2 = t)
    by (rewrite (ip_target _ _ _ IP0), (ip_target _ _ _ IP); reflexivity).
  destruct (findPaths_spec fuel st2 (ip_inv _ _ _ IP0)) as
    (st3 & res & Hfp & Hf3 & Hp3 & Hs3 & Ht3 & Hn3 & Hw & EI & Hex & Hlen); [lia | exact Hfa |].
  exists st3. rewrite run_unfold, Hl, Hfp. split; [reflexivity|].
  constructor.
  - rewrite Hf3. apply (fi_binary _ (ip_inv _ _ _ IP0)).
  - intros x. rewrite Hf3, Hn3, (fi_excess _ (ip_inv _ _ _ IP0) x), Hsrc2, Htgt2. reflexivity.
  - now rewrite Hs3.
  - now rewrite Ht3.
  - exists j. split; [exact Hj|]. split; [now rewrite Hn3|].
    destruct Hstop as [?|Hstop]; [now left | right].
    now rewrite Hf3, <- Hsrc2, <- Htgt2.
  - intros Hlen0. unfold dual_feasible. rewrite Hf3, Hp3.
    apply (ip_dual _ _ _ IP0), (ip_dual _ _ _ IP), loop_start_dual, Hlen0.
  - intros Hlen0 v Hv. rewrite Hp3.
    pose proof (loop_start_dual s t st0 Hlen0) as Hd0.
    pose proof (ip_pot_le _ _ _ IP Hd0 v).
    pose proof (ip_pot_le _ _ _ IP0 (ip_dual _ _ _ IP Hd0) v).
    rewrite (loop_start_potential s t st0 v Hv) in *. lia.
  - now rewrite Hn3.
  - now rewrite <- Hsrc2, <- Htgt2.
  - exists res. now rewrite Hf3.
Qed.

Lemma iterations_proc : forall fuel j st st',
  flow_inv st -> (length (nodes G) < fuel)%nat ->
  iterations G len fuel j st = Some st' ->
  ~ In (_target st) (_proc_nodes (_dijkstra st)) ->
  ~ In (_target st) (_proc_nodes (_dijkstra st')).
Proof.
  intros fuel j st st' FI Hfuel Hit H0. destruct j as [|j]; simpl in Hit.
  - inversion Hit; subst; exact H0.
  - destruct (iterations G len fuel j st) as [st1|] eqn:E1; [|discriminate].
    pose proof (iterations_post fuel j st st1 FI Hfuel E1) as IP.
    destruct (augment_spec fuel st1 (ip_inv _ _ _ IP) Hfuel) as (b & st2 & Ha & AP).
    rewrite Ha in Hit. destruct b; [|discriminate]. inversion Hit; subst.
    rewrite <- (ip_target _ _ _ IP). apply AP.
Qed.

End Engine.

(** * Properties of the specification *)

(** ** Example instances *)

(** Two nodes joined by one arc of length 1. *)
Definition G_arc : Digraph := mkDigraph 2 [(0, 1)]%nat.
Definition len_arc (e : nat) : Z := 1.

(** Nodes [s = 0], [a = 1], [b = 2], [t = 3]; arcs
    [(s,a,1) (s,b,100) (a,b,1) (a,t,100) (b,t,1)]: the second search goes
    back along the arc [(a,b)]. *)
Definition G_rev : Digraph := mkDigraph 4 [(0, 1); (0, 2); (1, 2); (1, 3); (2, 3)]%nat.
Definition len_rev (e : nat) : Z := nth e [1; 100; 1; 100; 1] 0.

(** Nodes [s = 0], [a = 1], [t = 2] and the single arc [(s,a,1)]: the target
    is not reachable. *)
Definition G_cut : Digraph := mkDigraph 3 [(0, 1)]%nat.

(** The state after [j] completed iterations from a fresh object. *)
Definition state_after (G : Digraph) (len : nat -> Z) (fuel j : nat) (s t : nat) : Suurballe :=
  match iterations (H := ListHeap.t) G len fuel j (loop_start G s t new_Suurballe) with
  | Some st => st
  | None => new_Suurballe
  end.

(** The state and the value returned by a run from a fresh object. *)
Definition run_state (G : Digraph) (len : nat -> Z) (fuel : nat) (s t : nat) (k : Z)
    : Suurballe :=
  match run (H := ListHeap.t) G len fuel s t k new_Suurballe with
  | Some (_, st) => st
  | None => new_Suurballe
  end.

(** [path_num] and [totalLength()] after a run from a fresh object. *)
Definition run_summary (G : Digraph) (len : nat -> Z) (fuel : nat) (s t : nat) (k : Z)
    : option (Z * Z) :=
  match run (H := ListHeap.t) G len fuel s t k new_Suurballe with
  | Some (n, st) => Some (n, totalLength G len st)
  | None => None
  end.

(** The scenarios listed in the specification. *)

Example scenario_parallel_arcs :
  run_summary (mkDigraph 2 [(0, 1); (0, 1)]%nat) (fun _ => 1) 10 0 1 2 = Some (2, 2).
Proof. vm_compute. reflexivity. Qed.

Example scenario_diamond :
  run_summary (mkDigraph 4 [(0, 1); (0, 2); (1, 3); (2, 3)]%nat)
              (fun e => nth e [1; 5; 1; 1] 0) 10 0 3 2 = Some (2, 8).
Proof. vm_compute. reflexivity. Qed.

Example scenario_reverse_arc :
  run_summary G_rev len_rev 10 0 3 2 = Some (2, 202) /\
  paths (run_state G_rev len_rev 10 0 3 2) = [[0; 3]; [1; 4]]%nat.
Proof. split; vm_compute; reflexivity. Qed.

Example scenario_insufficient_paths :
  run_summary (mkDigraph 4 [(0, 1); (0, 2); (1, 3); (2, 3)]%nat)
              (fun e => nth e [1; 5; 1; 1] 0) 10 0 3 3 = Some (2, 8).
Proof. vm_compute. reflexivity. Qed.

Example scenario_unreachable_target :
  run_summary G_cut len_arc 10 0 2 2 = Some (0, 0) /\
  paths (run_state G_cut len_arc 10 0 2 2) = [].
Proof. split; vm_compute; reflexivity. Qed.

Example scenario_zero_lengths :
  run_summary (mkDigraph 3 [(0, 1); (1, 2); (0, 2)]%nat) (fun _ => 0) 10 0 2 2
  = Some (2, 0).
Proof. vm_compute. reflexivity. Qed.

(** ** C8: [run] is the sequence of the three phases *)

(** C8. For every graph, source, target and [k], [run(s, t, k)] yields the
    same state and the same return value as [init(s); findFlow(t, k);
    findPaths()] followed by returning [path_num]. *)
Theorem C8_run_is_init_findFlow_findPaths :
  forall (H : Type) (HO : HeapOps H) (G : Digraph) (len : nat -> Z)
         (fuel : nat) (s t : nat) (k : Z) (st : Suurballe),
    run (H := H) G len fuel s t k st = run_sequence (H := H) G len fuel s t k st.
Proof.
  intros H HO G len fuel s t k st.
  unfold run, run_sequence, bind, get_st, ret.
  destruct (init G s st) as [[[] st1]|]; [|reflexivity].
  destruct (findFlow G len fuel t k st1) as [[n st2]|]; [|reflexivity].
  destruct (findPaths G fuel st2) as [[[] st3]|]; reflexivity.
Qed.

(** ** C9: [findPaths] leaves the flow map alone *)

(** C9. [findPaths()] does not modify the flow map: [flow(a)] is the same
    after [findPaths()] as before it, for every arc [a]. *)
Theorem C9_findPaths_preserves_flow :
  forall (G : Digraph) (fuel : nat) (st st' : Suurballe) (u : unit),
    findPaths G fuel st = Some (u, st') ->
    forall a, flow st' a = flow st a.
Proof.
  intros G fuel st st' u Hfp a. unfold findPaths, bind, get_st, lift, put_st in Hfp.
  destruct (findPaths_loop G fuel (Z.to_nat (_path_num st)) (_source st) (_target st)
              (fold_left (fun r a => upd r a (_flow st a)) (arcs G) (fun _ => 0)) [])
    as [r|]; [|discriminate].
  inversion Hfp; subst. reflexivity.
Qed.

Lemma C9_witness :
  flow (match findPaths G_rev 20 (state_after G_rev len_rev 20 2 0 3) with
        | Some (_, st') => st'
        | None => new_Suurballe
        end) 2%nat
  = flow (state_after G_rev len_rev 20 2 0 3) 2%nat.
Proof.
  apply (C9_findPaths_preserves_flow G_rev 20 (state_after G_rev len_rev 20 2 0 3) _ tt).
  vm_compute. reflexivity.
Defined.

(** ** C5: the result of the search *)

(** C5. The residual shortest-path engine returns [true] if and only if [t]
    is reachable from [s] in the residual graph of the current flow, and
    when it returns [false] the potential map is the one it was called
    with. *)
Theorem C5_search_true_iff_reachable :
  forall (H : Type) (HO : HeapOps H) (HL : HeapLaws H) (G : Digraph) (len : nat -> Z)
         (fuel : nat) (st : Suurballe),
    wf_graph G ->
    In (_s (_dijkstra st)) (nodes G) ->
    (length (nodes G) < fuel)%nat ->
    exists b st',
      ResidualDijkstra_run (H := H) G len fuel st = Some (b, st') /\
      (b = true <-> reachable G (_flow st) (_s (_dijkstra st)) (_t (_dijkstra st))) /\
      (b = false -> _potential st' = _potential st).
Proof.
  intros H HO HL G len fuel st Hwf Hs Hfuel.
  destruct (ResidualDijkstra_run_spec G Hwf len fuel st Hs Hfuel) as (b & st' & r & Hrun & RP).
  exists b, st'. split; [exact Hrun|].
  destruct (search_exit_reachable G len _ _ _ _ r (rp_inv _ _ _ _ _ _ RP)) as [Hyes Hno].
  split; [split|].
  - intros ->. destruct (rp_true _ _ _ _ _ _ RP eq_refl) as (He & Ht & _). now apply Hyes.
  - intros Hr. destruct b; [reflexivity|].
    destruct (rp_false _ _ _ _ _ _ RP eq_refl) as (He & _). now destruct (Hno He).
  - intros ->. now destruct (rp_false _ _ _ _ _ _ RP eq_refl).
Qed.

Lemma C5_witness :
  exists b st',
    ResidualDijkstra_run (H := ListHeap.t) G_cut len_arc 10
      (loop_start G_cut 0 2 new_Suurballe) = Some (b, st') /\
    (b = true <-> reachable G_cut (_flow (loop_start G_cut 0 2 new_Suurballe)) 0%nat 2%nat) /\
    (b = false -> _potential st' = _potential (loop_start G_cut 0 2 new_Suurballe)).
Proof.
  apply (C5_search_true_iff_reachable ListHeap.t _ _ G_cut len_arc 10
           (loop_start G_cut 0 2 new_Suurballe)).
  - apply mkDigraph_wf; reflexivity.
  - simpl; auto.
  - simpl; lia.
Defined.

(** ** C10: the potential of the target *)

(** C10. [findFlow] never modifies the potential of the target node: after
    [init(s)] and any number of iterations of the loop of [findFlow(t, k)],
    [potential(t) = 0], and [t] is not in the list of processed nodes. *)
Theorem C10_target_potential_is_zero :
  forall (H : Type) (HO : HeapOps H) (HL : HeapLaws H) (G : Digraph) (len : nat -> Z)
         (fuel j : nat) (s t : nat) (st0 st : Suurballe),
    wf_graph G -> In s (nodes G) -> In t (nodes G) ->
    (length (nodes G) < fuel)%nat ->
    iterations (H := H) G len fuel j (loop_start G s t st0) = Some st ->
    potential st t = 0 /\ ~ In t (_proc_nodes (_dijkstra st)).
Proof.
  intros H HO HL G len fuel j s t st0 st Hwf Hs Ht Hfuel Hit.
  pose proof (loop_start_inv G s t st0 Hs) as FI0.
  pose proof (iterations_post G Hwf len fuel j _ _ FI0 Hfuel Hit) as IP.
  split.
  - unfold potential. pose proof (ip_pot_t _ _ _ _ _ IP) as Hp. simpl in Hp.
    rewrite Hp. apply (fold_upd_const_in (nodes G) 0 _ t Ht).
  - apply (iterations_proc G Hwf len fuel j _ _ FI0 Hfuel Hit). simpl. tauto.
Qed.

Lemma C10_witness :
  potential (state_after G_rev len_rev 20 2 0 3) 3%nat = 0 /\
  ~ In 3%nat (_proc_nodes (_dijkstra (state_after G_rev len_rev 20 2 0 3))).
Proof.
  apply (C10_target_potential_is_zero ListHeap.t _ _ G_rev len_rev 20 2 0%nat 3%nat
           new_Suurballe).
  - apply mkDigraph_wf; reflexivity.
  - simpl; auto.
  - simpl; auto 6.
  - simpl; lia.
  - vm_compute. reflexivity.
Defined.

(** ** C2: reduced lengths after every iteration *)

(** C2. For every arc [a = (u, v)], after each completed iteration of the
    loop of [findFlow]: if [f(a) = 0] then [len(a) + pi(u) - pi(v) >= 0], and if
    [f(a) = 1] then [pi(v) - pi(u) >= len(a)].  The lengths are non-negative. *)
Theorem C2_reduced_lengths_after_iteration :
  forall (H : Type) (HO : HeapOps H) (HL : HeapLaws H) (G : Digraph) (len : nat -> Z)
         (fuel j : nat) (s t : nat) (st0 st : Suurballe) (a : nat),
    wf_graph G ->
    (forall e, In e (arcs G) -> 0 <= len e) ->
    In s (nodes G) ->
    (length (nodes G) < fuel)%nat ->
    iterations (H := H) G len fuel j (loop_start G s t st0) = Some st ->
    In a (arcs G) ->
    (flow st a = 0 ->
     0 <= len a + potential st (source G a) - potential st (target G a)) /\
    (flow st a = 1 ->
     len a <= potential st (target G a) - potential st (source G a)).
Proof.
  intros H HO HL G len fuel j s t st0 st a Hwf Hlen Hs Hfuel Hit Ha.
  pose proof (loop_start_inv G s t st0 Hs) as FI0.
  pose proof (iterations_post G Hwf len fuel j _ _ FI0 Hfuel Hit) as IP.
  pose proof (ip_dual _ _ _ _ _ IP (loop_start_dual G Hwf len s t st0 Hlen)) as Hd.
  unfold flow, potential. split; intros Hf.
  - assert (Hr : res_arc G (_flow st) a (source G a) (target G a))
      by (split; [exact Ha | left; auto]).
    specialize (Hd _ _ _ Hr). unfold rcost, rlen in Hd. rewrite Hf in Hd. simpl in Hd. lia.
  - assert (Hr : res_arc G (_flow st) a (target G a) (source G a))
      by (split; [exact Ha | right; auto]).
    specialize (Hd _ _ _ Hr). unfold rcost, rlen in Hd. rewrite Hf in Hd. simpl in Hd. lia.
Qed.

Lemma C2_witness :
  (flow (state_after G_rev len_rev 20 2 0 3) 2%nat = 0 ->
   0 <= len_rev 2 + potential (state_after G_rev len_rev 20 2 0 3) (source G_rev 2)
        - potential (state_after G_rev len_rev 20 2 0 3) (target G_rev 2)) /\
  (flow (state_after G_rev len_rev 20 2 0 3) 2%nat = 1 ->
   len_rev 2 <= potential (state_after G_rev len_rev 20 2 0 3) (target G_rev 2)
                - potential (state_after G_rev len_rev 20 2 0 3) (source G_rev 2)).
Proof.
  apply (C2_reduced_lengths_after_iteration ListHeap.t _ _ G_rev len_rev 20 2 0%nat 3%nat
           new_Suurballe).
  - apply mkDigraph_wf; reflexivity.
  - intros e He; simpl in He.
    repeat (destruct He as [<-|He]; [vm_compute; discriminate|]). destruct He.
  - simpl; auto.
  - simpl; lia.
  - vm_compute. reflexivity.
  - simpl; auto.
Defined.

(** ** C7: the potentials over the iterations *)

(** The claim as the specification states it: no potential ever decreases
    from one completed iteration to the next. *)
Definition potentials_never_decrease {H : Type} {HO : HeapOps H}
    (G : Digraph) (len : nat -> Z) (fuel : nat) (s t : nat) (st0 : Suurballe) : Prop :=
  forall j st st',
    iterations (H := H) G len fuel j (loop_start G s t st0) = Some st ->
    iterations (H := H) G len fuel (S j) (loop_start G s t st0) = Some st' ->
    forall v, potential st v <= potential st' v.

(** On the digraph with the single arc [(0,1)] of length 1 the first
    iteration takes the potential of the source from [0] to [-1]. *)
Lemma C7_counterexample :
  ~ potentials_never_decrease (H := ListHeap.t) G_arc len_arc 10 0 1 new_Suurballe.
Proof.
  intros Hclaim.
  specialize (Hclaim 0%nat (state_after G_arc len_arc 10 0 0 1)
                     (state_after G_arc len_arc 10 1 0 1) eq_refl).
  assert (Hle : potential (state_after G_arc len_arc 10 0 0 1) 0%nat
                <= potential (state_after G_arc len_arc 10 1 0 1) 0%nat).
  { apply Hclaim. vm_compute. reflexivity. }
  vm_compute in Hle. apply Hle. reflexivity.
Qed.

(** C7 (amended). The potential map is set to [0] on every node by [init]
    and, the lengths being non-negative, no potential ever increases from
    one completed iteration of [findFlow] to the next. *)
Theorem C7_potentials_never_increase :
  forall (H : Type) (HO : HeapOps H) (HL : HeapLaws H) (G : Digraph) (len : nat -> Z)
         (fuel j : nat) (s t : nat) (st0 st st' : Suurballe) (v : nat),
    wf_graph G ->
    (forall e, In e (arcs G) -> 0 <= len e) ->
    In s (nodes G) ->
    (length (nodes G) < fuel)%nat ->
    iterations (H := H) G len fuel j (loop_start G s t st0) = Some st ->
    iterations (H := H) G len fuel (S j) (loop_start G s t st0) = Some st' ->
    (In v (nodes G) -> potential (init_maps G s st0) v = 0) /\
    potential st' v <= potential st v.
Proof.
  intros H HO HL G len fuel j s t st0 st st' v Hwf Hlen Hs Hfuel Hit Hit'.
  split.
  - intros Hv. unfold potential; simpl. now apply fold_upd_const_in.
  - pose proof (loop_start_inv G s t st0 Hs) as FI0.
    pose proof (iterations_post G Hwf len fuel j _ _ FI0 Hfuel Hit) as IP.
    pose proof (ip_dual _ _ _ _ _ IP (loop_start_dual G Hwf len s t st0 Hlen)) as Hd.
    simpl in Hit'. rewrite Hit in Hit'.
    destruct (augment_spec G Hwf len fuel st (ip_inv _ _ _ _ _ IP) Hfuel)
      as (b & st2 & Ha & AP).
    rewrite Ha in Hit'. destruct b; [|discriminate]. inversion Hit'; subst.
    apply (ap_pot_le _ _ _ _ _ AP Hd).
Qed.

Lemma C7_witness :
  (In 0%nat (nodes G_rev) -> potential (init_maps G_rev 0 new_Suurballe) 0%nat = 0) /\
  potential (state_after G_rev len_rev 20 2 0 3) 0%nat
  <= potential (state_after G_rev len_rev 20 1 0 3) 0%nat.
Proof.
  apply (C7_potentials_never_increase ListHeap.t _ _ G_rev len_rev 20 1 0%nat 3%nat
           new_Suurballe).
  - apply mkDigraph_wf; reflexivity.
  - intros e He; simpl in He.
    repeat (destruct He as [<-|He]; [vm_compute; discriminate|]). destruct He.
  - simpl; auto.
  - simpl; lia.
  - vm_compute. reflexivity.
  - vm_compute. reflexivity.
Defined.

(** ** C4: the flow is a 0/1 flow of value [path_num] *)

(** The claim as the specification states it. *)
Definition flow_claim (G : Digraph) (s t : nat) (st : Suurballe) : Prop :=
  (forall a, In a (arcs G) -> flow st a = 0 \/ flow st a = 1) /\
  (forall n, n <> s -> n <> t -> inflow G (flow st) n = outflow G (flow st) n) /\
  outflow G (flow st) s - inflow G (flow st) s
  = inflow G (flow st) t - outflow G (flow st) t /\
  inflow G (flow st) t - outflow G (flow st) t = pathNum st.

(** With [s = t] the search succeeds at once: one iteration leaves the flow
    at zero and counts one path. *)
Lemma C4_counterexample :
  iterations (H := ListHeap.t) G_arc len_arc 10 1 (loop_start G_arc 0 0 new_Suurballe)
  = Some (state_after G_arc len_arc 10 1 0 0) /\
  ~ flow_claim G_arc 0 0 (state_after G_arc len_arc 10 1 0 0).
Proof.
  split; [vm_compute; reflexivity|].
  intros (_ & _ & _ & Hnet). vm_compute in Hnet. discriminate.
Qed.

(** C4 (amended). When [s] and [t] are different nodes, after any number of
    completed iterations of the loop of [findFlow]: [f(a)] is [0] or [1] for
    every arc; at every node other than [s] and [t] the flow into the node
    equals the flow out of it; the net flow out of [s] and the net flow into
    [t] both equal [path_num], the number of iterations. *)
Theorem C4_flow_conservation :
  forall (H : Type) (HO : HeapOps H) (HL : HeapLaws H) (G : Digraph) (len : nat -> Z)
         (fuel j : nat) (s t : nat) (st0 st : Suurballe),
    wf_graph G ->
    In s (nodes G) ->
    s <> t ->
    (length (nodes G) < fuel)%nat ->
    iterations (H := H) G len fuel j (loop_start G s t st0) = Some st ->
    flow_claim G s t st /\ pathNum st = Z.of_nat j.
Proof.
  intros H HO HL G len fuel j s t st0 st Hwf Hs Hst Hfuel Hit.
  pose proof (loop_start_inv G s t st0 Hs) as FI0.
  pose proof (iterations_post G Hwf len fuel j _ _ FI0 Hfuel Hit) as IP.
  pose proof (ip_inv _ _ _ _ _ IP) as FI.
  assert (Hex : forall x, inflow G (_flow st) x - outflow G (_flow st) x
                          = _path_num st * (ind x t - ind x s)).
  { intros x. rewrite <- (excess_in_out G Hwf), (fi_excess _ _ FI x).
    rewrite (ip_target _ _ _ _ _ IP), (ip_source _ _ _ _ _ IP). reflexivity. }
  unfold flow_claim, pathNum. change (flow st) with (_flow st). repeat split.
  - apply FI.
  - intros n Hns Hnt. specialize (Hex n).
    rewrite (ind_diff n t Hnt), (ind_diff n s Hns) in Hex. lia.
  - pose proof (Hex s) as Hxs. pose proof (Hex t) as Hxt.
    rewrite ind_same in Hxs, Hxt.
    rewrite (ind_diff s t Hst) in Hxs. rewrite (ind_diff t s) in Hxt by congruence. lia.
  - pose proof (Hex t) as Hxt. rewrite ind_same, (ind_diff t s) in Hxt by congruence. lia.
  - rewrite (ip_path_num _ _ _ _ _ IP). simpl. lia.
Qed.

Lemma C4_witness :
  flow_claim G_rev 0 3 (state_after G_rev len_rev 20 2 0 3) /\
  pathNum (state_after G_rev len_rev 20 2 0 3) = Z.of_nat 2.
Proof.
  apply (C4_flow_conservation ListHeap.t _ _ G_rev len_rev 20 2 0%nat 3%nat new_Suurballe).
  - apply mkDigraph_wf; reflexivity.
  - simpl; auto.
  - discriminate.
  - simpl; lia.
  - vm_compute. reflexivity.
Defined.

(** ** C6: source and target coincide *)

(** With [s = t = 0] and [k = 1] the run reports one path. *)
Lemma C6_counterexample :
  run (H := ListHeap.t) G_arc len_arc 10 0 0 1 new_Suurballe
  = Some (1, run_state G_arc len_arc 10 0 0 1) /\
  pathNum (run_state G_arc len_arc 10 0 0 1) <> 0.
Proof.
  split; [vm_compute; reflexivity | vm_compute; discriminate].
Qed.

(** C6 (amended). For every graph and every [k >= 0], [run(s, t, k)] with
    [s = t] yields [path_num = k]: each search ends at once with [t] on top
    of the heap. *)
Theorem C6_same_source_and_target :
  forall (H : Type) (HO : HeapOps H) (HL : HeapLaws H) (G : Digraph) (len : nat -> Z)
         (fuel : nat) (s : nat) (k : Z) (st0 : Suurballe),
    wf_graph G ->
    In s (nodes G) ->
    0 <= k ->
    (length (nodes G) + length (arcs G) < fuel)%nat ->
    exists st, run (H := H) G len fuel s s k st0 = Some (k, st) /\ pathNum st = k.
Proof.
  intros H HO HL G len fuel s k st0 Hwf Hs Hk Hfuel.
  destruct (run_spec G Hwf len fuel s s k st0 Hs Hfuel) as (st & Hrun & RR).
  destruct (rr_num _ _ _ _ _ _ RR) as (j & Hj & Hpn & [Hjk|Hnr]).
  - assert (Hpk : _path_num st = k) by (rewrite Hpn, Hjk; apply Z2Nat.id; exact Hk).
    exists st. rewrite Hrun, Hpk. split; [reflexivity | exact Hpk].
  - exfalso. apply Hnr. constructor.
Qed.

Lemma C6_witness :
  exists st, run (H := ListHeap.t) G_rev len_rev 20 0 0 3 new_Suurballe = Some (3, st) /\
             pathNum st = 3.
Proof.
  apply (C6_same_source_and_target ListHeap.t _ _ G_rev len_rev 20 0%nat 3 new_Suurballe).
  - apply mkDigraph_wf; reflexivity.
  - simpl; auto.
  - lia.
  - simpl; lia.
Defined.

(** ** C3: the paths found by [findPaths] *)

(** The claim as the specification states it: the arcs of the paths, taken
    together, are the arcs with [f(a) = 1], each once (so the paths are
    pairwise arc-disjoint); every path is simple; every path leads from [s]
    to [t]. *)
Definition decomposition_claim (G : Digraph) (s t : nat) (st : Suurballe) : Prop :=
  NoDup (concat (paths st)) /\
  (forall a, In a (concat (paths st)) <-> In a (arcs G) /\ flow st a = 1) /\
  Forall (fun p => NoDup (walk_nodes G s p)) (paths st) /\
  Forall (fun p => is_walk G s p t) (paths st).

(** Nodes [s = 0], [y = 1], [x = 2], [t = 3]; arcs
    [(s,y,0) (y,x,0) (x,y,0) (x,t,0) (s,x,1) (y,t,1)].  The two searches find
    [s y x t] and [s x y t]; the flow then contains the cycle [x y x] of
    length 0. *)
Definition G_cyc : Digraph := mkDigraph 4 [(0, 1); (1, 2); (2, 1); (2, 3); (0, 2); (1, 3)]%nat.
Definition G_cyc_rev : Digraph :=
  mkDigraphRev 4 [(0, 1); (1, 2); (2, 1); (2, 3); (0, 2); (1, 3)]%nat.
Definition len_cyc (e : nat) : Z := nth e [0; 0; 0; 0; 1; 1] 0.

(** The first path found is [s y x y t], which passes through [y] twice. *)
Lemma C3_counterexample :
  run (H := ListHeap.t) G_cyc len_cyc 20 0 3 2 new_Suurballe
  = Some (2, run_state G_cyc len_cyc 20 0 3 2) /\
  ~ decomposition_claim G_cyc 0 3 (run_state G_cyc len_cyc 20 0 3 2).
Proof.
  split; [vm_compute; reflexivity|].
  intros (_ & _ & Hsimple & _).
  assert (Hp : paths (run_state G_cyc len_cyc 20 0 3 2) = [[0; 1; 2; 5]; [4; 3]]%nat)
    by (vm_compute; reflexivity).
  rewrite Hp in Hsimple. inversion Hsimple as [|p ps Hnd _]; subst.
  vm_compute in Hnd.
  inversion Hnd as [|? ? _ Hnd1]; subst.
  inversion Hnd1 as [|? ? Hin _]; subst.
  apply Hin. simpl. auto.
Qed.

(** With the incidence lists in the opposite order the two paths are
    [s x t] and [s y t], and the arcs of the cycle are in no path. *)
Lemma cycle_left_out_of_the_paths :
  paths (match run (H := ListHeap.t) G_cyc_rev len_cyc 20 0 3 2 new_Suurballe with
         | Some (_, st) => st
         | None => new_Suurballe
         end) = [[4; 3]; [0; 5]]%nat /\
  flow (match run (H := ListHeap.t) G_cyc_rev len_cyc 20 0 3 2 new_Suurballe with
        | Some (_, st) => st
        | None => new_Suurballe
        end) 1%nat = 1.
Proof. split; vm_compute; reflexivity. Qed.

(** No closed walk other than the empty one consists of arcs of length [0]
    only. *)
Definition zero_cycle_free (G : Digraph) (len : nat -> Z) : Prop :=
  forall u p, is_walk G u p u -> (forall a, In a p -> len a = 0) -> p = [].

(** Positive lengths, and a numbering of the nodes that increases along the
    arcs of length [0], are two ways to have this. *)
Lemma positive_cycle_free : forall (G : Digraph) (len : nat -> Z),
  (forall e, In e (arcs G) -> 0 < len e) -> zero_cycle_free G len.
Proof.
  intros G len Hpos u p Hw Hz. destruct p as [|e p]; [reflexivity|].
  destruct Hw as (He & _). specialize (Hpos e He).
  rewrite (Hz e) in Hpos by (now left). lia.
Qed.

Lemma rank_cycle_free : forall (G : Digraph) (len : nat -> Z) (rank : nat -> Z),
  (forall a, In a (arcs G) -> len a = 0 -> rank (source G a) < rank (target G a)) ->
  zero_cycle_free G len.
Proof.
  intros G len rank Hup.
  assert (Hlt : forall p u v, is_walk G u p v -> (forall a, In a p -> len a = 0) ->
                              p <> [] -> rank u < rank v).
  { intros p; induction p as [|e p IH]; intros u v Hw Hz Hne; [congruence|].
    destruct Hw as (He & Hs & Hw).
    pose proof (Hup e He (Hz e (or_introl eq_refl))) as Hstep. rewrite Hs in Hstep.
    destruct p as [|e' p]; [simpl in Hw; subst v; exact Hstep|].
    assert (rank (target G e) < rank v); [|lia].
    apply IH; [exact Hw | intros a Ha; apply Hz; now right | discriminate]. }
  intros u p Hw Hz. destruct p as [|e p]; [reflexivity|].
  assert (rank u < rank u) by (apply (Hlt (e :: p)); [exact Hw | exact Hz | discriminate]).
  lia.
Qed.

Section ZeroCycles.

Variable G : Digraph.
Hypothesis G_wf : wf_graph G.
Variable len : nat -> Z.
Hypothesis len_nonneg : forall e, In e (arcs G) -> 0 <= len e.
Hypothesis len_free : zero_cycle_free G len.
Variable f : nat -> Z.
Variable pot : nat -> Z.
Hypothesis f_dual : rcost_nonneg G len f pot.

Lemma is_walk_arcs : forall p u v a, is_walk G u p v -> In a p -> In a (arcs G).
Proof using Type.
  intros p; induction p as [|e p IH]; intros u v a Hw Ha; [destruct Ha|].
  destruct Hw as (He & _ & Hw). destruct Ha as [<-|Ha]; [exact He | exact (IH _ _ _ Hw Ha)].
Qed.

(** Along an arc with flow the potential grows by the length of the arc at
    least. *)
Lemma flow_arc_pot : forall a,
  In a (arcs G) -> f a = 1 -> pot (source G a) + len a <= pot (target G a).
Proof using f_dual.
  intros a Ha Hf.
  assert (Hr : res_arc G f a (target G a) (source G a))
    by (split; [exact Ha | right; auto]).
  pose proof (f_dual _ _ _ Hr) as Hc.
  unfold rcost, rlen in Hc. rewrite Hf in Hc. simpl in Hc. lia.
Qed.

Lemma walk_pot_sum : forall p u v,
  is_walk G u p v -> (forall a, In a p -> f a = 1) -> pot u + sum_over len p <= pot v.
Proof using f_dual.
  intros p; induction p as [|e p IH]; intros u v Hw Hf; simpl in *; [subst; lia|].
  destruct Hw as (He & Hs & Hw).
  pose proof (flow_arc_pot e He (Hf e (or_introl eq_refl))) as Hstep. rewrite Hs in Hstep.
  specialize (IH _ _ Hw (fun a Ha => Hf a (or_intror Ha))). lia.
Qed.

Lemma sum_over_all_zero : forall (w : nat -> Z) l,
  (forall a, In a l -> 0 <= w a) -> sum_over w l <= 0 -> forall a, In a l -> w a = 0.
Proof using Type.
  intros w l; induction l as [|e l IH]; intros Hnn Hle a Ha; [destruct Ha|].
  simpl in Hle.
  pose proof (Hnn e (or_introl eq_refl)) as He.
  pose proof (sum_over_nonneg _ w l (fun b Hb => Hnn b (or_intror Hb))) as Hl.
  destruct Ha as [<-|Ha]; [lia|].
  apply IH; [intros b Hb; apply Hnn; now right | lia | exact Ha].
Qed.

(** The arcs with flow contain no cycle. *)
Lemma flow_acyclic : forall u p,
  is_walk G u p u -> (forall a, In a p -> f a = 1) -> p = [].
Proof using f_dual len_free len_nonneg.
  intros u p Hw Hf. apply (len_free u p Hw).
  apply sum_over_all_zero.
  - intros a Ha. apply len_nonneg. exact (is_walk_arcs _ _ _ _ Hw Ha).
  - pose proof (walk_pot_sum p u u Hw Hf). lia.
Qed.

Lemma is_walk_split : forall p u v x,
  is_walk G u p v -> In x (map (target G) p) ->
  exists q r, p = q ++ r /\ q <> [] /\ is_walk G u q x.
Proof using Type.
  intros p; induction p as [|e p IH]; intros u v x Hw Hx; [destruct Hx|].
  destruct Hw as (He & Hs & Hw). simpl in Hx.
  destruct (Nat.eq_dec (target G e) x) as [E|E].
  - exists [e], p. split; [reflexivity|]. split; [discriminate|]. simpl. auto.
  - destruct Hx as [Hx|Hx]; [contradiction|].
    destruct (IH _ _ _ Hw Hx) as (q & r & -> & _ & Hq).
    exists (e :: q), r. split; [reflexivity|]. split; [discriminate|]. simpl. auto.
Qed.

(** A walk over arcs with flow passes through no node twice. *)
Lemma flow_walk_simple : forall p u v,
  is_walk G u p v -> (forall a, In a p -> f a = 1) -> NoDup (walk_nodes G u p).
Proof using f_dual len_free len_nonneg.
  intros p; induction p as [|e p IH]; intros u v Hw Hf; unfold walk_nodes.
  - simpl. constructor; [intros [] | constructor].
  - constructor.
    + intros Hin. destruct (is_walk_split _ _ _ _ Hw Hin) as (q & r & E & Hne & Hq).
      apply Hne. apply (flow_acyclic u q Hq).
      intros a Ha. apply Hf. rewrite E. apply in_or_app. now left.
    + destruct Hw as (_ & _ & Hw).
      apply (IH (target G e) v Hw). intros a Ha; apply Hf; now right.
Qed.

(** A circulation on the arcs with flow is zero. *)
Lemma circulation_acyclic : forall (res : nat -> Z),
  (forall a, 0 <= res a) ->
  (forall a, res a <> 0 -> In a (arcs G) /\ f a = 1) ->
  (forall x, excess G res x = 0) ->
  forall a, res a = 0.
Proof using G_wf f_dual len_free len_nonneg.
  intros res Hnn Hsupp Hex.
  assert (Hnext : forall a, res a <> 0 ->
                  exists b, In b (arcs G) /\ source G b = target G a /\ res b <> 0).
  { intros a Ha. destruct (Hsupp a Ha) as [Hin Hfa].
    assert (Hst : source G a <> target G a).
    { intros E.
      assert (Hloop : is_walk G (source G a) [a] (source G a)) by (simpl; auto).
      assert (Hnil : [a] = []); [|discriminate].
      apply (flow_acyclic _ _ Hloop). intros b [<-|[]]. exact Hfa. }
    assert (Hneg : excess G (upd res a 0) (target G a) < 0).
    { rewrite (excess_upd G G_wf) by exact Hin.
      rewrite Hex, ind_same, (ind_diff _ _ Hst). specialize (Hnn a). lia. }
    destruct (neg_excess_out G (upd res a 0) (target G a)) as (b & Hb & Hsb & Hrb).
    - intros c. unfold upd. destruct (Nat.eqb c a); [lia | apply Hnn].
    - exact Hneg.
    - assert (Hba : b <> a) by (intros ->; rewrite upd_same in Hrb; congruence).
      rewrite upd_other in Hrb by exact Hba. exists b. auto. }
  assert (Hlong : forall n a, res a <> 0 ->
                  exists p v, length p = n /\ is_walk G (target G a) p v /\
                              forall b, In b p -> res b <> 0).
  { intros n; induction n as [|n IH]; intros a Ha.
    - exists [], (target G a). split; [reflexivity|]. split; [reflexivity|]. intros b [].
    - destruct (Hnext a Ha) as (b & Hb & Hsb & Hrb).
      destruct (IH b Hrb) as (p & v & Hl & Hw & Hp).
      exists (b :: p), v. split; [simpl; now rewrite Hl|].
      split; [simpl; auto|]. intros c [<-|Hc]; [exact Hrb | now apply Hp]. }
  intros a. destruct (Z.eq_dec (res a) 0) as [E|E]; [exact E|]. exfalso.
  destruct (Hsupp a E) as [Hin _].
  destruct (Hlong (length (nodes G)) a E) as (p & v & Hl & Hw & Hp).
  assert (Hnd : NoDup (walk_nodes G (target G a) p)).
  { apply (flow_walk_simple p _ v Hw). intros b Hb. apply (Hsupp b (Hp b Hb)). }
  assert (Hincl : incl (walk_nodes G (target G a) p) (nodes G)).
  { intros x [<-|Hx]; [apply (wf_target G_wf a Hin)|].
    apply in_map_iff in Hx. destruct Hx as (b & <- & Hb).
    apply (wf_target G_wf b). exact (is_walk_arcs _ _ _ _ Hw Hb). }
  pose proof (NoDup_incl_length Hnd Hincl) as Hlen.
  unfold walk_nodes in Hlen. simpl in Hlen. rewrite length_map in Hlen. lia.
Qed.

End ZeroCycles.

(** The scenario of the specification with zero lengths: nodes
    [s = 0], [a = 1], [t = 2] and the arcs [(s,a,0) (a,t,0) (s,t,0)]. *)
Definition G_zero : Digraph := mkDigraph 3 [(0, 1); (1, 2); (0, 2)]%nat.
Definition len_zero (e : nat) : Z := 0.

(** C3 (amended). After [run] (non-negative lengths): there are [path_num]
    paths, no arc occurs twice in them (they are pairwise arc-disjoint),
    every arc of a path has [f(a) = 1], and every path leads from [s] to
    [t].  When the arcs of length [0] contain no cycle (in particular when
    all lengths are positive), the arcs of the paths are exactly the arcs
    with [f(a) = 1] and every path is simple. *)
Theorem C3_paths_of_the_flow :
  forall (H : Type) (HO : HeapOps H) (HL : HeapLaws H) (G : Digraph) (len : nat -> Z)
         (fuel : nat) (s t : nat) (k : Z) (st0 : Suurballe),
    wf_graph G ->
    (forall e, In e (arcs G) -> 0 <= len e) ->
    In s (nodes G) ->
    (length (nodes G) + length (arcs G) < fuel)%nat ->
    exists st,
      run (H := H) G len fuel s t k st0 = Some (pathNum st, st) /\
      length (paths st) = Z.to_nat (pathNum st) /\
      NoDup (concat (paths st)) /\
      (forall a, In a (concat (paths st)) -> In a (arcs G) /\ flow st a = 1) /\
      Forall (fun p => is_walk G s p t) (paths st) /\
      (zero_cycle_free G len -> decomposition_claim G s t st) /\
      ((forall e, In e (arcs G) -> 0 < len e) -> decomposition_claim G s t st).
Proof.
  intros H HO HL G len fuel s t k st0 Hwf Hlen Hs Hfuel.
  destruct (run_spec G Hwf len fuel s t k st0 Hs Hfuel) as (st & Hrun & RR).
  destruct (rr_ext _ _ _ _ _ _ RR) as (res & EI & Hex0).
  pose proof (rr_binary _ _ _ _ _ _ RR) as Hbin.
  pose proof (rr_dual _ _ _ _ _ _ RR Hlen) as Hd.
  exists st. split; [exact Hrun|].
  split; [apply RR|]. split; [apply EI|].
  split; [intros a Ha; now apply (ei_used _ _ _ _ EI)|].
  split; [apply RR|].
  assert (Hmain : zero_cycle_free G len -> decomposition_claim G s t st).
  { intros Hfree.
    assert (Hzero : forall a, res a = 0).
    { apply (circulation_acyclic G Hwf len Hlen Hfree (_flow st) (_potential st) Hd res).
      - apply (ext_inv_nonneg G (_flow st) Hbin _ _ EI).
      - intros a Ha.
        destruct (ext_inv_pick G (_flow st) Hbin _ _ a EI Ha) as (_ & ? & ? & _). auto.
      - exact Hex0. }
    split; [apply EI|]. split; [|split; [|apply RR]].
    - intros a; split; [intros Ha; now apply (ei_used _ _ _ _ EI)|].
      intros [Ha Hf]. pose proof (ei_res _ _ _ _ EI a) as Hr. rewrite Hzero in Hr.
      destruct (in_dec Nat.eq_dec a (concat (paths st))) as [Hin|_]; [exact Hin|].
      destruct (in_dec Nat.eq_dec a (arcs G)) as [_|Hn]; [|tauto].
      unfold flow in Hf. lia.
    - pose proof (rr_walks _ _ _ _ _ _ RR) as Hw.
      rewrite Forall_forall in *. intros p Hp.
      apply (flow_walk_simple G len Hlen Hfree (_flow st) (_potential st) Hd p s t (Hw p Hp)).
      intros a Ha. apply (ei_used _ _ _ _ EI). apply in_concat. exists p; auto. }
  split; [exact Hmain|].
  intros Hpos. apply Hmain. now apply positive_cycle_free.
Qed.

Lemma C3_witness :
  zero_cycle_free G_zero len_zero /\
  exists st,
    run (H := ListHeap.t) G_zero len_zero 20 0 2 2 new_Suurballe = Some (pathNum st, st) /\
    length (paths st) = Z.to_nat (pathNum st) /\
    NoDup (concat (paths st)) /\
    (forall a, In a (concat (paths st)) -> In a (arcs G_zero) /\ flow st a = 1) /\
    Forall (fun p => is_walk G_zero 0 p 2) (paths st) /\
    (zero_cycle_free G_zero len_zero -> decomposition_claim G_zero 0 2 st) /\
    ((forall e, In e (arcs G_zero) -> 0 < len_zero e) -> decomposition_claim G_zero 0 2 st).
Proof.
  split.
  - apply (rank_cycle_free G_zero len_zero Z.of_nat).
    intros a Ha _. simpl in Ha.
    repeat (destruct Ha as [<-|Ha]; [vm_compute; reflexivity|]). destruct Ha.
  - apply (C3_paths_of_the_flow ListHeap.t _ _ G_zero len_zero 20 0%nat 2%nat 2
             new_Suurballe).
    + apply mkDigraph_wf; reflexivity.
    + intros e He; simpl in He.
      repeat (destruct He as [<-|He]; [vm_compute; discriminate|]). destruct He.
    + simpl; auto.
    + simpl; lia.
Defined.

(** ** C1: the total length *)

(** Paths from [s] to [t] no two of which share an arc (and none of which
    uses an arc twice). *)
Definition arc_disjoint_paths (G : Digraph) (s t : nat) (ps : list (list nat)) : Prop :=
  Forall (fun p => is_walk G s p t) ps /\ NoDup (concat ps).

(** C1. After [run(s, t, k)] (non-negative lengths), [totalLength()] is the
    sum of [f(a) * len(a)] over all arcs, it equals the sum of the lengths of
    the returned paths, and no set of [path_num] arc-disjoint paths from [s]
    to [t] has a smaller total length. *)
Theorem C1_total_length_is_minimum :
  forall (H : Type) (HO : HeapOps H) (HL : HeapLaws H) (G : Digraph) (len : nat -> Z)
         (fuel : nat) (s t : nat) (k : Z) (st0 : Suurballe),
    wf_graph G ->
    (forall e, In e (arcs G) -> 0 <= len e) ->
    In s (nodes G) ->
    (length (nodes G) + length (arcs G) < fuel)%nat ->
    exists st,
      run (H := H) G len fuel s t k st0 = Some (pathNum st, st) /\
      totalLength G len st = sum_over (fun a => flow st a * len a) (arcs G) /\
      totalLength G len st = total_path_length len (paths st) /\
      length (paths st) = Z.to_nat (pathNum st) /\
      arc_disjoint_paths G s t (paths st) /\
      forall qs, length qs = Z.to_nat (pathNum st) ->
                 arc_disjoint_paths G s t qs ->
                 totalLength G len st <= total_path_length len qs.
Proof.
  intros H HO HL G len fuel s t k st0 Hwf Hlen Hs Hfuel.
  destruct (run_spec G Hwf len fuel s t k st0 Hs Hfuel) as (st & Hrun & RR).
  destruct (rr_ext _ _ _ _ _ _ RR) as (res & EI & Hex0).
  pose proof (rr_binary _ _ _ _ _ _ RR) as Hbin.
  pose proof (rr_dual _ _ _ _ _ _ RR Hlen) as Hd.
  assert (Hpn : Z.of_nat (Z.to_nat (_path_num st)) = _path_num st).
  { destruct (rr_num _ _ _ _ _ _ RR) as (j & _ & Hj & _). rewrite Hj. lia. }
  assert (Hcost : forall qs, arc_disjoint_paths G s t qs ->
                  total_path_length len qs = flow_cost G len (indicator (concat qs))).
  { intros qs [Hw Hnd]. rewrite total_path_length_concat. unfold flow_cost.
    symmetry. apply (sum_indicator G Hwf len (concat qs) Hnd (walks_in_arcs G s t qs Hw)). }
  assert (Hopt : forall qs, length qs = Z.to_nat (_path_num st) ->
                 arc_disjoint_paths G s t qs ->
                 flow_cost G len (_flow st) <= total_path_length len qs).
  { intros qs Hl Hqs. rewrite (Hcost qs Hqs). destruct Hqs as [Hw Hnd].
    apply (flow_optimal G Hwf len (_flow st) (indicator (concat qs)) (_potential st)).
    - exact Hbin.
    - intros e _. unfold indicator. destruct (in_dec Nat.eq_dec e (concat qs)); auto.
    - intros x. rewrite (paths_excess G Hwf s t qs x Hw Hnd), Hl, Hpn.
      symmetry. apply RR.
    - exact Hd. }
  assert (Hown : arc_disjoint_paths G s t (paths st)) by (split; [apply RR | apply EI]).
  exists st. split; [exact Hrun|].
  split; [apply totalLength_flow_cost|].
  rewrite totalLength_flow_cost.
  split; [|split; [apply RR | split; [exact Hown | exact Hopt]]].
  apply Z.le_antisymm.
  - apply Hopt; [apply RR | exact Hown].
  - rewrite (Hcost _ Hown). unfold flow_cost. apply sum_over_le. intros a Ha.
    unfold indicator. destruct (in_dec Nat.eq_dec a (concat (paths st))) as [Hin|_].
    + destruct (ei_used _ _ _ _ EI a Hin) as [_ Hf]. rewrite Hf. lia.
    + specialize (Hlen a Ha). destruct (Hbin a Ha) as [E|E]; rewrite E; lia.
Qed.

Lemma C1_witness :
  exists st,
    run (H := ListHeap.t) G_rev len_rev 20 0 3 2 new_Suurballe = Some (pathNum st, st) /\
    totalLength G_rev len_rev st = sum_over (fun a => flow st a * len_rev a) (arcs G_rev) /\
    totalLength G_rev len_rev st = total_path_length len_rev (paths st) /\
    length (paths st) = Z.to_nat (pathNum st) /\
    arc_disjoint_paths G_rev 0 3 (paths st) /\
    forall qs, length qs = Z.to_nat (pathNum st) ->
               arc_disjoint_paths G_rev 0 3 qs ->
               totalLength G_rev len_rev st <= total_path_length len_rev qs.
Proof.
  apply (C1_total_length_is_minimum ListHeap.t _ _ G_rev len_rev 20 0%nat 3%nat 2
           new_Suurballe).
  - apply mkDigraph_wf; reflexivity.
  - intros e He; simpl in He.
    repeat (destruct He as [<-|He]; [vm_compute; discriminate|]). destruct He.
  - simpl; auto.
  - simpl; lia.
Defined.

(** * Further properties of the code *)

Section More.

Context {H : Type} {HO : HeapOps H} {HL : HeapLaws H}.
Variable G : Digraph.
Hypothesis G_wf : wf_graph G.
Variable len : nat -> Z.

(** ** Cuts: how many arc-disjoint paths there can be *)

Definition member (S : list nat) (x : nat) : Z :=
  if in_dec Nat.eq_dec x S then 1 else 0.

Lemma cut_value : forall (h : nat -> Z) (S : list nat) (m : Z) (s t : nat),
  In s (nodes G) -> In s S -> ~ In t S ->
  (forall x, excess G h x = m * (ind x t - ind x s)) ->
  sum_over (fun a => h a * (member S (target G a) - member S (source G a))) (arcs G) = - m.
Proof using G_wf.
  clear len.
  intros h S m s t Hs HsS HtS Hex.
  rewrite (potential_sum G G_wf (member S) h).
  rewrite (sum_over_ext _
             (fun x => member S x * excess G h x)
             (fun x => m * (member S x * ind t x) + (- m) * (member S x * ind s x))).
  - rewrite sum_over_plus, !sum_over_scal.
    rewrite !point_mass by (apply (wf_nodes_nodup G_wf)).
    destruct (in_dec Nat.eq_dec s (nodes G)) as [_|Hn]; [|tauto].
    assert (Hmt : member S t = 0)
      by (unfold member; destruct (in_dec Nat.eq_dec t S); [tauto | reflexivity]).
    assert (Hms : member S s = 1)
      by (unfold member; destruct (in_dec Nat.eq_dec s S); [reflexivity | tauto]).
    rewrite Hmt, Hms. destruct (in_dec Nat.eq_dec t (nodes G)); lia.
  - intros x _. rewrite Hex, (ind_sym x t), (ind_sym x s). ring.
Qed.

(** No flow across a set that the residual arcs do not leave is larger than
    the one that saturates it. *)
Lemma cut_bound : forall (f g : nat -> Z) (S : list nat) (n m : Z) (s t : nat),
  In s (nodes G) -> In s S -> ~ In t S ->
  (forall u e v, In u S -> res_arc G f e u v -> In v S) ->
  (forall e, In e (arcs G) -> f e = 0 \/ f e = 1) ->
  (forall e, In e (arcs G) -> g e = 0 \/ g e = 1) ->
  (forall x, excess G f x = n * (ind x t - ind x s)) ->
  (forall x, excess G g x = m * (ind x t - ind x s)) ->
  m <= n.
Proof using G_wf.
  clear len.
  intros f g S n m s t Hs HsS HtS Hclosed Hf Hg Hexf Hexg.
  pose proof (cut_value f S n s t Hs HsS HtS Hexf) as Hcf.
  pose proof (cut_value g S m s t Hs HsS HtS Hexg) as Hcg.
  assert (Hle : sum_over (fun a => f a * (member S (target G a) - member S (source G a)))
                         (arcs G)
                <= sum_over (fun a => g a * (member S (target G a) - member S (source G a)))
                            (arcs G)); [|lia].
  apply sum_over_le. intros a Ha. unfold member.
  destruct (in_dec Nat.eq_dec (target G a) S) as [Ht|Ht];
    destruct (in_dec Nat.eq_dec (source G a) S) as [Hsr|Hsr]; try lia.
  - assert (f a = 0).
    { destruct (Hf a Ha) as [E|E]; [exact E|]. exfalso. apply Hsr.
      apply (Hclosed (target G a) a (source G a) Ht). split; [exact Ha | right; auto]. }
    destruct (Hg a Ha); lia.
  - assert (f a = 1).
    { destruct (Hf a Ha) as [E|E]; [|exact E]. exfalso. apply Ht.
      apply (Hclosed (source G a) a (target G a) Hsr). split; [exact Ha | left; auto]. }
    destruct (Hg a Ha); lia.
Qed.

(** When [t] is not reachable in the residual graph, the nodes processed by
    a search from [s] form such a set. *)
Lemma unreachable_cut : forall (f : nat -> Z) (s t : nat),
  In s (nodes G) -> ~ reachable G f s t ->
  exists S, In s S /\ ~ In t S /\
            forall u e v, In u S -> res_arc G f e u v -> In v S.
Proof using G_wf HL.
  intros f s t Hs Hnr.
  set (st := {| _flow := f; _potential := fun _ => 0; _source := s; _target := t;
                paths := []; _path_num := 0; _pred := fun _ => None;
                _dijkstra := {| _dist := fun _ => 0; _proc_nodes := [];
                                _s := s; _t := t |} |}).
  clear len.
  destruct (ResidualDijkstra_run_spec G G_wf (fun _ => 0) (S (length (nodes G))) st Hs
              (Nat.lt_succ_diag_r _))
    as (b & st' & r & _ & RP).
  pose proof (rp_inv _ _ _ _ _ _ RP) as Hinv. simpl in Hinv.
  destruct (search_exit_reachable G _ _ _ _ _ r Hinv) as [Hyes _].
  destruct b.
  - destruct (rp_true _ _ _ _ _ _ RP eq_refl) as (He & Htop & _). simpl in Htop.
    exfalso. apply Hnr, Hyes. auto.
  - destruct (rp_false _ _ _ _ _ _ RP eq_refl) as (He & _).
    assert (Hnin : forall v, heap_state (s_heap r) v <> IN_HEAP)
      by (apply heap_empty_spec; [apply Hinv | exact He]).
    exists (s_proc r). split; [|split].
    + destruct (si_src _ _ _ _ _ _ _ Hinv) as [_ [Hin|[_ Hst]]]; [exact Hin|].
      specialize (Hst s). rewrite Nat.eqb_refl in Hst. now destruct (Hnin s).
    + apply Hinv.
    + intros u e v Hu Hr. apply (si_post _ _ _ _ _ _ _ Hinv).
      pose proof (si_complete _ _ _ _ _ _ _ Hinv u e v Hu Hr) as Hnpre.
      specialize (Hnin v). destruct (heap_state (s_heap r) v); congruence.
Qed.

Lemma indicator_binary : forall (l : list nat) (e : nat), indicator l e = 0 \/ indicator l e = 1.
Proof. intros l e. unfold indicator. destruct (in_dec Nat.eq_dec e l); auto. Qed.

(** A run finds [k] paths or as many as there are. *)
Lemma run_paths_bound : forall (s t : nat) (k : Z) (st : Suurballe),
  In s (nodes G) -> run_result G len s t k st ->
  _path_num st = Z.max 0 k \/
  forall qs, Forall (fun p => is_walk G s p t) qs -> NoDup (concat qs) ->
             Z.of_nat (length qs) <= _path_num st.
Proof using G_wf HL.
  intros s t k st Hs RR.
  destruct (rr_num _ _ _ _ _ _ RR) as (j & Hj & Hpn & [Hjk|Hnr]).
  - left. rewrite Hpn, Hjk. lia.
  - right. intros qs Hw Hnd.
    destruct (unreachable_cut (_flow st) s t Hs Hnr) as (S & HsS & HtS & Hclosed).
    apply (cut_bound (_flow st) (indicator (concat qs)) S _ _ s t Hs HsS HtS Hclosed).
    + apply RR.
    + intros e _. apply indicator_binary.
    + apply RR.
    + intros x. apply (paths_excess G G_wf s t qs x Hw Hnd).
Qed.

(** The total length after a run is that of the returned paths and is the
    least one for this number of arc-disjoint paths. *)
Lemma run_total_length : forall (s t : nat) (k : Z) (st : Suurballe),
  (forall e, In e (arcs G) -> 0 <= len e) ->
  run_result G len s t k st ->
  totalLength G len st = total_path_length len (paths st) /\
  forall qs, length qs = length (paths st) ->
             Forall (fun p => is_walk G s p t) qs -> NoDup (concat qs) ->
             totalLength G len st <= total_path_length len qs.
Proof using G_wf.
  intros s t k st Hlen RR.
  destruct (rr_ext _ _ _ _ _ _ RR) as (res & EI & _).
  pose proof (rr_binary _ _ _ _ _ _ RR) as Hbin.
  assert (Hpn : Z.of_nat (length (paths st)) = _path_num st).
  { rewrite (rr_len _ _ _ _ _ _ RR).
    destruct (rr_num _ _ _ _ _ _ RR) as (j & _ & Hj & _). rewrite Hj. lia. }
  assert (Hcost : forall qs, Forall (fun p => is_walk G s p t) qs -> NoDup (concat qs) ->
                  total_path_length len qs = flow_cost G len (indicator (concat qs))).
  { intros qs Hw Hnd. rewrite total_path_length_concat. unfold flow_cost.
    symmetry. apply (sum_indicator G G_wf len (concat qs) Hnd (walks_in_arcs G s t qs Hw)). }
  assert (Hopt : forall qs, length qs = length (paths st) ->
                 Forall (fun p => is_walk G s p t) qs -> NoDup (concat qs) ->
                 flow_cost G len (_flow st) <= total_path_length len qs).
  { intros qs Hl Hw Hnd. rewrite (Hcost qs Hw Hnd).
    apply (flow_optimal G G_wf len (_flow st) (indicator (concat qs)) (_potential st)).
    - exact Hbin.
    - intros e _. apply indicator_binary.
    - intros x. rewrite (paths_excess G G_wf s t qs x Hw Hnd), Hl, Hpn.
      symmetry. apply RR.
    - apply (rr_dual _ _ _ _ _ _ RR Hlen). }
  rewrite totalLength_flow_cost. split; [|exact Hopt].
  apply Z.le_antisymm.
  - apply Hopt; [reflexivity | apply RR | apply EI].
  - rewrite (Hcost _ (rr_walks _ _ _ _ _ _ RR) (ei_nodup _ _ _ _ EI)).
    unfold flow_cost. apply sum_over_le. intros a Ha.
    unfold indicator. destruct (in_dec Nat.eq_dec a (concat (paths st))) as [Hin|_].
    + destruct (ei_used _ _ _ _ EI a Hin) as [_ Hf]. rewrite Hf. lia.
    + specialize (Hlen a Ha). destruct (Hbin a Ha) as [E|E]; rewrite E; lia.
Qed.

(** ** The path along which an iteration augments *)

(** [res_walk f u p v]: the arcs of [p], each taken in the direction in
    which the residual graph of [f] has it, lead from [u] to [v]. *)
Fixpoint res_walk (f : nat -> Z) (u : nat) (p : list nat) (v : nat) : Prop :=
  match p with
  | [] => u = v
  | e :: p' => exists w, res_arc G f e u w /\ res_walk f w p' v
  end.

(** The residual length of a walk: [len] on forward arcs, [- len] on
    reversed ones. *)
Definition res_length (f : nat -> Z) (p : list nat) : Z := sum_over (rlen len f) p.

Lemma res_walk_lower : forall (f pot' : nat -> Z),
  (forall e u v, res_arc G f e u v -> 0 <= rcost len f pot' e u v) ->
  forall p u v, res_walk f u p v -> pot' v - pot' u <= res_length f p.
Proof using Type.
  intros f pot' Hnn p; induction p as [|e p IH]; intros u v Hw; simpl in *.
  - subst. unfold res_length; simpl. lia.
  - destruct Hw as (w & Hr & Hw). specialize (IH _ _ Hw). specialize (Hnn _ _ _ Hr).
    unfold res_length in *; simpl. unfold rcost in Hnn. lia.
Qed.

Lemma res_walk_tight : forall (f pot' : nat -> Z) p u v,
  (forall e u v, In e p -> res_arc G f e u v -> rcost len f pot' e u v = 0) ->
  res_walk f u p v -> res_length f p = pot' v - pot' u.
Proof using Type.
  intros f pot' p; induction p as [|e p IH]; intros u v Ht Hw; simpl in *.
  - subst. unfold res_length; simpl. lia.
  - destruct Hw as (w & Hr & Hw).
    pose proof (Ht e u w (or_introl eq_refl) Hr) as He.
    pose proof (IH w v (fun e' u' v' Hin => Ht e' u' v' (or_intror Hin)) Hw) as E.
    unfold res_length in *; simpl. unfold rcost in He. lia.
Qed.

Lemma flow_cost_upd : forall (fc : nat -> Z) e c,
  In e (arcs G) ->
  flow_cost G len (upd fc e c) = flow_cost G len fc + (c - fc e) * len e.
Proof using G_wf.
  intros fc e c He. unfold flow_cost.
  rewrite sum_over_upd by (apply (wf_arcs_nodup G_wf)).
  destruct (in_dec Nat.eq_dec e (arcs G)); [reflexivity | tauto].
Qed.

Section Path.

Variable f : nat -> Z.
Variable pot : nat -> Z.
Variables s t : nat.
Variable r : Search H.
Hypothesis Hinv : search_inv G len f pot s t r.
Hypothesis Ht : heap_state (s_heap r) t = IN_HEAP.

Lemma set_flow_path : forall fuel u fc q,
  (pos u (s_proc r) < fuel)%nat ->
  (u = t \/ In u (s_proc r)) ->
  (forall e, fc e = f e \/
             (exists w, tree_arc s t r w e /\ (pos u (s_proc r) < pos w (s_proc r))%nat)) ->
  res_walk f u q t ->
  (forall e, In e q ->
             exists w, tree_arc s t r w e /\ (pos u (s_proc r) < pos w (s_proc r))%nat) ->
  flow_cost G len fc = flow_cost G len f + res_length f q ->
  NoDup q ->
  (forall e, fc e = if in_dec Nat.eq_dec e q then 1 - f e else f e) ->
  exists f' q', set_flow G fuel (s_pred r) u fc = Some f' /\
                res_walk f s q' t /\
                (forall e, In e q' -> exists w, tree_arc s t r w e) /\
                flow_cost G len f' = flow_cost G len f + res_length f q' /\
                NoDup q' /\
                (forall e, f' e = if in_dec Nat.eq_dec e q' then 1 - f e else f e).
Proof using G_wf HL Hinv Ht.
  intros fuel; induction fuel as [|fuel IH];
    intros u fc q Hfuel Hu W1 Hq Htree Hcost Hnd Hfl; [lia|].
  simpl. destruct (Nat.eq_dec u s) as [->|Hus].
  - destruct (si_src _ _ _ _ _ _ _ Hinv) as [Hps _]. rewrite Hps.
    exists fc, q. split; [reflexivity|]. split; [exact Hq|].
    split; [intros e He; destruct (Htree e He) as (w & Hw & _); now exists w|].
    auto.
  - destruct (si_pred _ _ _ _ _ _ _ Hinv u (labelled_not_pre G len f pot s t r Hinv Ht u Hu) Hus)
      as (e & u0 & Hp & Hr & Hu0 & Hpos & _).
    rewrite Hp.
    assert (Hu0u : u0 <> u) by (intros ->; lia).
    assert (Hfc : fc e = f e).
    { destruct (W1 e) as [?|(w & Hw & Hposw)]; [assumption|].
      destruct (tree_arc_res G len f pot s t r Hinv Ht w e Hw) as (u' & Hr' & _).
      destruct (res_arc_det _ _ _ _ _ _ _ Hr Hr') as [_ ->]. lia. }
    assert (He : In e (arcs G)) by (apply Hr).
    assert (Hnq : ~ In e q).
    { intros Hin. destruct (Htree e Hin) as (w & Hw & Hposw).
      destruct (tree_arc_res G len f pot s t r Hinv Ht w e Hw) as (u' & Hr' & _).
      destruct (res_arc_det _ _ _ _ _ _ _ Hr Hr') as [_ ->]. lia. }
    assert (Hnext : exists c,
              (if Nat.eqb u (target G e)
               then set_flow G fuel (s_pred r) (source G e) (upd fc e 1)
               else set_flow G fuel (s_pred r) (target G e) (upd fc e 0)) =
              set_flow G fuel (s_pred r) u0 (upd fc e c) /\
              (c - f e) * len e = rlen len f e /\ c = 1 - f e).
    { pose proof Hr as [_ [[H0 [Hs Htg]]|[H1 [Htg Hs]]]].
      - exists 1. rewrite Htg, Nat.eqb_refl, Hs. split; [reflexivity|].
        unfold rlen. rewrite H0, Z.eqb_refl. lia.
      - exists 0. rewrite Htg. destruct (Nat.eqb_spec u u0) as [|_]; [congruence|].
        split; [reflexivity|]. unfold rlen. rewrite H1. change (1 =? 0) with false. lia. }
    destruct Hnext as (c & -> & Hc & Hc1).
    apply (IH u0 (upd fc e c) (e :: q)).
    + lia.
    + now right.
    + intros e'. destruct (Nat.eq_dec e' e) as [->|Hne].
      * right; exists u. split; [|exact Hpos].
        split; [exact Hp | split; [exact Hus | exact Hu]].
      * rewrite upd_other by exact Hne.
        destruct (W1 e') as [?|(w & Hw & Hposw)]; [now left|].
        right; exists w; split; [exact Hw | lia].
    + simpl. exists u. split; [exact Hr | exact Hq].
    + intros e' [<-|Hin].
      * exists u. split; [|exact Hpos].
        split; [exact Hp | split; [exact Hus | exact Hu]].
      * destruct (Htree e' Hin) as (w & Hw & Hposw). exists w. split; [exact Hw | lia].
    + rewrite flow_cost_upd by exact He. rewrite Hfc, Hcost, Hc.
      unfold res_length; simpl. lia.
    + constructor; assumption.
    + intros e'. destruct (Nat.eq_dec e' e) as [->|Hne].
      * rewrite upd_same. destruct (in_dec Nat.eq_dec e (e :: q)) as [_|Hn]; [exact Hc1|].
        exfalso; apply Hn; now left.
      * rewrite upd_other by exact Hne. rewrite Hfl.
        destruct (in_dec Nat.eq_dec e' q) as [Hi|Hi];
          destruct (in_dec Nat.eq_dec e' (e :: q)) as [Hj|Hj]; try reflexivity.
        -- exfalso; apply Hj; now right.
        -- destruct Hj as [E|Hj]; [congruence | contradiction].
Qed.

End Path.

(** A completed iteration augments along a residual walk from the source to
    the target; the total length grows by its residual length, which is the
    difference of the new potentials of the two nodes and, when the reduced
    residual lengths were non-negative, the least residual length of such a
    walk. *)
Lemma augment_path : forall fuel st st',
  flow_inv G st -> (length (nodes G) < fuel)%nat ->
  augment G len fuel st = Some (true, st') ->
  exists q,
    res_walk (_flow st) (_source st) q (_target st) /\
    totalLength G len st' = totalLength G len st + res_length (_flow st) q /\
    res_length (_flow st) q = _potential st' (_target st) - _potential st' (_source st) /\
    (dual_feasible G len st ->
     forall p, res_walk (_flow st) (_source st) p (_target st) ->
               res_length (_flow st) q <= res_length (_flow st) p) /\
    NoDup q /\
    (forall e, _flow st' e = if in_dec Nat.eq_dec e q then 1 - _flow st e else _flow st e).
Proof using G_wf HL.
  intros fuel st st' FI Hfuel Ha.
  assert (Hs : In (_s (_dijkstra st)) (nodes G))
    by (rewrite (fi_s _ _ FI); apply (fi_source _ _ FI)).
  destruct (ResidualDijkstra_run_spec G G_wf len fuel st Hs Hfuel) as (b & st1 & r & Hrun & RP).
  pose proof (rp_inv _ _ _ _ _ _ RP) as Hinv.
  rewrite (fi_s _ _ FI), (fi_t _ _ FI) in Hinv.
  unfold augment, bind, get_st, lift, put_st, ret in Ha. rewrite Hrun in Ha.
  destruct b; [|discriminate].
  destruct (rp_true _ _ _ _ _ _ RP eq_refl) as (Hne & Htop & Hpot).
  rewrite (fi_t _ _ FI) in Htop, Hpot.
  assert (Htin : heap_state (s_heap r) (_target st) = IN_HEAP)
    by (rewrite <- Htop; apply heap_top_in; [apply Hinv | exact Hne]).
  destruct (set_flow_path (_flow st) (_potential st) (_source st) (_target st) r Hinv Htin
              fuel (_target st) (_flow st) [])
    as (f' & q & Hset & Hq & Htree & Hcost & Hnd & Hfl).
  - pose proof (pos_le_length (_target st) (s_proc r)).
    pose proof (proc_length G len _ _ _ _ r Hinv). lia.
  - now left.
  - intros e; now left.
  - reflexivity.
  - intros e [].
  - unfold res_length; simpl. lia.
  - constructor.
  - intros e. reflexivity.
  - rewrite (rp_pred _ _ _ _ _ _ RP), (rp_target _ _ _ _ _ _ RP), (rp_flow _ _ _ _ _ _ RP),
      Hset in Ha.
    inversion Ha; subst st'; clear Ha. simpl.
    assert (Htight : res_length (_flow st) q
                     = _potential st1 (_target st) - _potential st1 (_source st)).
    { apply res_walk_tight; [|exact Hq].
      intros e u v Hin Hr. destruct (Htree e Hin) as (w & Hw).
      destruct (tree_arc_res G len _ _ _ _ r Hinv Htin w e Hw) as (u0 & Hr0 & _).
      destruct (res_arc_det _ _ _ _ _ _ _ Hr Hr0) as [-> ->].
      rewrite Hpot.
      apply (tree_arc_tight G len _ _ _ _ r Hinv Hne Htop w e u0 Hw Hr0). }
    exists q. split; [exact Hq|].
    split; [rewrite !totalLength_flow_cost; simpl; exact Hcost|].
    split; [exact Htight|].
    split; [|split; [exact Hnd | exact Hfl]].
    intros Hd p Hp. rewrite Htight.
    apply (res_walk_lower (_flow st) (_potential st1)); [|exact Hp].
    rewrite Hpot.
    apply (new_rcost_nonneg G len _ _ _ _ r Hinv (rp_num _ _ _ _ _ _ RP Hd) Hd Hne Htop).
Qed.

(** ** Source and target coincide *)

Lemma augment_same_node : forall fuel st b st',
  flow_inv G st -> _source st = _target st -> (length (nodes G) < fuel)%nat ->
  augment G len fuel st = Some (b, st') ->
  b = true /\ (forall e, _flow st' e = _flow st e) /\ _potential st' = _potential st.
Proof using G_wf HL.
  intros fuel st b st' FI Hst Hfuel Ha.
  assert (Hs : In (_s (_dijkstra st)) (nodes G))
    by (rewrite (fi_s _ _ FI); apply (fi_source _ _ FI)).
  destruct (ResidualDijkstra_run_spec G G_wf len fuel st Hs Hfuel) as (b1 & st1 & r & Hrun & RP).
  pose proof (rp_inv _ _ _ _ _ _ RP) as Hinv.
  rewrite (fi_s _ _ FI), (fi_t _ _ FI) in Hinv.
  destruct (search_exit_reachable G len _ _ _ _ r Hinv) as [_ Hno].
  unfold augment, bind, get_st, lift, put_st, ret in Ha. rewrite Hrun in Ha.
  destruct b1.
  - destruct (rp_true _ _ _ _ _ _ RP eq_refl) as (Hne & Htop & Hpot).
    rewrite (fi_t _ _ FI) in Htop, Hpot.
    assert (Htin : heap_state (s_heap r) (_target st) = IN_HEAP)
      by (rewrite <- Htop; apply heap_top_in; [apply Hinv | exact Hne]).
    assert (Hproc : s_proc r = []).
    { destruct (si_src _ _ _ _ _ _ _ Hinv) as [_ [Hin|[E _]]]; [|exact E].
      rewrite Hst in Hin. now destruct (si_t _ _ _ _ _ _ _ Hinv). }
    destruct (set_flow_spec G G_wf len _ _ _ _ r Hinv Htin fuel Hfuel) as (f' & Hset & F1 & _).
    rewrite (rp_pred _ _ _ _ _ _ RP), (rp_target _ _ _ _ _ _ RP), (rp_flow _ _ _ _ _ _ RP),
      Hset in Ha.
    inversion Ha; subst; clear Ha. simpl.
    split; [reflexivity|]. split.
    + intros e. destruct (F1 e) as [E|(w & (_ & Hws & [Hw|Hw]) & _)]; [exact E | |].
      * congruence.
      * rewrite Hproc in Hw. destruct Hw.
    + rewrite Hpot, Hproc. reflexivity.
  - destruct (rp_false _ _ _ _ _ _ RP eq_refl) as (He & _).
    exfalso. apply (Hno He). rewrite Hst. constructor.
Qed.

Lemma iterations_same_node : forall fuel j st st',
  flow_inv G st -> _source st = _target st -> (length (nodes G) < fuel)%nat ->
  iterations G len fuel j st = Some st' ->
  (forall e, _flow st' e = _flow st e) /\ _potential st' = _potential st.
Proof using G_wf HL.
  intros fuel j; induction j as [|j IH]; intros st st' FI Hst Hfuel Hit; simpl in Hit.
  - inversion Hit; subst. auto.
  - destruct (iterations G len fuel j st) as [st1|] eqn:E1; [|discriminate].
    destruct (IH st st1 FI Hst Hfuel E1) as [Hf Hp].
    pose proof (iterations_post G G_wf len fuel j st st1 FI Hfuel E1) as IP.
    destruct (augment G len fuel st1) as [[b st2]|] eqn:Ea; [|discriminate].
    destruct (augment_same_node fuel st1 b st2 (ip_inv _ _ _ _ _ IP)) as (-> & Hf2 & Hp2); auto.
    + rewrite (ip_source _ _ _ _ _ IP), (ip_target _ _ _ _ _ IP). exact Hst.
    + inversion Hit; subst. split; [intros e; rewrite Hf2; apply Hf | congruence].
Qed.

Lemma run_same_node : forall fuel s k st0,
  In s (nodes G) -> (length (nodes G) + length (arcs G) < fuel)%nat ->
  exists st,
    run G len fuel s s k st0 = Some (_path_num st, st) /\
    (forall a, In a (arcs G) -> _flow st a = 0) /\
    (forall v, In v (nodes G) -> _potential st v = 0) /\
    concat (paths st) = [].
Proof using G_wf HL.
  intros fuel s k st0 Hs Hfuel.
  assert (Hfn : (length (nodes G) < fuel)%nat) by lia.
  assert (Hfa : (length (arcs G) < fuel)%nat) by lia.
  pose proof (loop_start_inv G s s st0 Hs) as FI0.
  destruct (findFlow_loop_spec G G_wf len fuel (Z.to_nat k) _ FI0 Hfn)
    as (j & st1 & st2 & Hl & Hj & Hit & IP0 & Hf & Hp & _).
  pose proof (iterations_post G G_wf len fuel j _ _ FI0 Hfn Hit) as IP.
  destruct (iterations_same_node fuel j _ _ FI0 eq_refl Hfn Hit) as [Hf1 Hp1].
  destruct (findPaths_spec G G_wf fuel st2 (ip_inv _ _ _ _ _ IP0)) as
    (st3 & res & Hfp & Hf3 & Hp3 & _ & _ & _ & _ & EI & _ & _); [|exact Hfa|].
  { rewrite (ip_path_num _ _ _ _ _ IP0), (ip_path_num _ _ _ _ _ IP). simpl. lia. }
  assert (Hzero : forall a, In a (arcs G) -> _flow st3 a = 0).
  { intros a Ha. rewrite Hf3, Hf, Hf1. now apply loop_start_flow. }
  exists st3. rewrite run_unfold, Hl, Hfp. split; [reflexivity|].
  split; [exact Hzero|]. split.
  - intros v Hv. rewrite Hp3, Hp, Hp1. now apply loop_start_potential.
  - destruct (concat (paths st3)) as [|a l] eqn:E; [reflexivity|].
    destruct (ei_used _ _ _ _ EI a) as [Ha Hone]; [now left|].
    rewrite <- Hf3, (Hzero a Ha) in Hone. discriminate.
Qed.

(** ** [findPaths] on its own *)

Lemma findPaths_loop_length : forall fuel i s t res ps ps' res',
  findPaths_loop G fuel i s t res ps = Some (ps', res') ->
  length ps' = (length ps + i)%nat.
Proof using Type.
  clear len.
  intros fuel i; induction i as [|i IH]; intros s t res ps ps' res' Hl; simpl in Hl.
  - inversion Hl; subst. lia.
  - destruct (walk G fuel t s res []) as [[p res1]|]; [|discriminate].
    rewrite (IH _ _ _ _ _ _ Hl), length_app. simpl. lia.
Qed.

Lemma first_flow_arc_none : forall (res : nat -> Z) l,
  (forall e, In e l -> res e = 0) -> first_flow_arc res l = None.
Proof using Type.
  clear len.
  intros res l; induction l as [|a l IH]; intros Hz; simpl; [reflexivity|].
  rewrite (Hz a) by (now left). simpl. apply IH. intros e He; apply Hz; now right.
Qed.

(** ** One more iteration of the loop of [findFlow] *)

Lemma iterations_shortest : forall fuel j s t st0 st st',
  (forall e, In e (arcs G) -> 0 <= len e) ->
  In s (nodes G) -> (length (nodes G) < fuel)%nat ->
  iterations G len fuel j (loop_start G s t st0) = Some st ->
  iterations G len fuel (S j) (loop_start G s t st0) = Some st' ->
  (exists q, res_walk (_flow st) s q t /\
             totalLength G len st' = totalLength G len st + res_length (_flow st) q /\
             res_length (_flow st) q = _potential st' t - _potential st' s /\
             (forall p, res_walk (_flow st) s p t ->
                        res_length (_flow st) q <= res_length (_flow st) p) /\
             NoDup q /\
             (forall e, In e q -> _flow st' e = 1 - _flow st e) /\
             (forall e, ~ In e q -> _flow st' e = _flow st e)) /\
  _potential st' t = _potential st t /\
  _potential st' s <= _potential st s.
Proof using G_wf HL.
  intros fuel j s t st0 st st' Hlen Hs Hfuel Hit Hit'.
  pose proof (loop_start_inv G s t st0 Hs) as FI0.
  pose proof (iterations_post G G_wf len fuel j _ _ FI0 Hfuel Hit) as IP.
  pose proof (ip_dual _ _ _ _ _ IP (loop_start_dual G G_wf len s t st0 Hlen)) as Hd.
  assert (Hsrc : _source st = s) by (rewrite (ip_source _ _ _ _ _ IP); reflexivity).
  assert (Htgt : _target st = t) by (rewrite (ip_target _ _ _ _ _ IP); reflexivity).
  simpl in Hit'. rewrite Hit in Hit'.
  destruct (augment_spec G G_wf len fuel st (ip_inv _ _ _ _ _ IP) Hfuel)
    as (b & st2 & Ha & AP).
  rewrite Ha in Hit'. destruct b; [|discriminate]. inversion Hit'; subst st2; clear Hit'.
  destruct (augment_path fuel st st' (ip_inv _ _ _ _ _ IP) Hfuel Ha)
    as (q & Hq & Hcost & Hpot & Hmin & Hnd & Hfl).
  rewrite Hsrc, Htgt in *.
  split; [|split].
  - exists q. split; [exact Hq|]. split; [exact Hcost|]. split; [exact Hpot|].
    split; [exact (Hmin Hd)|]. split; [exact Hnd|].
    split; intros e He; rewrite Hfl;
      destruct (in_dec Nat.eq_dec e q); tauto.
  - pose proof (ap_pot_t _ _ _ _ _ AP) as E. rewrite Htgt in E. exact E.
  - apply (ap_pot_le _ _ _ _ _ AP Hd).
Qed.

End More.

(** ** The value returned by [run] *)

(** X1. [run(s, t, k)] returns a number between [0] and [max(0, k)], which
    is the number of paths it stored; the paths are arc-disjoint paths from
    [s] to [t]; and when fewer than [k] are returned, no family of
    arc-disjoint paths from [s] to [t] has more members.  The lengths may
    have any sign. *)
Theorem X1_run_returns_the_largest_family :
  forall (H : Type) (HO : HeapOps H) (HL : HeapLaws H) (G : Digraph) (len : nat -> Z)
         (fuel : nat) (s t : nat) (k : Z) (st0 : Suurballe),
    wf_graph G ->
    In s (nodes G) ->
    (length (nodes G) + length (arcs G) < fuel)%nat ->
    exists st,
      run (H := H) G len fuel s t k st0 = Some (pathNum st, st) /\
      0 <= pathNum st <= Z.max 0 k /\
      Z.of_nat (length (paths st)) = pathNum st /\
      arc_disjoint_paths G s t (paths st) /\
      (pathNum st = Z.max 0 k \/
       forall qs, arc_disjoint_paths G s t qs -> Z.of_nat (length qs) <= pathNum st).
Proof.
  intros H HO HL G len fuel s t k st0 Hwf Hs Hfuel.
  destruct (run_spec G Hwf len fuel s t k st0 Hs Hfuel) as (st & Hrun & RR).
  destruct (rr_ext _ _ _ _ _ _ RR) as (res & EI & _).
  assert (Hpn : 0 <= _path_num st <= Z.max 0 k).
  { destruct (rr_num _ _ _ _ _ _ RR) as (j & Hj & E & _). rewrite E. lia. }
  exists st. split; [exact Hrun|]. unfold pathNum.
  split; [exact Hpn|]. split; [rewrite (rr_len _ _ _ _ _ _ RR); lia|].
  split; [split; [apply RR | apply EI]|].
  destruct (run_paths_bound G Hwf len s t k st Hs RR) as [E|Hmax]; [now left|].
  right. intros qs [Hw Hnd]. now apply Hmax.
Qed.

Lemma X1_witness :
  exists st,
    run (H := ListHeap.t) G_cut len_arc 10 0 2 2 new_Suurballe = Some (pathNum st, st) /\
    0 <= pathNum st <= Z.max 0 2 /\
    Z.of_nat (length (paths st)) = pathNum st /\
    arc_disjoint_paths G_cut 0 2 (paths st) /\
    (pathNum st = Z.max 0 2 \/
     forall qs, arc_disjoint_paths G_cut 0 2 qs -> Z.of_nat (length qs) <= pathNum st).
Proof.
  apply (X1_run_returns_the_largest_family ListHeap.t _ _ G_cut len_arc 10 0%nat 2%nat 2
           new_Suurballe).
  - apply mkDigraph_wf; reflexivity.
  - simpl; auto.
  - simpl; lia.
Defined.

(** X2. With non-negative lengths, the number of paths and the total length
    that [run(s, t, k)] computes depend neither on the heap implementation
    (any two heaps that satisfy the heap concept) nor on the contents of the
    object before the call. *)
Theorem X2_result_independent_of_the_heap :
  forall (H1 : Type) (HO1 : HeapOps H1) (HL1 : HeapLaws H1)
         (H2 : Type) (HO2 : HeapOps H2) (HL2 : HeapLaws H2)
         (G : Digraph) (len : nat -> Z) (fuel1 fuel2 : nat) (s t : nat) (k : Z)
         (st0 st0' : Suurballe),
    wf_graph G ->
    (forall e, In e (arcs G) -> 0 <= len e) ->
    In s (nodes G) ->
    (length (nodes G) + length (arcs G) < fuel1)%nat ->
    (length (nodes G) + length (arcs G) < fuel2)%nat ->
    exists st1 st2,
      run (H := H1) G len fuel1 s t k st0 = Some (pathNum st1, st1) /\
      run (H := H2) G len fuel2 s t k st0' = Some (pathNum st2, st2) /\
      pathNum st1 = pathNum st2 /\
      totalLength G len st1 = totalLength G len st2.
Proof.
  intros H1 HO1 HL1 H2 HO2 HL2 G len fuel1 fuel2 s t k st0 st0' Hwf Hlen Hs Hf1 Hf2.
  destruct (@run_spec H1 HO1 HL1 G Hwf len fuel1 s t k st0 Hs Hf1) as (st1 & Hrun1 & RR1).
  destruct (@run_spec H2 HO2 HL2 G Hwf len fuel2 s t k st0' Hs Hf2) as (st2 & Hrun2 & RR2).
  destruct (rr_ext _ _ _ _ _ _ RR1) as (res1 & EI1 & _).
  destruct (rr_ext _ _ _ _ _ _ RR2) as (res2 & EI2 & _).
  assert (Hpn1 : 0 <= _path_num st1 <= Z.max 0 k).
  { destruct (rr_num _ _ _ _ _ _ RR1) as (j & Hj & E & _). rewrite E. lia. }
  assert (Hpn2 : 0 <= _path_num st2 <= Z.max 0 k).
  { destruct (rr_num _ _ _ _ _ _ RR2) as (j & Hj & E & _). rewrite E. lia. }
  pose proof (rr_len _ _ _ _ _ _ RR1) as Hl1.
  pose proof (rr_len _ _ _ _ _ _ RR2) as Hl2.
  assert (Hnum : _path_num st1 = _path_num st2).
  { destruct (@run_paths_bound H1 HO1 HL1 G Hwf len s t k st1 Hs RR1) as [E1|M1];
      destruct (@run_paths_bound H2 HO2 HL2 G Hwf len s t k st2 Hs RR2) as [E2|M2].
    - congruence.
    - specialize (M2 (paths st1) (rr_walks _ _ _ _ _ _ RR1) (ei_nodup _ _ _ _ EI1)). lia.
    - specialize (M1 (paths st2) (rr_walks _ _ _ _ _ _ RR2) (ei_nodup _ _ _ _ EI2)). lia.
    - specialize (M2 (paths st1) (rr_walks _ _ _ _ _ _ RR1) (ei_nodup _ _ _ _ EI1)).
      specialize (M1 (paths st2) (rr_walks _ _ _ _ _ _ RR2) (ei_nodup _ _ _ _ EI2)). lia. }
  assert (Hlen12 : length (paths st1) = length (paths st2)) by (rewrite Hl1, Hl2, Hnum; reflexivity).
  exists st1, st2. split; [exact Hrun1|]. split; [exact Hrun2|]. split; [exact Hnum|].
  destruct (run_total_length G Hwf len s t k st1 Hlen RR1) as [T1 O1].
  destruct (run_total_length G Hwf len s t k st2 Hlen RR2) as [T2 O2].
  pose proof (O1 (paths st2) (eq_sym Hlen12) (rr_walks _ _ _ _ _ _ RR2)
                 (ei_nodup _ _ _ _ EI2)) as A.
  pose proof (O2 (paths st1) Hlen12 (rr_walks _ _ _ _ _ _ RR1)
                 (ei_nodup _ _ _ _ EI1)) as B.
  lia.
Qed.

Lemma X2_witness :
  exists st1 st2,
    run (H := ListHeap.t) G_rev len_rev 20 0 3 2 new_Suurballe = Some (pathNum st1, st1) /\
    run (H := ListHeap.t) G_rev len_rev 30 0 3 2 (run_state G_rev len_rev 20 0 3 1)
    = Some (pathNum st2, st2) /\
    pathNum st1 = pathNum st2 /\
    totalLength G_rev len_rev st1 = totalLength G_rev len_rev st2.
Proof.
  apply (X2_result_independent_of_the_heap ListHeap.t _ _ ListHeap.t _ _ G_rev len_rev
           20 30 0%nat 3%nat 2 new_Suurballe (run_state G_rev len_rev 20 0 3 1)).
  - apply mkDigraph_wf; reflexivity.
  - intros e He; simpl in He.
    repeat (destruct He as [<-|He]; [vm_compute; discriminate|]). destruct He.
  - simpl; auto.
  - simpl; lia.
  - simpl; lia.
Defined.

(** X3. Asking for more paths never gives fewer: for [k <= k'] the number
    returned by [run(s, t, k)] is the smaller of [max(0, k)] and the number
    returned by [run(s, t, k')]. *)
Theorem X3_path_number_is_monotone_in_k :
  forall (H : Type) (HO : HeapOps H) (HL : HeapLaws H) (G : Digraph) (len : nat -> Z)
         (fuel : nat) (s t : nat) (k k' : Z) (st0 st0' : Suurballe),
    wf_graph G ->
    In s (nodes G) ->
    (length (nodes G) + length (arcs G) < fuel)%nat ->
    k <= k' ->
    exists st st',
      run (H := H) G len fuel s t k st0 = Some (pathNum st, st) /\
      run (H := H) G len fuel s t k' st0' = Some (pathNum st', st') /\
      pathNum st = Z.min (Z.max 0 k) (pathNum st').
Proof.
  intros H HO HL G len fuel s t k k' st0 st0' Hwf Hs Hfuel Hk.
  destruct (run_spec G Hwf len fuel s t k st0 Hs Hfuel) as (st1 & Hrun1 & RR1).
  destruct (run_spec G Hwf len fuel s t k' st0' Hs Hfuel) as (st2 & Hrun2 & RR2).
  destruct (rr_ext _ _ _ _ _ _ RR1) as (res1 & EI1 & _).
  destruct (rr_ext _ _ _ _ _ _ RR2) as (res2 & EI2 & _).
  assert (Hpn1 : 0 <= _path_num st1 <= Z.max 0 k).
  { destruct (rr_num _ _ _ _ _ _ RR1) as (j & Hj & E & _). rewrite E. lia. }
  assert (Hpn2 : 0 <= _path_num st2 <= Z.max 0 k').
  { destruct (rr_num _ _ _ _ _ _ RR2) as (j & Hj & E & _). rewrite E. lia. }
  pose proof (rr_len _ _ _ _ _ _ RR1) as Hl1.
  pose proof (rr_len _ _ _ _ _ _ RR2) as Hl2.
  exists st1, st2. split; [exact Hrun1|]. split; [exact Hrun2|]. unfold pathNum.
  destruct (run_paths_bound G Hwf len s t k st1 Hs RR1) as [E1|M1];
    destruct (run_paths_bound G Hwf len s t k' st2 Hs RR2) as [E2|M2].
  - lia.
  - specialize (M2 (paths st1) (rr_walks _ _ _ _ _ _ RR1) (ei_nodup _ _ _ _ EI1)). lia.
  - specialize (M1 (paths st2) (rr_walks _ _ _ _ _ _ RR2) (ei_nodup _ _ _ _ EI2)). lia.
  - specialize (M2 (paths st1) (rr_walks _ _ _ _ _ _ RR1) (ei_nodup _ _ _ _ EI1)).
    specialize (M1 (paths st2) (rr_walks _ _ _ _ _ _ RR2) (ei_nodup _ _ _ _ EI2)). lia.
Qed.

Lemma X3_witness :
  exists st st',
    run (H := ListHeap.t) G_rev len_rev 20 0 3 1 new_Suurballe = Some (pathNum st, st) /\
    run (H := ListHeap.t) G_rev len_rev 20 0 3 5 new_Suurballe = Some (pathNum st', st') /\
    pathNum st = Z.min (Z.max 0 1) (pathNum st').
Proof.
  apply (X3_path_number_is_monotone_in_k ListHeap.t _ _ G_rev len_rev 20 0%nat 3%nat 1 5
           new_Suurballe new_Suurballe).
  - apply mkDigraph_wf; reflexivity.
  - simpl; auto.
  - simpl; lia.
  - lia.
Defined.

(** ** The path of one iteration *)

(** X4. With non-negative lengths, an iteration of the loop of [findFlow]
    changes the flow along a walk [q] from [s] to [t] in the residual graph
    of the flow it started with: no arc occurs twice in [q], the flow of
    every arc of [q] is flipped (from [0] to [1] on an arc used forwards,
    from [1] to [0] on an arc used backwards) and the flow of every other
    arc is left as it was.  The walk is a shortest one (an arc used
    backwards counting with the negated length); [totalLength()] grows by
    its length; and that length is [potential(t) - potential(s)] after the
    iteration. *)
Theorem X4_iteration_follows_a_shortest_residual_path :
  forall (H : Type) (HO : HeapOps H) (HL : HeapLaws H) (G : Digraph) (len : nat -> Z)
         (fuel j : nat) (s t : nat) (st0 st st' : Suurballe),
    wf_graph G ->
    (forall e, In e (arcs G) -> 0 <= len e) ->
    In s (nodes G) ->
    (length (nodes G) < fuel)%nat ->
    iterations (H := H) G len fuel j (loop_start G s t st0) = Some st ->
    iterations (H := H) G len fuel (S j) (loop_start G s t st0) = Some st' ->
    exists q,
      res_walk G (flow st) s q t /\
      NoDup q /\
      (forall e, In e q -> flow st' e = 1 - flow st e) /\
      (forall e, ~ In e q -> flow st' e = flow st e) /\
      totalLength G len st' = totalLength G len st + res_length len (flow st) q /\
      res_length len (flow st) q = potential st' t - potential st' s /\
      forall p, res_walk G (flow st) s p t ->
                res_length len (flow st) q <= res_length len (flow st) p.
Proof.
  intros H HO HL G len fuel j s t st0 st st' Hwf Hlen Hs Hfuel Hit Hit'.
  destruct (iterations_shortest G Hwf len fuel j s t st0 st st' Hlen Hs Hfuel Hit Hit')
    as ((q & Hq & Hcost & Hpot & Hmin & Hnd & Hin & Hout) & _).
  exists q. unfold flow, potential.
  split; [exact Hq|]. split; [exact Hnd|]. split; [exact Hin|]. split; [exact Hout|].
  split; [exact Hcost|]. split; [exact Hpot | exact Hmin].
Qed.

Lemma X4_witness :
  exists q,
    res_walk G_rev (flow (state_after G_rev len_rev 20 1 0 3)) 0%nat q 3%nat /\
    NoDup q /\
    (forall e, In e q -> flow (state_after G_rev len_rev 20 2 0 3) e
                         = 1 - flow (state_after G_rev len_rev 20 1 0 3) e) /\
    (forall e, ~ In e q -> flow (state_after G_rev len_rev 20 2 0 3) e
                           = flow (state_after G_rev len_rev 20 1 0 3) e) /\
    totalLength G_rev len_rev (state_after G_rev len_rev 20 2 0 3)
    = totalLength G_rev len_rev (state_after G_rev len_rev 20 1 0 3)
      + res_length len_rev (flow (state_after G_rev len_rev 20 1 0 3)) q /\
    res_length len_rev (flow (state_after G_rev len_rev 20 1 0 3)) q
    = potential (state_after G_rev len_rev 20 2 0 3) 3%nat
      - potential (state_after G_rev len_rev 20 2 0 3) 0%nat /\
    forall p, res_walk G_rev (flow (state_after G_rev len_rev 20 1 0 3)) 0%nat p 3%nat ->
              res_length len_rev (flow (state_after G_rev len_rev 20 1 0 3)) q
              <= res_length len_rev (flow (state_after G_rev len_rev 20 1 0 3)) p.
Proof.
  apply (X4_iteration_follows_a_shortest_residual_path ListHeap.t _ _ G_rev len_rev 20 1
           0%nat 3%nat new_Suurballe).
  - apply mkDigraph_wf; reflexivity.
  - intros e He; simpl in He.
    repeat (destruct He as [<-|He]; [vm_compute; discriminate|]). destruct He.
  - simpl; auto.
  - simpl; lia.
  - vm_compute. reflexivity.
  - vm_compute. reflexivity.
Defined.

(** X5. With non-negative lengths, each iteration of the loop of [findFlow]
    adds to [totalLength()] at least as much as the iteration before it. *)
Theorem X5_added_length_never_decreases :
  forall (H : Type) (HO : HeapOps H) (HL : HeapLaws H) (G : Digraph) (len : nat -> Z)
         (fuel j : nat) (s t : nat) (st0 st1 st2 st3 : Suurballe),
    wf_graph G ->
    (forall e, In e (arcs G) -> 0 <= len e) ->
    In s (nodes G) ->
    (length (nodes G) < fuel)%nat ->
    iterations (H := H) G len fuel j (loop_start G s t st0) = Some st1 ->
    iterations (H := H) G len fuel (S j) (loop_start G s t st0) = Some st2 ->
    iterations (H := H) G len fuel (S (S j)) (loop_start G s t st0) = Some st3 ->
    totalLength G len st2 - totalLength G len st1
    <= totalLength G len st3 - totalLength G len st2.
Proof.
  intros H HO HL G len fuel j s t st0 st1 st2 st3 Hwf Hlen Hs Hfuel Hit1 Hit2 Hit3.
  destruct (iterations_shortest G Hwf len fuel j s t st0 st1 st2 Hlen Hs Hfuel Hit1 Hit2)
    as ((q1 & _ & Hc1 & Hp1 & _) & _ & _).
  destruct (iterations_shortest G Hwf len fuel (S j) s t st0 st2 st3 Hlen Hs Hfuel Hit2 Hit3)
    as ((q2 & _ & Hc2 & Hp2 & _) & Ht & Hle).
  lia.
Qed.

Lemma X5_witness :
  totalLength G_rev len_rev (state_after G_rev len_rev 20 1 0 3)
  - totalLength G_rev len_rev (state_after G_rev len_rev 20 0 0 3)
  <= totalLength G_rev len_rev (state_after G_rev len_rev 20 2 0 3)
     - totalLength G_rev len_rev (state_after G_rev len_rev 20 1 0 3).
Proof.
  apply (X5_added_length_never_decreases ListHeap.t _ _ G_rev len_rev 20 0 0%nat 3%nat
           new_Suurballe).
  - apply mkDigraph_wf; reflexivity.
  - intros e He; simpl in He.
    repeat (destruct He as [<-|He]; [vm_compute; discriminate|]). destruct He.
  - simpl; auto.
  - simpl; lia.
  - vm_compute. reflexivity.
  - vm_compute. reflexivity.
  - vm_compute. reflexivity.
Defined.

(** ** Edge cases of [run] *)

(** X6. [run(s, s, k)], source and target the same node, returns
    [max(0, k)]; every stored path is empty, the flow is [0] on every arc,
    the potential is [0] on every node and [totalLength()] is [0]. *)
Theorem X6_run_with_source_equal_to_target :
  forall (H : Type) (HO : HeapOps H) (HL : HeapLaws H) (G : Digraph) (len : nat -> Z)
         (fuel : nat) (s : nat) (k : Z) (st0 : Suurballe),
    wf_graph G ->
    In s (nodes G) ->
    (length (nodes G) + length (arcs G) < fuel)%nat ->
    exists st,
      run (H := H) G len fuel s s k st0 = Some (Z.max 0 k, st) /\
      pathNum st = Z.max 0 k /\
      Z.of_nat (length (paths st)) = Z.max 0 k /\
      Forall (fun p => p = []) (paths st) /\
      (forall a, In a (arcs G) -> flow st a = 0) /\
      (forall v, In v (nodes G) -> potential st v = 0) /\
      totalLength G len st = 0.
Proof.
  intros H HO HL G len fuel s k st0 Hwf Hs Hfuel.
  destruct (run_same_node G Hwf len fuel s k st0 Hs Hfuel) as (st & Hrun & Hf & Hp & Hc).
  destruct (run_spec G Hwf len fuel s s k st0 Hs Hfuel) as (st' & Hrun' & RR).
  rewrite Hrun in Hrun'. inversion Hrun' as [[E1 E2]]. subst st'. clear Hrun' E1.
  assert (Hpn : _path_num st = Z.max 0 k).
  { destruct (rr_num _ _ _ _ _ _ RR) as (j & Hj & E & [Hjk|Hnr]).
    - rewrite E, Hjk. lia.
    - exfalso. apply Hnr. constructor. }
  exists st. rewrite <- Hpn. split; [exact Hrun|]. split; [reflexivity|].
  split; [rewrite (rr_len _ _ _ _ _ _ RR), Hpn; lia|].
  split; [now apply concat_nil_Forall|].
  split; [exact Hf|]. split; [exact Hp|].
  rewrite totalLength_flow_cost. unfold flow_cost. apply sum_over_zero.
  intros e He. rewrite (Hf e He). reflexivity.
Qed.

Lemma X6_witness :
  exists st,
    run (H := ListHeap.t) G_rev len_rev 20 1 1 3 new_Suurballe = Some (Z.max 0 3, st) /\
    pathNum st = Z.max 0 3 /\
    Z.of_nat (length (paths st)) = Z.max 0 3 /\
    Forall (fun p => p = []) (paths st) /\
    (forall a, In a (arcs G_rev) -> flow st a = 0) /\
    (forall v, In v (nodes G_rev) -> potential st v = 0) /\
    totalLength G_rev len_rev st = 0.
Proof.
  apply (X6_run_with_source_equal_to_target ListHeap.t _ _ G_rev len_rev 20 1%nat 3
           new_Suurballe).
  - apply mkDigraph_wf; reflexivity.
  - simpl; auto.
  - simpl; lia.
Defined.

(** X7. [run(s, t, k)] with [k <= 0] does not enter the loop of [findFlow]:
    it returns [0], stores no path and leaves the flow at [0] on every
    arc. *)
Theorem X7_run_with_no_path_requested :
  forall (H : Type) (HO : HeapOps H) (G : Digraph) (len : nat -> Z)
         (fuel : nat) (s t : nat) (k : Z) (st0 : Suurballe),
    k <= 0 ->
    exists st,
      run (H := H) G len fuel s t k st0 = Some (0, st) /\
      pathNum st = 0 /\ paths st = [] /\
      (forall a, In a (arcs G) -> flow st a = 0) /\
      (forall v, In v (nodes G) -> potential st v = 0).
Proof.
  intros H HO G len fuel s t k st0 Hk.
  rewrite run_unfold. replace (Z.to_nat k) with 0%nat by lia.
  unfold findFlow_loop, ret, findPaths, bind, get_st, lift, put_st. simpl.
  eexists; split; [reflexivity|]. simpl.
  split; [reflexivity|]. split; [reflexivity|].
  split; intros x Hx; unfold flow, potential; simpl; now apply fold_upd_const_in.
Qed.

Lemma X7_witness :
  exists st,
    run (H := ListHeap.t) G_rev len_rev 0 0 3 (-1) (run_state G_rev len_rev 20 0 3 2)
    = Some (0, st) /\
    pathNum st = 0 /\ paths st = [] /\
    (forall a, In a (arcs G_rev) -> flow st a = 0) /\
    (forall v, In v (nodes G_rev) -> potential st v = 0).
Proof.
  apply (X7_run_with_no_path_requested ListHeap.t _ G_rev len_rev 0 0%nat 3%nat (-1)
           (run_state G_rev len_rev 20 0 3 2)).
  lia.
Defined.

(** ** [findPaths] and [path] *)

(** X8. When [findPaths()] returns (with [_path_num >= 0], as [findFlow]
    leaves it), it has stored exactly [pathNum()] paths, so that [path(i)]
    is defined exactly for [i < pathNum()]; it changes neither the
    potentials nor the number of paths, the source or the target. *)
Theorem X8_findPaths_stores_pathNum_paths :
  forall (G : Digraph) (fuel : nat) (st st' : Suurballe) (u : unit),
    0 <= pathNum st ->
    findPaths G fuel st = Some (u, st') ->
    Z.of_nat (length (paths st')) = pathNum st' /\
    (forall i, path st' i <> None <-> Z.of_nat i < pathNum st') /\
    pathNum st' = pathNum st /\
    (forall v, potential st' v = potential st v) /\
    _source st' = _source st /\ _target st' = _target st.
Proof.
  intros G fuel st st' u Hpn Hfp. unfold findPaths, bind, get_st, lift, put_st in Hfp.
  destruct (findPaths_loop G fuel (Z.to_nat (_path_num st)) (_source st) (_target st)
              (fold_left (fun r a => upd r a (_flow st a)) (arcs G) (fun _ => 0)) [])
    as [[ps res]|] eqn:El; [|discriminate].
  inversion Hfp; subst; clear Hfp. unfold pathNum, potential, path in *. simpl.
  pose proof (findPaths_loop_length G _ _ _ _ _ _ _ _ El) as Hl. simpl in Hl.
  split; [lia|]. split; [|auto].
  intros i. rewrite nth_error_Some. lia.
Qed.

Lemma X8_witness :
  Z.of_nat (length (paths (run_state G_rev len_rev 20 0 3 2)))
  = pathNum (run_state G_rev len_rev 20 0 3 2) /\
  (forall i, path (run_state G_rev len_rev 20 0 3 2) i <> None
             <-> Z.of_nat i < pathNum (run_state G_rev len_rev 20 0 3 2)) /\
  pathNum (run_state G_rev len_rev 20 0 3 2)
  = pathNum (state_after G_rev len_rev 20 2 0 3) /\
  (forall v, potential (run_state G_rev len_rev 20 0 3 2) v
             = potential (state_after G_rev len_rev 20 2 0 3) v) /\
  _source (run_state G_rev len_rev 20 0 3 2) = _source (state_after G_rev len_rev 20 2 0 3) /\
  _target (run_state G_rev len_rev 20 0 3 2) = _target (state_after G_rev len_rev 20 2 0 3).
Proof.
  apply (X8_findPaths_stores_pathNum_paths G_rev 20 (state_after G_rev len_rev 20 2 0 3)
           (run_state G_rev len_rev 20 0 3 2) tt).
  - vm_compute. discriminate.
  - vm_compute. reflexivity.
Defined.

(** X9. [findPaths()] depends on the flow map: called for a positive number
    of paths with different source and target when no arc leaving the
    source carries flow (as after the flow map was reset), the search for
    an arc with flow runs past the last outgoing arc of the source, and the
    call has no defined result. *)
Theorem X9_findPaths_needs_the_flow :
  forall (G : Digraph) (fuel : nat) (st : Suurballe),
    0 < pathNum st ->
    _source st <> _target st ->
    (forall e, In e (outArcs G (_source st)) -> flow st e = 0) ->
    findPaths G fuel st = None.
Proof.
  intros G fuel st Hpn Hst Hz. unfold findPaths, bind, get_st, lift, put_st.
  unfold pathNum in Hpn.
  destruct (Z.to_nat (_path_num st)) as [|i] eqn:Ei; [lia|].
  simpl findPaths_loop.
  replace (walk G fuel (_target st) (_source st)
             (fold_left (fun r a => upd r a (_flow st a)) (arcs G) (fun _ => 0)) [])
    with (@None (list nat * (nat -> Z))); [reflexivity|].
  destruct fuel as [|fuel]; [reflexivity|]. simpl.
  destruct (Nat.eqb_spec (_source st) (_target st)) as [E|_]; [contradiction|].
  rewrite first_flow_arc_none; [reflexivity|].
  intros e He. rewrite fold_copy.
  destruct (in_dec Nat.eq_dec e (arcs G)); [apply (Hz e He) | reflexivity].
Qed.

Lemma X9_witness :
  findPaths G_rev 20 (init_maps G_rev 0 (run_state G_rev len_rev 20 0 3 2)) = None.
Proof.
  apply (X9_findPaths_needs_the_flow G_rev 20
           (init_maps G_rev 0 (run_state G_rev len_rev 20 0 3 2))).
  - vm_compute. reflexivity.
  - vm_compute. discriminate.
  - intros e He. simpl in He.
    repeat (destruct He as [<-|He]; [vm_compute; reflexivity|]). destruct He.
Defined.

(** ** [init] *)

(** X10. [init(s)] always returns; afterwards the flow of every arc and the
    potential of every node is [0], [totalLength()] is [0] and the source is
    [s], whatever the maps held before; the stored paths and their number
    are left as they were. *)
Theorem X10_init_resets_the_maps :
  forall (G : Digraph) (len : nat -> Z) (s : nat) (st : Suurballe),
    exists st',
      init G s st = Some (tt, st') /\
      (forall a, In a (arcs G) -> flow st' a = 0) /\
      (forall v, In v (nodes G) -> potential st' v = 0) /\
      totalLength G len st' = 0 /\
      _source st' = s /\
      paths st' = paths st /\ pathNum st' = pathNum st.
Proof.
  intros G len s st. exists (init_maps G s st). split; [reflexivity|].
  assert (Hf : forall a, In a (arcs G) -> _flow (init_maps G s st) a = 0)
    by (intros a Ha; simpl; now apply fold_upd_const_in).
  split; [exact Hf|].
  split; [intros v Hv; unfold potential; simpl; now apply fold_upd_const_in|].
  split; [|auto].
  rewrite totalLength_flow_cost. unfold flow_cost. apply sum_over_zero.
  intros e He. rewrite (Hf e He). reflexivity.
Qed.

(** ** The tree of the search *)

(** The state after one run of the engine (with the reference heap). *)
Definition search_after (G : Digraph) (len : nat -> Z) (fuel : nat) (st : Suurballe)
    : Suurballe :=
  match ResidualDijkstra_run (H := ListHeap.t) G len fuel st with
  | Some (_, st') => st'
  | None => st
  end.

(** X11. After a run of the residual shortest-path engine, whatever it
    returns, the source has no predecessor arc, the list of processed nodes
    has no duplicate and does not contain the target, and every other
    processed node has a predecessor arc, which is a residual arc of the
    current flow into it from a processed node; hence every processed node
    is reachable from the source in the residual graph.  The flow is not
    changed. *)
Theorem X11_search_builds_a_tree :
  forall (H : Type) (HO : HeapOps H) (HL : HeapLaws H) (G : Digraph) (len : nat -> Z)
         (fuel : nat) (st st' : Suurballe) (b : bool),
    wf_graph G ->
    In (_s (_dijkstra st)) (nodes G) ->
    (length (nodes G) < fuel)%nat ->
    ResidualDijkstra_run (H := H) G len fuel st = Some (b, st') ->
    _pred st' (_s (_dijkstra st)) = None /\
    NoDup (_proc_nodes (_dijkstra st')) /\
    ~ In (_t (_dijkstra st)) (_proc_nodes (_dijkstra st')) /\
    (forall v, In v (_proc_nodes (_dijkstra st')) -> v <> _s (_dijkstra st) ->
               exists e u, _pred st' v = Some e /\ res_arc G (_flow st) e u v /\
                           In u (_proc_nodes (_dijkstra st'))) /\
    (forall v, In v (_proc_nodes (_dijkstra st')) ->
               reachable G (_flow st) (_s (_dijkstra st)) v) /\
    _flow st' = _flow st.
Proof.
  intros H HO HL G len fuel st st' b Hwf Hs Hfuel Hrun.
  destruct (ResidualDijkstra_run_spec G Hwf len fuel st Hs Hfuel)
    as (b1 & st1 & r & Hrun1 & RP).
  rewrite Hrun in Hrun1. inversion Hrun1; subst b1 st1; clear Hrun1.
  pose proof (rp_inv _ _ _ _ _ _ RP) as Hinv.
  rewrite (rp_pred _ _ _ _ _ _ RP), (rp_dj _ _ _ _ _ _ RP). simpl.
  assert (Hpost : forall v, In v (s_proc r) -> heap_state (s_heap r) v <> PRE_HEAP).
  { intros v Hv. apply (si_post _ _ _ _ _ _ _ Hinv) in Hv. rewrite Hv. discriminate. }
  split; [apply (si_src _ _ _ _ _ _ _ Hinv)|].
  split; [apply (si_nodup _ _ _ _ _ _ _ Hinv)|].
  split; [apply (si_t _ _ _ _ _ _ _ Hinv)|].
  split; [|split].
  - intros v Hv Hne.
    destruct (si_pred _ _ _ _ _ _ _ Hinv v (Hpost v Hv) Hne) as (e & u & Hp & Hr & Hu & _).
    exists e, u. auto.
  - intros v Hv. apply (si_reach _ _ _ _ _ _ _ Hinv v (Hpost v Hv)).
  - apply (rp_flow _ _ _ _ _ _ RP).
Qed.

Lemma X11_witness :
  _pred (search_after G_rev len_rev 20 (loop_start G_rev 0 3 new_Suurballe))
        (_s (_dijkstra (loop_start G_rev 0 3 new_Suurballe))) = None /\
  NoDup (_proc_nodes (_dijkstra
           (search_after G_rev len_rev 20 (loop_start G_rev 0 3 new_Suurballe)))) /\
  ~ In (_t (_dijkstra (loop_start G_rev 0 3 new_Suurballe)))
       (_proc_nodes (_dijkstra
          (search_after G_rev len_rev 20 (loop_start G_rev 0 3 new_Suurballe)))) /\
  (forall v,
     In v (_proc_nodes (_dijkstra
             (search_after G_rev len_rev 20 (loop_start G_rev 0 3 new_Suurballe)))) ->
     v <> _s (_dijkstra (loop_start G_rev 0 3 new_Suurballe)) ->
     exists e u,
       _pred (search_after G_rev len_rev 20 (loop_start G_rev 0 3 new_Suurballe)) v = Some e /\
       res_arc G_rev (_flow (loop_start G_rev 0 3 new_Suurballe)) e u v /\
       In u (_proc_nodes (_dijkstra
               (search_after G_rev len_rev 20 (loop_start G_rev 0 3 new_Suurballe))))) /\
  (forall v,
     In v (_proc_nodes (_dijkstra
             (search_after G_rev len_rev 20 (loop_start G_rev 0 3 new_Suurballe)))) ->
     reachable G_rev (_flow (loop_start G_rev 0 3 new_Suurballe))
               (_s (_dijkstra (loop_start G_rev 0 3 new_Suurballe))) v) /\
  _flow (search_after G_rev len_rev 20 (loop_start G_rev 0 3 new_Suurballe))
  = _flow (loop_start G_rev 0 3 new_Suurballe).
Proof.
  apply (X11_search_builds_a_tree ListHeap.t _ _ G_rev len_rev 20
           (loop_start G_rev 0 3 new_Suurballe)
           (search_after G_rev len_rev 20 (loop_start G_rev 0 3 new_Suurballe)) true).
  - apply mkDigraph_wf; reflexivity.
  - simpl; auto.
  - simpl; lia.
  - vm_compute. reflexivity.
Defined.

(** X12. When the residual shortest-path engine returns [false], the nodes
    it has processed are exactly the nodes that are reachable from the
    source in the residual graph of the current flow. *)
Theorem X12_failed_search_processes_the_reachable_nodes :
  forall (H : Type) (HO : HeapOps H) (HL : HeapLaws H) (G : Digraph) (len : nat -> Z)
         (fuel : nat) (st st' : Suurballe),
    wf_graph G ->
    In (_s (_dijkstra st)) (nodes G) ->
    (length (nodes G) < fuel)%nat ->
    ResidualDijkstra_run (H := H) G len fuel st = Some (false, st') ->
    forall v, In v (_proc_nodes (_dijkstra st'))
              <-> reachable G (_flow st) (_s (_dijkstra st)) v.
Proof.
  intros H HO HL G len fuel st st' Hwf Hs Hfuel Hrun v.
  destruct (ResidualDijkstra_run_spec G Hwf len fuel st Hs Hfuel)
    as (b1 & st1 & r & Hrun1 & RP).
  rewrite Hrun in Hrun1. inversion Hrun1; subst b1 st1; clear Hrun1.
  pose proof (rp_inv _ _ _ _ _ _ RP) as Hinv.
  destruct (rp_false _ _ _ _ _ _ RP eq_refl) as (He & _).
  rewrite (rp_dj _ _ _ _ _ _ RP). simpl.
  assert (Hnin : forall w, heap_state (s_heap r) w <> IN_HEAP)
    by (apply heap_empty_spec; [apply Hinv | exact He]).
  split.
  - intros Hv. apply (si_reach _ _ _ _ _ _ _ Hinv).
    apply (si_post _ _ _ _ _ _ _ Hinv) in Hv. rewrite Hv. discriminate.
  - intros Hv. induction Hv as [|u e w Hu IH Hr].
    + destruct (si_src _ _ _ _ _ _ _ Hinv) as [_ [Hin|[_ Hst]]]; [exact Hin|].
      specialize (Hst (_s (_dijkstra st))). rewrite Nat.eqb_refl in Hst.
      now destruct (Hnin (_s (_dijkstra st))).
    + apply (si_post _ _ _ _ _ _ _ Hinv).
      pose proof (si_complete _ _ _ _ _ _ _ Hinv u e w IH Hr) as Hnpre.
      specialize (Hnin w). destruct (heap_state (s_heap r) w); congruence.
Qed.

Lemma X12_witness :
  In 1%nat (_proc_nodes (_dijkstra
              (search_after G_cut len_arc 10 (loop_start G_cut 0 2 new_Suurballe))))
  <-> reachable G_cut (_flow (loop_start G_cut 0 2 new_Suurballe))
                (_s (_dijkstra (loop_start G_cut 0 2 new_Suurballe))) 1%nat.
Proof.
  apply (X12_failed_search_processes_the_reachable_nodes ListHeap.t _ _ G_cut len_arc 10
           (loop_start G_cut 0 2 new_Suurballe)
           (search_after G_cut len_arc 10 (loop_start G_cut 0 2 new_Suurballe))).
  - apply mkDigraph_wf; reflexivity.
  - simpl; auto.
  - simpl; lia.
  - vm_compute. reflexivity.
Defined.
